(** * The driver's experimental dependency graph

    A shallow embedding of [lib/Driver/ExperimentalDependencyDriverGraph.cpp]:
    the integration of a per-file [FrontendGraph] into the persistent
    [DriverGraph], and the traversal that finds the jobs affected by a change.

    Conventions of the embedding.
    - A [DriverNode *] is an address into the store [nodes] of the graph;
      [nodeMap] holds addresses, as the C++ map holds pointers, so that a node
      that is moved keeps its identity and every alias sees its mutation.
    - The two indices of the [BiIndexedTwoStageMap] (by swiftDeps then key, by
      key then swiftDeps) are one finite map on pairs; the bucket of the empty
      string holds the nodes without a swiftDeps file, as in the source
      ([nodeMap.find("", key)]).
    - A failed [assert] aborts the call ([AssertionFailed]); dereferencing an
      address that is not allocated is [DanglingNode].
    - [verify()] and the dot-file output are debugging aids that read the
      graph; only the sequence number that [dotFilenameForJob] increments is
      part of the state.
    - [getJob], [ensureJobIsTracked] and [assertImplementationsMustBeInFiles]
      are declared outside this file; they are assertions that read the
      graph, and are modelled where they are defined below.
    - [markExternal] makes its key with [createDependedUponKey], which is
      declared outside this file: the embedding takes it as an argument.
    - [std::to_string] of an unsigned number is [pretty] on [N].
    - Iteration over an unordered container is iteration over the list of its
      elements in the order stdpp enumerates them. *)

From Stdlib Require Import NArith.
From stdpp Require Import base option list strings gmap sets countable.
From stdpp Require Import pretty.

(** ** Dependency keys *)

(** Modelled from the spec: the kinds of a [DependencyKey]
    (swift/Basic/ReferenceDependencyKeys.h and
    swift/AST/ExperimentalDependencies.h are not part of this file). *)
Inductive NodeKind : Set :=
  | topLevel | nominal | member | dynamicLookup | sourceFileProvide
  | externalDepend.

(** Modelled from the spec: "each kind additionally distinguishes interface
    vs implementation facts"; the aspect is that part of the kind. *)
Inductive DeclAspect : Set := interface | implementation.

(** Modelled from the spec: a [DependencyKey] is an immutable value (kind,
    with its aspect, context, name) with equality and hashing. *)
Record DependencyKey : Set := mkKey {
  getKind : NodeKind;
  getAspect : DeclAspect;
  getContext : string;
  getName : string
}.

(** Modelled from the spec: [isInterface] is a pure function of the kind,
    namely whether the key stands for an interface fact. *)
Definition isInterface (k : DependencyKey) : bool :=
  match getAspect k with interface => true | implementation => false end.

#[global] Instance NodeKind_eq_dec : EqDecision NodeKind.
Proof. solve_decision. Defined.

#[global] Instance DeclAspect_eq_dec : EqDecision DeclAspect.
Proof. solve_decision. Defined.

#[global] Instance DependencyKey_eq_dec : EqDecision DependencyKey.
Proof. solve_decision. Defined.

Definition NodeKind_code (k : NodeKind) : nat :=
  match k with
  | topLevel => 0 | nominal => 1 | member => 2 | dynamicLookup => 3
  | sourceFileProvide => 4 | externalDepend => 5
  end.

Definition NodeKind_of_code (n : nat) : NodeKind :=
  match n with
  | 0 => topLevel | 1 => nominal | 2 => member | 3 => dynamicLookup
  | 4 => sourceFileProvide | _ => externalDepend
  end.

#[global] Instance NodeKind_countable : Countable NodeKind.
Proof.
  refine (inj_countable' NodeKind_code NodeKind_of_code _).
  intros k; destruct k; reflexivity.
Defined.

#[global] Instance DeclAspect_countable : Countable DeclAspect.
Proof.
  refine (inj_countable'
            (λ a, match a with interface => true | implementation => false end)
            (λ b : bool, if b then interface else implementation) _).
  intros a; destruct a; reflexivity.
Defined.

#[global] Instance DependencyKey_countable : Countable DependencyKey.
Proof.
  refine (inj_countable'
            (λ k, (getKind k, getAspect k, getContext k, getName k))
            (λ t, match t with (kd, a, c, n) => mkKey kd a c n end) _).
  intros k; destruct k; reflexivity.
Defined.

(** ** Nodes, jobs and graphs *)

(** Modelled from the spec: a node of a freshly loaded per-file graph, (key,
    fingerprint, owning swiftDeps file if any). *)
Module FrontendNode.
Record t : Set := mk {
  getKey : DependencyKey;
  getFingerprint : option string;
  getSwiftDeps : option string
}.
End FrontendNode.

(** Modelled from the spec: a node of the driver's graph has the same shape;
    its swiftDeps is [None] for a node that no file has claimed (an "expat"). *)
Module DriverNode.
Record t : Set := mk {
  getKey : DependencyKey;
  getFingerprint : option string;
  getSwiftDeps : option string
}.

Definition setFingerprint (n : t) (fp : option string) : t :=
  mk (getKey n) fp (getSwiftDeps n).

Definition setSwiftDeps (n : t) (sd : option string) : t :=
  mk (getKey n) (getFingerprint n) sd.

(** The key of the bucket a node is filed under: the empty string stands
    for "no swiftDeps". *)
Definition getSwiftDepsForMapKey (n : t) : string :=
  default EmptyString (getSwiftDeps n).
End DriverNode.

(** Modelled from the spec: a task is an opaque handle that stands in
    one-to-one correspondence with the unit whose swiftdeps it writes. *)
Record Job : Set := mkJob { getSwiftDeps : string }.

#[global] Instance Job_eq_dec : EqDecision Job.
Proof. solve_decision. Defined.

#[global] Instance Job_countable : Countable Job.
Proof.
  refine (inj_countable' getSwiftDeps mkJob _).
  intros j; destruct j; reflexivity.
Defined.

(** Modelled from the spec: the per-file graph is its unit identifier, its
    nodes in the order [forEachNode] visits them, and its local arcs from a
    definition's key to the keys of its uses. *)
Record FrontendGraph : Type := mkFrontendGraph {
  getSwiftDepsFromSourceFileProvide : string;
  allNodes : list FrontendNode.t;
  usesOfKey : gmap DependencyKey (gset DependencyKey)
}.

(** The keys of the nodes [FrontendGraph::forEachUseOf] calls back with. *)
Definition FrontendGraph_forEachUseOf (g : FrontendGraph) (n : FrontendNode.t)
  : list DependencyKey :=
  elements (default ∅ (usesOfKey g !! FrontendNode.getKey n)).

Inductive LoadResult : Set := HadError | UpToDate | AffectsDownstream.

(** The state of a [DriverGraph]. [nodes] is the store of the [DriverNode]
    objects the graph owns; the other fields are the members of the class. *)
Record DriverGraph : Type := mkDriverGraph {
  nodes : gmap positive DriverNode.t;
  nodeMap : gmap (string * DependencyKey) positive;
  usesByDef : gmap DependencyKey (gset DependencyKey);
  externalDependencies : gset string;
  cascadingJobs : gset string;
  jobsBySwiftDeps : gmap string Job;
  dotFileSequenceNumberByJob : gmap Job N
}.

Definition emptyGraph : DriverGraph :=
  mkDriverGraph ∅ ∅ ∅ ∅ ∅ ∅ ∅.

Definition withNodes (G : DriverGraph) (h : gmap positive DriverNode.t) :=
  mkDriverGraph h (nodeMap G) (usesByDef G) (externalDependencies G)
                (cascadingJobs G) (jobsBySwiftDeps G)
                (dotFileSequenceNumberByJob G).

Definition withNodeMap (G : DriverGraph)
    (m : gmap (string * DependencyKey) positive) :=
  mkDriverGraph (nodes G) m (usesByDef G) (externalDependencies G)
                (cascadingJobs G) (jobsBySwiftDeps G)
                (dotFileSequenceNumberByJob G).

Definition withUsesByDef (G : DriverGraph)
    (u : gmap DependencyKey (gset DependencyKey)) :=
  mkDriverGraph (nodes G) (nodeMap G) u (externalDependencies G)
                (cascadingJobs G) (jobsBySwiftDeps G)
                (dotFileSequenceNumberByJob G).

Definition withExternalDependencies (G : DriverGraph) (e : gset string) :=
  mkDriverGraph (nodes G) (nodeMap G) (usesByDef G) e
                (cascadingJobs G) (jobsBySwiftDeps G)
                (dotFileSequenceNumberByJob G).

Definition withCascadingJobs (G : DriverGraph) (c : gset string) :=
  mkDriverGraph (nodes G) (nodeMap G) (usesByDef G) (externalDependencies G)
                c (jobsBySwiftDeps G) (dotFileSequenceNumberByJob G).

Definition withJobsBySwiftDeps (G : DriverGraph) (j : gmap string Job) :=
  mkDriverGraph (nodes G) (nodeMap G) (usesByDef G) (externalDependencies G)
                (cascadingJobs G) j (dotFileSequenceNumberByJob G).

Definition withDotFileSequenceNumberByJob (G : DriverGraph) (d : gmap Job N) :=
  mkDriverGraph (nodes G) (nodeMap G) (usesByDef G) (externalDependencies G)
                (cascadingJobs G) (jobsBySwiftDeps G) d.

(** ** Outcomes of a call *)

Inductive Failure : Set := AssertionFailed | DanglingNode | OutOfFuel.

Inductive outcome (A : Type) : Type :=
  | Done (a : A)
  | Abort (f : Failure).
Arguments Done {A} a.
Arguments Abort {A} f.

#[global] Instance outcome_ret : MRet outcome := λ A a, Done a.
#[global] Instance outcome_bind : MBind outcome := λ A B k m,
  match m with Done a => k a | Abort f => Abort f end.

Definition assertThat (b : bool) : outcome unit :=
  if b then Done tt else Abort AssertionFailed.

(** A loop whose body may abort. *)
Fixpoint forEachM {S A : Type} (body : S → A → outcome S) (s : S) (l : list A)
  : outcome S :=
  match l with
  | [] => Done s
  | a :: l => s' ← body s a; forEachM body s' l
  end.

(** ** The node store and the two-way index *)

Definition getNode (G : DriverGraph) (p : positive) : outcome DriverNode.t :=
  match nodes G !! p with
  | Some n => Done n
  | None => Abort DanglingNode
  end.

(** Modelled from the spec: lookup in the two-level index by (unit, key). *)
Definition find (G : DriverGraph) (swiftDeps : string) (key : DependencyKey)
  : option positive :=
  nodeMap G !! (swiftDeps, key).

(** Modelled from the spec: [nodeMap[swiftDeps]], the nodes of one unit by
    key. *)
Definition nodesOfSwiftDeps (G : DriverGraph) (swiftDeps : string)
  : gmap DependencyKey positive :=
  default ∅ (map_curry (M1:=gmap string) (M2:=gmap DependencyKey)
                      (nodeMap G) !! swiftDeps).

(** Modelled from the spec: [nodeMap[key]], "all nodes matching a key
    regardless of unit", as (unit, node) pairs. *)
Definition nodesOfKey (G : DriverGraph) (key : DependencyKey)
  : list (string * positive) :=
  omap (λ e : string * DependencyKey * positive,
          if decide (e.1.2 = key) then Some (e.1.1, e.2) else None)
       (map_to_list (nodeMap G)).

(** Modelled from the spec: a node is filed under its own swiftDeps bucket
    and key; an occupied place is left as it is, as [insert] on the
    underlying maps does. *)
Definition addToMap (G : DriverGraph) (p : positive) : outcome DriverGraph :=
  n ← getNode G p;
  let place := (DriverNode.getSwiftDepsForMapKey n, DriverNode.getKey n) in
  match nodeMap G !! place with
  | Some _ => Done G
  | None => Done (withNodeMap G (<[place := p]> (nodeMap G)))
  end.

(** Modelled from the spec: the entry under the node's own bucket and key is
    removed from the index. *)
Definition eraseNodeFromMap (G : DriverGraph) (p : positive)
  : outcome DriverGraph :=
  n ← getNode G p;
  let place := (DriverNode.getSwiftDepsForMapKey n, DriverNode.getKey n) in
  Done (withNodeMap G (delete place (nodeMap G))).

(** Modelled from the spec: relocation keeps the node and refiles it under
    its new owner. *)
Definition moveNodeToDifferentFile (G : DriverGraph) (p : positive)
    (newFile : option string) : outcome DriverGraph :=
  G ← eraseNodeFromMap G p;
  n ← getNode G p;
  let G := withNodes G (<[p := DriverNode.setSwiftDeps n newFile]> (nodes G)) in
  addToMap G p.

(** Modelled from the spec: "the key is reported changed only if the
    fingerprint differs (or either is absent)"; an absent fingerprint is
    always treated as changed. *)
Definition fingerprintChanged (old new : option string) : bool :=
  match old, new with
  | Some a, Some b => negb (String.eqb a b)
  | _, _ => true
  end.

(** Modelled from the spec: [DriverNode::integrateFingerprintFrom] replaces
    the node's fingerprint by the integrand's and reports whether that is a
    change. *)
Definition integrateFingerprintFrom (G : DriverGraph) (p : positive)
    (integrand : FrontendNode.t) : outcome (bool * DriverGraph) :=
  n ← getNode G p;
  let fp := FrontendNode.getFingerprint integrand in
  Done (fingerprintChanged (DriverNode.getFingerprint n) fp,
        withNodes G (<[p := DriverNode.setFingerprint n fp]> (nodes G))).

(** ** Interfacing to Compilation *)

Definition hasValue {A : Type} (o : option A) : bool :=
  match o with Some _ => true | None => false end.

Definition isMarked (G : DriverGraph) (cmd : Job) : bool :=
  bool_decide (getSwiftDeps cmd ∈ cascadingJobs G).

(** Returns whether the job was newly inserted. *)
Definition markIntransitive (G : DriverGraph) (node : Job)
  : bool * DriverGraph :=
  (negb (isMarked G node),
   withCascadingJobs G ({[getSwiftDeps node]} ∪ cascadingJobs G)).

(** Only the correspondence is recorded; [insert] keeps an older entry. *)
Definition addIndependentNode (G : DriverGraph) (job : Job) : DriverGraph :=
  match jobsBySwiftDeps G !! getSwiftDeps job with
  | Some _ => G
  | None =>
      withJobsBySwiftDeps G (<[getSwiftDeps job := job]> (jobsBySwiftDeps G))
  end.

Definition getExternalDependencies (G : DriverGraph) : list string :=
  elements (externalDependencies G).

(** Modelled from the spec: a cascading unit is inserted into the set of
    cascading units. *)
Definition rememberThatJobCascades (cascading : gset string)
    (swiftDeps : string) : gset string :=
  {[swiftDeps]} ∪ cascading.

(** Modelled from the spec: the task that corresponds to a unit. *)
Definition getJob (G : DriverGraph) (swiftDeps : string) : outcome Job :=
  match jobsBySwiftDeps G !! swiftDeps with
  | Some j => Done j
  | None => Abort AssertionFailed
  end.

(** Modelled from the spec: "each unit guaranteed to have a corresponding
    task". [ensureJobIsTracked] is declared outside this file; [verify()],
    which is [const], calls it for every bucket of the index, the bucket of
    the empty string among them: it cannot add a job, and asserts that the
    unit, unless its name is empty, has one. *)
Definition ensureJobIsTracked (G : DriverGraph) (swiftDeps : string)
  : outcome unit :=
  if decide (swiftDeps = EmptyString) then Done tt
  else _ ← getJob G swiftDeps; Done tt.

(** Modelled from the spec: [assertImplementationsMustBeInFiles] is declared
    outside this file; by its name, a node whose key is an implementation
    fact, not an interface fact, has a swiftDeps file. *)
Definition assertImplementationsMustBeInFiles (key : DependencyKey)
    (swiftDeps : option string) : bool :=
  hasValue swiftDeps || isInterface key.

(** ** Integrating a FrontendGraph into the DriverGraph *)

Definition integrateByCreatingANewNode (G : DriverGraph)
    (integrand : FrontendNode.t) : outcome (positive * DriverGraph) :=
  let key := FrontendNode.getKey integrand in
  let newNode := fresh (dom (nodes G)) in
  let n := DriverNode.setSwiftDeps
             (DriverNode.mk key (FrontendNode.getFingerprint integrand) None)
             (FrontendNode.getSwiftDeps integrand) in
  _ ← assertThat (assertImplementationsMustBeInFiles key
                    (FrontendNode.getSwiftDeps integrand));
  G ← addToMap (withNodes G (<[newNode := n]> (nodes G))) newNode;
  Done (newNode, G).

Definition integrateUsesByDef (G : DriverGraph) (n : FrontendNode.t)
    (g : FrontendGraph) : DriverGraph :=
  let def := FrontendNode.getKey n in
  let uses := default ∅ (usesByDef G !! def) in
  let uses :=
    foldl (λ (uses : gset DependencyKey) use,
             if decide (use ≠ def) then {[use]} ∪ uses else uses)
          uses (FrontendGraph_forEachUseOf g n) in
  withUsesByDef G (<[def := uses]> (usesByDef G)).

Definition removeNode (G : DriverGraph) (n : positive) : outcome DriverGraph :=
  G ← eraseNodeFromMap G n;
  Done (withNodes G (delete n (nodes G))).

Definition integrateFrontendDeclNode (G : DriverGraph)
    (integrand : FrontendNode.t)
    (preexistingNodeInPlace preexistingExpat : option positive)
  : outcome (bool * DriverGraph) :=
  match preexistingNodeInPlace with
  | Some inPlace => integrateFingerprintFrom G inPlace integrand
  | None =>
      match preexistingExpat with
      | Some expat =>
          (* Some other file depended on this, but didn't know where it was. *)
          G ← moveNodeToDifferentFile G expat
                (FrontendNode.getSwiftDeps integrand);
          '(_, G) ← integrateFingerprintFrom G expat integrand;
          Done (true, G) (* New Decl, assume changed *)
      | None =>
          '(_, G) ← integrateByCreatingANewNode G integrand;
          Done (true, G) (* New node *)
      end
  end.

Definition integrateFrontendExpatNode (G : DriverGraph)
    (integrand : FrontendNode.t) (swiftDepsOfFrontendGraph : string)
    (preexistingNodeInPlace preexistingExpat : option positive)
    (dupsExistInOtherFiles : bool) : outcome (bool * DriverGraph) :=
  if dupsExistInOtherFiles || hasValue preexistingExpat then
    (* Integrand is a dependency from another file, and we already have a
       def node for that. Nothing to be done. *)
    _ ← assertThat (negb (hasValue (FrontendNode.getFingerprint integrand)));
    Done (false, G)
  else
    match preexistingNodeInPlace with
    | Some inPlace =>
        '(_, G) ← integrateFingerprintFrom G inPlace integrand;
        G ← moveNodeToDifferentFile G inPlace None;
        Done (true, G)
    | None =>
        '(_, G) ← integrateByCreatingANewNode G integrand;
        Done (true, G)
    end.

Definition integrateFrontendNode (G : DriverGraph)
    (integrand : FrontendNode.t) (swiftDepsOfFrontendGraph : string)
    (preexistingNodeInPlace : option positive)
  : outcome (bool * DriverGraph) :=
  let key := FrontendNode.getKey integrand in
  let preexistingExpat :=
    if hasValue preexistingNodeInPlace then None else find G EmptyString key in
  let preexistingCount := length (nodesOfKey G key) in
  (* If there is an expat, must not be any Decls in files. *)
  _ ← assertThat (negb (hasValue preexistingExpat)
                  || Nat.eqb preexistingCount 1);
  let dupsExistInOtherFiles :=
    negb (hasValue preexistingNodeInPlace)
    && negb (hasValue preexistingExpat)
    && negb (Nat.eqb preexistingCount 0) in
  if hasValue (FrontendNode.getSwiftDeps integrand)
  then integrateFrontendDeclNode G integrand preexistingNodeInPlace
         preexistingExpat
  else integrateFrontendExpatNode G integrand swiftDepsOfFrontendGraph
         preexistingNodeInPlace preexistingExpat dupsExistInOtherFiles.

(** The locals of [integrate] that its loops update. *)
Record Integration : Type := mkIntegration {
  graph : DriverGraph;
  disappearedNodes : gmap DependencyKey positive;
  changedNodes : gset DependencyKey
}.

(** The body of the [forEachNode] loop of [integrate]. *)
Definition integrateNode (g : FrontendGraph) (swiftDeps : string)
    (st : Integration) (integrand : FrontendNode.t) : outcome Integration :=
  let G := integrateUsesByDef (graph st) integrand g in
  let key := FrontendNode.getKey integrand in
  let prexistingNodeInPlace :=
    match FrontendNode.getSwiftDeps integrand with
    | Some sd => find G sd key
    | None => None
    end in
  let disappeared :=
    if hasValue prexistingNodeInPlace
    then delete key (disappearedNodes st) else disappearedNodes st in
  '(changed, G) ← integrateFrontendNode G integrand swiftDeps
                    prexistingNodeInPlace;
  let changedKeys :=
    if changed : bool then {[key]} ∪ changedNodes st else changedNodes st in
  (* Track externalDependencies so Compilation can check them. *)
  let G :=
    if decide (getKind (FrontendNode.getKey integrand) = externalDepend)
    then withExternalDependencies G
           ({[getName (FrontendNode.getKey integrand)]}
              ∪ externalDependencies G)
    else G in
  Done (mkIntegration G disappeared changedKeys).

(** The body of the loop of [integrate] over the nodes that disappeared. *)
Definition removeDisappeared (st : Integration)
    (p : DependencyKey * positive) : outcome Integration :=
  n ← getNode (graph st) p.2;
  G ← removeNode (graph st) p.2;
  Done (mkIntegration G (disappearedNodes st)
          ({[DriverNode.getKey n]} ∪ changedNodes st)).

(** [integrate] up to its last statement: the graph and the keys that
    changed. *)
Definition integrateChanges (G : DriverGraph) (g : FrontendGraph)
  : outcome (gset DependencyKey * DriverGraph) :=
  let swiftDeps := getSwiftDepsFromSourceFileProvide g in
  (* When done, disappearedNodes contains the nodes which no longer exist. *)
  let st := mkIntegration G (nodesOfSwiftDeps G swiftDeps) ∅ in
  st ← forEachM (integrateNode g swiftDeps) st (allNodes g);
  st ← forEachM removeDisappeared st (map_to_list (disappearedNodes st));
  Done (changedNodes st, graph st).

Definition integrate (G : DriverGraph) (g : FrontendGraph)
  : outcome (LoadResult * DriverGraph) :=
  '(changed, G) ← integrateChanges G g;
  Done (if decide (changed = ∅) then UpToDate else AffectsDownstream, G).

(** A [MemoryBuffer] is represented by what [FrontendGraph::loadFromBuffer]
    makes of it: a graph, or nothing when it cannot be parsed. *)
Definition MemoryBuffer : Type := option FrontendGraph.

Definition loadFromBuffer (G : DriverGraph) (job : Job) (buffer : MemoryBuffer)
  : outcome (LoadResult * DriverGraph) :=
  match buffer with
  | None => Done (HadError, G)
  | Some fg => integrate (addIndependentNode G job) fg
  end.

(** [dotFilenameForJob] increments the (unsigned) sequence number of the job;
    the file itself is written outside the graph. *)
Definition emitDotFileForJob (G : DriverGraph) (job : Job) : DriverGraph :=
  let seqNo := default 0%N (dotFileSequenceNumberByJob G !! job) in
  withDotFileSequenceNumberByJob G
    (<[job := ((seqNo + 1) mod 2 ^ 32)%N]> (dotFileSequenceNumberByJob G)).

(** The name of the next dot file of the job, made of its swiftDeps and
    its sequence number, and the graph in which that number has advanced. *)
Definition dotFilenameForJob (G : DriverGraph) (job : Job)
  : string * DriverGraph :=
  let seqNo := default 0%N (dotFileSequenceNumberByJob G !! job) in
  (getSwiftDeps job +:+ "." +:+ pretty seqNo +:+ ".dot",
   emitDotFileForJob G job).

(** [file] is the result of [llvm::MemoryBuffer::getFile(path)]. *)
Definition loadFromPath (G : DriverGraph) (Cmd : Job)
    (file : option MemoryBuffer) : outcome (LoadResult * DriverGraph) :=
  match file with
  | None => Done (HadError, G)
  | Some buffer =>
      (* For debugging, emit dot files before and after. *)
      let G := emitDotFileForJob G Cmd in
      '(r, G) ← loadFromBuffer G Cmd buffer;
      let G := emitDotFileForJob G Cmd in
      Done (r, G)
  end.

(** ** DriverGraph access *)

Definition forEachMatchingNode (G : DriverGraph) (key : DependencyKey)
  : list positive :=
  (nodesOfKey G key).*2.

Definition forEachUseOf (G : DriverGraph) (def : DriverNode.t)
  : list positive :=
  match usesByDef G !! DriverNode.getKey def with
  | None => []
  | Some uses => elements uses ≫= forEachMatchingNode G
  end.

(** The nodes [fn] is called with, one for each entry of the index. *)
Definition forEachNode (G : DriverGraph) : list positive :=
  (map_to_list (nodeMap G)).*2.

(** The pairs of a definition and a use [fn] is called with. *)
Definition forEachArc (G : DriverGraph) : list (positive * positive) :=
  defUse ← map_to_list (usesByDef G);
  defNode ← forEachMatchingNode G defUse.1;
  useKey ← elements defUse.2;
  useNode ← forEachMatchingNode G useKey;
  [(defNode, useNode)].

(** ** DriverGraph traversal *)

(** The traversal reads the index and the arcs of [G]; it updates the set of
    visited nodes and the set of cascading jobs, which are threaded through.
    The recursion is bounded by [fuel]. *)
Fixpoint checkTransitiveClosureForCascading (fuel : nat) (G : DriverGraph)
    (st : gset positive * gset string) (potentiallyCascadingDef : positive)
  : outcome (gset positive * gset string) :=
  match fuel with
  | O => Abort OutOfFuel
  | S fuel =>
      (* Cycle recording and check. *)
      if decide (potentiallyCascadingDef ∈ st.1) then Done st
      else
        let visited := {[potentiallyCascadingDef]} ∪ st.1 in
        def ← getNode G potentiallyCascadingDef;
        (* Should only call me for Decl nodes. *)
        match DriverNode.getSwiftDeps def with
        | None => Abort AssertionFailed
        | Some swiftDeps =>
            forEachM
              (λ st u,
                 un ← getNode G u;
                 let cascading :=
                   if isInterface (DriverNode.getKey un)
                   then rememberThatJobCascades st.2 swiftDeps else st.2 in
                 checkTransitiveClosureForCascading fuel G (st.1, cascading) u)
              (visited, st.2) (forEachUseOf G def)
        end
  end.

(** Every call that starts a new node adds it to the visited set, which holds
    only nodes of the index, so this many nested calls cannot be exceeded. *)
Definition traversalFuel (G : DriverGraph) : nat := S (size (nodeMap G)).

(** The locals of the copy-back loop of [markTransitive]. *)
Record CopyBack : Type := mkCopyBack {
  visitedSwiftDeps : gset string;
  visitedJobs : list Job;
  trackedGraph : DriverGraph
}.

Definition copyBackVisitedJob (st : CopyBack) (n : positive)
  : outcome CopyBack :=
  node ← getNode (trackedGraph st) n;
  match DriverNode.getSwiftDeps node with
  | None => Done st
  | Some swiftDeps =>
      if decide (swiftDeps ∈ visitedSwiftDeps st) then Done st
      else
        _ ← assertThat (assertImplementationsMustBeInFiles
                          (DriverNode.getKey node)
                          (DriverNode.getSwiftDeps node));
        _ ← ensureJobIsTracked (trackedGraph st) swiftDeps;
        job ← getJob (trackedGraph st) swiftDeps;
        Done (mkCopyBack ({[swiftDeps]} ∪ visitedSwiftDeps st)
                         (visitedJobs st ++ [job]) (trackedGraph st))
  end.

Definition markTransitive (G : DriverGraph) (visited : list Job) (job : Job)
  : outcome (list Job * DriverGraph) :=
  let swiftDeps := getSwiftDeps job in
  (* Do the traversal. *)
  '(visitedNodeSet, cascading) ←
      forEachM (checkTransitiveClosureForCascading (traversalFuel G) G)
               (∅, cascadingJobs G)
               (map_to_list (nodesOfSwiftDeps G swiftDeps)).*2;
  let G := withCascadingJobs G cascading in
  (* Copy back visited jobs. *)
  st ← forEachM copyBackVisitedJob (mkCopyBack ∅ visited G)
         (elements visitedNodeSet);
  Done (visitedJobs st, trackedGraph st).

(** Modelled from the spec: the task of the unit of a node; only a node of a
    file has one. *)
Definition getJobOfNode (G : DriverGraph) (swiftDeps : option string)
  : outcome Job :=
  match swiftDeps with
  | Some swiftDeps => getJob G swiftDeps
  | None => Abort AssertionFailed
  end.

(** The body of the loops of [markExternal]: the job of a node that uses the
    external dependency is added to [uses], and [markTransitive] goes on
    from it, unless the job is marked. *)
Definition markExternalUse (st : list Job * DriverGraph) (n : positive)
  : outcome (list Job * DriverGraph) :=
  node ← getNode st.2 n;
  job ← getJobOfNode st.2 (DriverNode.getSwiftDeps node);
  if isMarked st.2 job then Done st
  else markTransitive st.2 (st.1 ++ [job]) job.

Section MarkExternal.
(** [DependencyKey::createDependedUponKey], which is declared outside this
    file. *)
Variable createDependedUponKey : NodeKind → string → DependencyKey.

(** Add every (swiftdeps) use of the external dependency to uses. *)
Definition markExternal (G : DriverGraph) (uses : list Job)
    (externalDependency : string) : outcome (list Job * DriverGraph) :=
  (* These nodes will depend on the interface of the external Decl. *)
  let key := createDependedUponKey externalDepend externalDependency in
  let useKeys := default ∅ (usesByDef G !! key) in
  let G := withUsesByDef G (<[key := useKeys]> (usesByDef G)) in
  forEachM (λ st keyOfUse,
              forEachM markExternalUse st
                (forEachMatchingNode st.2 keyOfUse))
           (uses, G) (elements useKeys).
End MarkExternal.

(** ** Sample graphs *)

Definition keyOf (kd : NodeKind) (a : DeclAspect) (n : string)
  : DependencyKey := mkKey kd a EmptyString n.

Definition aDeps : string := "a.swiftdeps".
Definition bDeps : string := "b.swiftdeps".

Definition kFoo : DependencyKey := keyOf topLevel interface "foo".
Definition kBar : DependencyKey := keyOf topLevel interface "bar".

(** A file that defines [foo]. *)
Definition definesFoo : FrontendGraph :=
  mkFrontendGraph aDeps
    [FrontendNode.mk kFoo (Some "f1") (Some aDeps)] ∅.

(** The same file once it no longer defines [foo] but depends on it. *)
Definition usesFoo : FrontendGraph :=
  mkFrontendGraph aDeps [FrontendNode.mk kFoo None None] ∅.

(** ** What one step of [integrate] does

    The cases of the loop body of [integrate], by the shape of the integrand
    and of the nodes found for its key. [settled] is the graph once the arcs
    and the external dependency of the integrand are recorded, with the given
    store and index. *)

Definition settled (G : DriverGraph) (g : FrontendGraph)
    (integrand : FrontendNode.t) (h : gmap positive DriverNode.t)
    (m : gmap (string * DependencyKey) positive) : DriverGraph :=
  mkDriverGraph h m (usesByDef (integrateUsesByDef G integrand g))
    (if decide (getKind (FrontendNode.getKey integrand) = externalDepend)
     then {[getName (FrontendNode.getKey integrand)]} ∪ externalDependencies G
     else externalDependencies G)
    (cascadingJobs G) (jobsBySwiftDeps G) (dotFileSequenceNumberByJob G).

Definition fileUnder (place : string * DependencyKey) (p : positive)
    (m : gmap (string * DependencyKey) positive)
  : gmap (string * DependencyKey) positive :=
  match m !! place with Some _ => m | None => <[place := p]> m end.

Definition placeOf (n : DriverNode.t) : string * DependencyKey :=
  (DriverNode.getSwiftDepsForMapKey n, DriverNode.getKey n).

Inductive NodeStep (g : FrontendGraph) (st : Integration)
    (integrand : FrontendNode.t) : Integration → Prop :=
  | step_in_place sd p n :
      FrontendNode.getSwiftDeps integrand = Some sd →
      find (graph st) sd (FrontendNode.getKey integrand) = Some p →
      nodes (graph st) !! p = Some n →
      NodeStep g st integrand
        (mkIntegration
           (settled (graph st) g integrand
              (<[p := DriverNode.setFingerprint n
                        (FrontendNode.getFingerprint integrand)]>
                 (nodes (graph st)))
              (nodeMap (graph st)))
           (delete (FrontendNode.getKey integrand) (disappearedNodes st))
           (if fingerprintChanged (DriverNode.getFingerprint n)
                 (FrontendNode.getFingerprint integrand)
            then {[FrontendNode.getKey integrand]} ∪ changedNodes st
            else changedNodes st))
  | step_promote sd e n :
      FrontendNode.getSwiftDeps integrand = Some sd →
      find (graph st) sd (FrontendNode.getKey integrand) = None →
      find (graph st) EmptyString (FrontendNode.getKey integrand) = Some e →
      length (nodesOfKey (graph st) (FrontendNode.getKey integrand)) = 1 →
      nodes (graph st) !! e = Some n →
      NodeStep g st integrand
        (mkIntegration
           (settled (graph st) g integrand
              (<[e := DriverNode.setFingerprint
                        (DriverNode.setSwiftDeps n (Some sd))
                        (FrontendNode.getFingerprint integrand)]>
                 (nodes (graph st)))
              (fileUnder (sd, DriverNode.getKey n) e
                 (delete (placeOf n) (nodeMap (graph st)))))
           (disappearedNodes st)
           ({[FrontendNode.getKey integrand]} ∪ changedNodes st))
  | step_new_decl sd :
      FrontendNode.getSwiftDeps integrand = Some sd →
      find (graph st) sd (FrontendNode.getKey integrand) = None →
      find (graph st) EmptyString (FrontendNode.getKey integrand) = None →
      NodeStep g st integrand
        (mkIntegration
           (settled (graph st) g integrand
              (<[fresh (dom (nodes (graph st))) :=
                   DriverNode.mk (FrontendNode.getKey integrand)
                     (FrontendNode.getFingerprint integrand) (Some sd)]>
                 (nodes (graph st)))
              (<[(sd, FrontendNode.getKey integrand) :=
                   fresh (dom (nodes (graph st)))]> (nodeMap (graph st))))
           (disappearedNodes st)
           ({[FrontendNode.getKey integrand]} ∪ changedNodes st))
  | step_known_expat :
      FrontendNode.getSwiftDeps integrand = None →
      FrontendNode.getFingerprint integrand = None →
      nodesOfKey (graph st) (FrontendNode.getKey integrand) ≠ [] →
      NodeStep g st integrand
        (mkIntegration
           (settled (graph st) g integrand (nodes (graph st))
              (nodeMap (graph st)))
           (disappearedNodes st) (changedNodes st))
  | step_new_expat :
      FrontendNode.getSwiftDeps integrand = None →
      nodesOfKey (graph st) (FrontendNode.getKey integrand) = [] →
      NodeStep g st integrand
        (mkIntegration
           (settled (graph st) g integrand
              (<[fresh (dom (nodes (graph st))) :=
                   DriverNode.mk (FrontendNode.getKey integrand)
                     (FrontendNode.getFingerprint integrand) None]>
                 (nodes (graph st)))
              (<[(EmptyString, FrontendNode.getKey integrand) :=
                   fresh (dom (nodes (graph st)))]> (nodeMap (graph st))))
           (disappearedNodes st)
           ({[FrontendNode.getKey integrand]} ∪ changedNodes st)).

(** ** Consistency of the index

    What [verify()] checks of the index, as decidable predicates: every node
    is filed under its own swiftDeps and key, and a key that has an expat has
    no other node. *)

Definition filedInPlace (G : DriverGraph) : Prop :=
  map_Forall (λ place p, placeOf <$> nodes G !! p = Some place) (nodeMap G).

Definition isExpat (n : DriverNode.t) : bool :=
  negb (hasValue (DriverNode.getSwiftDeps n)).

(** The expat of a key, if the graph has one. *)
Definition expatOf (G : DriverGraph) (key : DependencyKey)
  : option positive :=
  e ← find G EmptyString key;
  n ← nodes G !! e;
  if isExpat n then Some e else None.

Definition expatsStandAlone (G : DriverGraph) : Prop :=
  map_Forall (λ (place : string * DependencyKey) (_ : positive),
                is_Some (expatOf G place.2) → place.1 = EmptyString)
             (nodeMap G).

Definition consistent (G : DriverGraph) : Prop :=
  filedInPlace G ∧ expatsStandAlone G.

#[global] Instance filedInPlace_dec (G : DriverGraph) :
  Decision (filedInPlace G).
Proof. unfold filedInPlace. apply _. Defined.

#[global] Instance expatsStandAlone_dec (G : DriverGraph) :
  Decision (expatsStandAlone G).
Proof. unfold expatsStandAlone. apply _. Defined.

#[global] Instance consistent_dec (G : DriverGraph) : Decision (consistent G).
Proof. unfold consistent. apply _. Defined.

(** A sequence of loads, each from the buffer of one job. *)
Definition loadAll (G : DriverGraph) (loads : list (Job * MemoryBuffer))
  : outcome DriverGraph :=
  forEachM (λ G load, '(_, G) ← loadFromBuffer G load.1 load.2; Done G)
           G loads.

(** A node is in the graph when the index holds it. *)
Definition inGraph (G : DriverGraph) (p : positive) (n : DriverNode.t)
  : Prop :=
  nodes G !! p = Some n ∧ ∃ place, nodeMap G !! place = Some p.

Definition expatNodeFor (G : DriverGraph) (key : DependencyKey)
    (p : positive) : Prop :=
  ∃ n, inGraph G p n ∧ DriverNode.getKey n = key
       ∧ DriverNode.getSwiftDeps n = None.

Definition residentNodeFor (G : DriverGraph) (key : DependencyKey)
    (p : positive) : Prop :=
  ∃ n, inGraph G p n ∧ DriverNode.getKey n = key
       ∧ is_Some (DriverNode.getSwiftDeps n).

(** A file that defines [foo] and depends on [bar], which no file has
    defined so far; the file that defines [bar]; a load that fails followed
    by the load of the first file. *)
Definition usesBar : FrontendGraph :=
  mkFrontendGraph aDeps
    [FrontendNode.mk kFoo (Some "f1") (Some aDeps);
     FrontendNode.mk kBar None None]
    {[kBar := {[kFoo; kBar]}]}.

Definition definesBar : FrontendGraph :=
  mkFrontendGraph bDeps
    [FrontendNode.mk kBar (Some "b1") (Some bDeps)] ∅.

Definition sampleLoads : list (Job * MemoryBuffer) :=
  [(mkJob bDeps, None); (mkJob aDeps, Some usesBar)].

Definition graphOf (r : outcome DriverGraph) : DriverGraph :=
  match r with Done G => G | Abort _ => emptyGraph end.

(** No key is among its own uses. *)
Definition noSelfUse (G : DriverGraph) : Prop :=
  ∀ def uses, usesByDef G !! def = Some uses → def ∉ uses.

(** The nodes that may still disappear are nodes of the file being
    integrated, where they were. *)
Definition disappearedInPlace (swiftDeps : string) (st : Integration)
  : Prop :=
  consistent (graph st)
  ∧ ∀ key p, disappearedNodes st !! key = Some p →
             find (graph st) swiftDeps key = Some p.

(** The store only loses nodes while the disappeared nodes are removed. *)
Definition storeWithin (G G0 : DriverGraph) : Prop :=
  ∀ q n, nodes G !! q = Some n → nodes G0 !! q = Some n.

(** The loads of other files in between. *)
Definition loadsOfOtherFiles (U : string) (loads : list (Job * MemoryBuffer))
  : Prop :=
  ∀ job fg, (job, Some fg) ∈ loads →
            getSwiftDepsFromSourceFileProvide fg ≠ EmptyString
            ∧ getSwiftDepsFromSourceFileProvide fg ≠ U.

(** The result of a call that is done. *)
Definition doneOr {A : Type} (a : A) (r : outcome A) : A :=
  match r with Done a' => a' | Abort _ => a end.

(** The file of [foo] once it defines [bar] only. *)
Definition definesBarInstead : FrontendGraph :=
  mkFrontendGraph aDeps
    [FrontendNode.mk kBar (Some "b0") (Some aDeps)] ∅.

(** The graph once [definesFoo] is merged, then once the file of [bar] is
    loaded, and the second merge of the file of [foo]. *)
Definition afterDefinesFoo : DriverGraph :=
  (doneOr (∅, emptyGraph) (integrateChanges emptyGraph definesFoo)).2.

Definition afterDefinesBar : DriverGraph :=
  graphOf (loadAll afterDefinesFoo [(mkJob bDeps, Some definesBar)]).

Definition secondMerge : gset DependencyKey * DriverGraph :=
  doneOr (∅, emptyGraph) (integrateChanges afterDefinesBar definesBarInstead).

(** ** What the traversal marks

    [cascadesFrom G v cascading]: for every use of the node [v] that is an
    interface, the file of [v] is among the cascading jobs. *)
Definition cascadesFrom (G : DriverGraph) (v : positive)
    (cascading : gset string) : Prop :=
  ∀ def u un,
    nodes G !! v = Some def → u ∈ forEachUseOf G def →
    nodes G !! u = Some un → isInterface (DriverNode.getKey un) = true →
    ∃ swiftDeps, DriverNode.getSwiftDeps def = Some swiftDeps
                 ∧ swiftDeps ∈ cascading.

(** What a call of [checkTransitiveClosureForCascading] on [d] that is done
    has made of the visited nodes and the cascading jobs. *)
Definition traversed (G : DriverGraph) (st st' : gset positive * gset string)
    (d : positive) : Prop :=
  st.1 ⊆ st'.1 ∧ st.2 ⊆ st'.2 ∧ d ∈ st'.1
  ∧ ∀ v, v ∈ st'.1 → v ∉ st.1 → cascadesFrom G v st'.2.

(** The body of the loop of [checkTransitiveClosureForCascading] over the
    uses of a definition of the file [swiftDeps]. *)
Definition visitUse (fuel : nat) (G : DriverGraph) (swiftDeps : string)
    (st : gset positive * gset string) (u : positive)
  : outcome (gset positive * gset string) :=
  un ← getNode G u;
  let cascading :=
    if isInterface (DriverNode.getKey un)
    then rememberThatJobCascades st.2 swiftDeps else st.2 in
  checkTransitiveClosureForCascading fuel G (st.1, cascading) u.

(** The file of [foo] and a file whose [bar] uses [foo]. *)
Definition barUsesFoo : FrontendGraph :=
  mkFrontendGraph bDeps
    [FrontendNode.mk kFoo None None;
     FrontendNode.mk kBar (Some "b1") (Some bDeps)]
    {[kFoo := {[kBar]}]}.

Definition fooAndItsUse : DriverGraph :=
  graphOf (loadAll emptyGraph
             [(mkJob aDeps, Some definesFoo); (mkJob bDeps, Some barUsesFoo)]).

(** What the copy-back loop keeps: the store is the one of [G], and every
    file it has seen has its job in the list. *)
Definition copiedBack (G : DriverGraph) (st : CopyBack) : Prop :=
  nodes (trackedGraph st) = nodes G
  ∧ ∀ swiftDeps,
      swiftDeps ∈ visitedSwiftDeps st →
      ∃ job, getJob (trackedGraph st) swiftDeps = Done job
             ∧ job ∈ visitedJobs st.

(** The nodes of the index, and how many of them are not visited yet. *)
Definition indexed (G : DriverGraph) : list positive :=
  (map_to_list (nodeMap G)).*2.

Definition unvisited (G : DriverGraph) (visited : gset positive) : nat :=
  length (filter (λ p, p ∉ visited) (indexed G)).

(** The graph once the file of [foo] is loaded, and once it is loaded again,
    once and twice, when it depends on [foo] and no longer defines it. *)
Definition fooLoaded : DriverGraph :=
  graphOf (loadAll emptyGraph [(mkJob aDeps, Some definesFoo)]).

Definition fooUsedOnce : DriverGraph :=
  graphOf (loadAll fooLoaded [(mkJob aDeps, Some usesFoo)]).

Definition fooUsedTwice : DriverGraph :=
  graphOf (loadAll fooUsedOnce [(mkJob aDeps, Some usesFoo)]).

(** No node belongs to a file whose name is empty. *)
Definition ownersNamed (G : DriverGraph) : Prop :=
  map_Forall (λ (_ : positive) n,
                DriverNode.getSwiftDeps n ≠ Some EmptyString) (nodes G).

(** A per-file graph as the frontend writes it: the file has a name, its
    definitions are its own, and its uses have no fingerprint. *)
Definition wellFormed (g : FrontendGraph) : Prop :=
  getSwiftDepsFromSourceFileProvide g ≠ EmptyString
  ∧ Forall (λ n, match FrontendNode.getSwiftDeps n with
                 | Some sd => sd = getSwiftDepsFromSourceFileProvide g
                 | None => FrontendNode.getFingerprint n = None
                 end) (allNodes g).

(** The facts of a per-file graph for keys of implementations are its own:
    what the assertion of [integrateByCreatingANewNode] asks of a node that
    it makes. *)
Definition implementationsInFiles (g : FrontendGraph) : Prop :=
  Forall (λ n, assertImplementationsMustBeInFiles (FrontendNode.getKey n)
                 (FrontendNode.getSwiftDeps n) = true) (allNodes g).

(** ** Merging the same graph again *)

(** The definitions of a per-file graph carry fingerprints. *)
Definition fingerprinted (g : FrontendGraph) : Prop :=
  ∀ n, n ∈ allNodes g → is_Some (FrontendNode.getSwiftDeps n) →
       is_Some (FrontendNode.getFingerprint n).

(** What a merge of [g] leaves: the definitions of [g] are the nodes of its
    file, with their fingerprints; every key that [g] uses has a node; the
    arcs and the external dependencies of [g] are recorded. *)
Definition mergedInto (g : FrontendGraph) (G : DriverGraph) : Prop :=
  let U := getSwiftDepsFromSourceFileProvide g in
  (∀ n, n ∈ allNodes g → FrontendNode.getSwiftDeps n = Some U →
        ∃ p nd, find G U (FrontendNode.getKey n) = Some p
                ∧ nodes G !! p = Some nd
                ∧ DriverNode.getFingerprint nd
                  = FrontendNode.getFingerprint n)
  ∧ (∀ n, n ∈ allNodes g → FrontendNode.getSwiftDeps n = None →
          nodesOfKey G (FrontendNode.getKey n) ≠ [])
  ∧ (∀ key p, find G U key = Some p →
              ∃ n, n ∈ allNodes g ∧ FrontendNode.getKey n = key
                   ∧ FrontendNode.getSwiftDeps n = Some U)
  ∧ (∀ n, n ∈ allNodes g →
          usesByDef (integrateUsesByDef G n g) = usesByDef G)
  ∧ (∀ n, n ∈ allNodes g →
          getKind (FrontendNode.getKey n) = externalDepend →
          getName (FrontendNode.getKey n) ∈ externalDependencies G).

(** The nodes that may still disappear once the integrands [l] have been
    met in place. *)
Definition notMet (l : list FrontendNode.t)
    (d : gmap DependencyKey positive) : gmap DependencyKey positive :=
  foldl (λ d n, if hasValue (FrontendNode.getSwiftDeps n)
                then delete (FrontendNode.getKey n) d else d) d l.

(** The arcs of a node of [g] are in the graph. *)
Definition arcsRecorded (g : FrontendGraph) (G : DriverGraph)
    (n : FrontendNode.t) : Prop :=
  ∃ uses, usesByDef G !! FrontendNode.getKey n = Some uses
          ∧ ∀ use, use ∈ FrontendGraph_forEachUseOf g n →
                   use ≠ FrontendNode.getKey n → use ∈ uses.

Definition externalRecorded (G : DriverGraph) (n : FrontendNode.t) : Prop :=
  getKind (FrontendNode.getKey n) = externalDepend →
  getName (FrontendNode.getKey n) ∈ externalDependencies G.

(** What is known while the nodes [met] of [g] have been integrated. *)
Definition mergingInto (g : FrontendGraph) (U : string)
    (met : list FrontendNode.t) (st : Integration) : Prop :=
  disappearedInPlace U st
  ∧ (∀ n, n ∈ met → FrontendNode.getSwiftDeps n = Some U →
          disappearedNodes st !! FrontendNode.getKey n = None
          ∧ ∃ p nd, find (graph st) U (FrontendNode.getKey n) = Some p
                    ∧ nodes (graph st) !! p = Some nd
                    ∧ DriverNode.getFingerprint nd
                      = FrontendNode.getFingerprint n)
  ∧ (∀ n, n ∈ met → FrontendNode.getSwiftDeps n = None →
          nodesOfKey (graph st) (FrontendNode.getKey n) ≠ [])
  ∧ (∀ key p, find (graph st) U key = Some p →
              disappearedNodes st !! key = Some p
              ∨ ∃ n, n ∈ met ∧ FrontendNode.getKey n = key
                     ∧ FrontendNode.getSwiftDeps n = Some U)
  ∧ (∀ n, n ∈ met → arcsRecorded g (graph st) n
                    ∧ externalRecorded (graph st) n).

(** The definitions of a per-file graph have different keys. *)
Definition definedOnce (g : FrontendGraph) : Prop :=
  NoDup (FrontendNode.getKey
           <$> filter (λ n, is_Some (FrontendNode.getSwiftDeps n))
                      (allNodes g)).

(** A key that the per-file graph only uses has no node in the file: the
    case in which a merge removes the node and leaves the key without
    one. *)
Definition usesElsewhere (g : FrontendGraph) (G : DriverGraph) : Prop :=
  ∀ n, n ∈ allNodes g → FrontendNode.getSwiftDeps n = None →
       find G (getSwiftDepsFromSourceFileProvide g) (FrontendNode.getKey n)
       = None
       ∨ ∃ n', n' ∈ allNodes g
               ∧ is_Some (FrontendNode.getSwiftDeps n')
               ∧ FrontendNode.getKey n' = FrontendNode.getKey n.

(** The graph once the file that defines [foo] and uses [bar] is merged. *)
Definition barUsed : DriverGraph :=
  (doneOr (UpToDate, emptyGraph) (integrate emptyGraph usesBar)).2.

(** ** What a merge keeps *)

(** The arcs of [G] are arcs of [G']. *)
Definition arcsWithin (G G' : DriverGraph) : Prop :=
  ∀ def uses, usesByDef G !! def = Some uses →
              ∃ uses', usesByDef G' !! def = Some uses' ∧ uses ⊆ uses'.

(** What a merge leaves alone and what it only adds to. *)
Definition grownFrom (G G' : DriverGraph) : Prop :=
  arcsWithin G G'
  ∧ externalDependencies G ⊆ externalDependencies G'
  ∧ cascadingJobs G' = cascadingJobs G
  ∧ jobsBySwiftDeps G' = jobsBySwiftDeps G
  ∧ dotFileSequenceNumberByJob G' = dotFileSequenceNumberByJob G.

(** ** What [verify()] checks after loads *)

(** Every buffer that parses holds a well-formed per-file graph. *)
Definition wellFormedLoads (loads : list (Job * MemoryBuffer)) : Prop :=
  Forall (λ load : Job * MemoryBuffer,
            match load.2 with Some fg => wellFormed fg | None => True end)
         loads.

(** Every key of the index that is an external dependency is tracked. *)
Definition externalTracked (G : DriverGraph) : Prop :=
  ∀ swiftDeps key p,
    find G swiftDeps key = Some p → getKind key = externalDepend →
    getName key ∈ externalDependencies G.

(** ** The nodes of the file that is merged *)

(** What is known of the bucket of [U] while the nodes [met] have been
    integrated. *)
Definition bucketOf (U : string) (met : list FrontendNode.t)
    (st : Integration) : Prop :=
  disappearedInPlace U st
  ∧ ∀ key p, find (graph st) U key = Some p →
             disappearedNodes st !! key = Some p
             ∨ ∃ n, n ∈ met ∧ FrontendNode.getKey n = key
                    ∧ FrontendNode.getSwiftDeps n = Some U.

(** ** What the traversal reaches *)

(** A node reaches the nodes that use it, and those that they reach. *)
Inductive reaches (G : DriverGraph) : positive → positive → Prop :=
  | reaches_here p : reaches G p p
  | reaches_use p def u q :
      nodes G !! p = Some def → u ∈ forEachUseOf G def → reaches G u q →
      reaches G p q.

(** Every use of the node [v] is among the visited nodes. *)
Definition usesVisited (G : DriverGraph) (v : positive)
    (visited : gset positive) : Prop :=
  ∀ def u, nodes G !! v = Some def → u ∈ forEachUseOf G def → u ∈ visited.

(** The node [v] is a node of the file [swiftDeps] that has a use that is an
    interface. *)
Definition hasInterfaceUse (G : DriverGraph) (v : positive)
    (swiftDeps : string) : Prop :=
  ∃ def u un,
    nodes G !! v = Some def ∧ DriverNode.getSwiftDeps def = Some swiftDeps
    ∧ u ∈ forEachUseOf G def ∧ nodes G !! u = Some un
    ∧ isInterface (DriverNode.getKey un) = true.

(** What a call of [checkTransitiveClosureForCascading] on [d] that is done
    has added: nodes that [d] reaches, which are nodes of files and whose
    uses are visited too, and files of such nodes with a use that is an
    interface. *)
Definition explored (G : DriverGraph) (st st' : gset positive * gset string)
    (d : positive) : Prop :=
  (∀ v, v ∈ st'.1 → v ∉ st.1 →
        usesVisited G v st'.1 ∧ reaches G d v
        ∧ ∃ def, nodes G !! v = Some def
                 ∧ is_Some (DriverNode.getSwiftDeps def))
  ∧ ∀ swiftDeps, swiftDeps ∈ st'.2 → swiftDeps ∉ st.2 →
                 ∃ v, reaches G d v ∧ hasInterfaceUse G v swiftDeps.

(** What the loop of [markTransitive] over the nodes [l] of the file has
    added to the visited nodes and the cascading jobs. *)
Definition exploredFrom (G : DriverGraph) (l : list positive)
    (st st' : gset positive * gset string) : Prop :=
  st.1 ⊆ st'.1 ∧ st.2 ⊆ st'.2 ∧ (∀ s, s ∈ l → s ∈ st'.1)
  ∧ (∀ v, v ∈ st'.1 → v ∉ st.1 →
          usesVisited G v st'.1 ∧ cascadesFrom G v st'.2
          ∧ (∃ s, s ∈ l ∧ reaches G s v)
          ∧ ∃ def, nodes G !! v = Some def
                   ∧ is_Some (DriverNode.getSwiftDeps def))
  ∧ ∀ swiftDeps, swiftDeps ∈ st'.2 → swiftDeps ∉ st.2 →
                 ∃ s v, s ∈ l ∧ reaches G s v
                        ∧ hasInterfaceUse G v swiftDeps.

(** The nodes with which [markTransitive] starts for a job. *)
Definition startsOf (G : DriverGraph) (job : Job) : list positive :=
  (map_to_list (nodesOfSwiftDeps G (getSwiftDeps job))).*2.

(** What the copy-back loop leaves of the graph: all of it but the jobs, and
    the job of every file that had one. *)
Definition jobsAdded (G G' : DriverGraph) : Prop :=
  nodes G' = nodes G ∧ nodeMap G' = nodeMap G
  ∧ usesByDef G' = usesByDef G
  ∧ externalDependencies G' = externalDependencies G
  ∧ cascadingJobs G' = cascadingJobs G
  ∧ dotFileSequenceNumberByJob G' = dotFileSequenceNumberByJob G
  ∧ ∀ swiftDeps j, getJob G swiftDeps = Done j →
                   getJob G' swiftDeps = Done j.

(** The jobs that the copy-back loop over [l] has appended: each is the job
    of the file of a node of [l], for a file not seen before, and no file
    comes twice. *)
Definition jobsCopied (G : DriverGraph) (l : list positive)
    (st st' : CopyBack) : Prop :=
  jobsAdded (trackedGraph st) (trackedGraph st')
  ∧ visitedSwiftDeps st ⊆ visitedSwiftDeps st'
  ∧ ∃ files,
      NoDup files
      ∧ (∀ swiftDeps, swiftDeps ∈ files →
                      (swiftDeps ∉ visitedSwiftDeps st)
                      ∧ swiftDeps ∈ visitedSwiftDeps st'
                      ∧ ∃ p n, p ∈ l ∧ nodes G !! p = Some n
                               ∧ DriverNode.getSwiftDeps n = Some swiftDeps)
      ∧ ∃ new, visitedJobs st' = visitedJobs st ++ new
               ∧ Forall2 (λ swiftDeps j,
                            getJob (trackedGraph st') swiftDeps = Done j)
                         files new.

(** Every job is recorded under its own swiftDeps. *)
Definition jobsNamed (G : DriverGraph) : Prop :=
  map_Forall (λ swiftDeps j, getSwiftDeps j = swiftDeps) (jobsBySwiftDeps G).

#[global] Instance jobsNamed_dec (G : DriverGraph) : Decision (jobsNamed G).
Proof. unfold jobsNamed. apply _. Defined.

(** A node of a file: it is filed in another bucket than that of the
    expats. *)
Definition inFile (G : DriverGraph) (p : positive) : Prop :=
  ∃ swiftDeps key, swiftDeps ≠ EmptyString ∧ find G swiftDeps key = Some p.

(** No key that is recorded as a use has an expat: the nodes that
    [forEachUseOf] gives are nodes of files, as the assertion of
    [checkTransitiveClosureForCascading] asks. The graph may have expats for
    other keys. *)
Definition usesInFiles (G : DriverGraph) : Prop :=
  map_Forall (λ (_ : DependencyKey) (uses : gset DependencyKey),
                set_Forall (λ useKey, find G EmptyString useKey = None) uses)
             (usesByDef G).

#[global] Instance usesInFiles_dec (G : DriverGraph) :
  Decision (usesInFiles G).
Proof. unfold usesInFiles. apply _. Defined.

(** What [verify()] asserts with [ensureJobIsTracked]: every file that has a
    bucket in the index has its job. *)
Definition filesTracked (G : DriverGraph) : Prop :=
  map_Forall (λ (place : string * DependencyKey) (_ : positive),
                place.1 = EmptyString
                ∨ is_Some (jobsBySwiftDeps G !! place.1))
             (nodeMap G).

#[global] Instance filesTracked_dec (G : DriverGraph) :
  Decision (filesTracked G).
Proof. unfold filesTracked. apply _. Defined.

(** ** What [markExternal] does *)

(** What [markTransitive] and [markExternal] make of the list of jobs and of
    the graph: jobs are appended, jobs are marked, and the jobs that were
    tracked stay so. *)
Definition advanced (st st' : list Job * DriverGraph) : Prop :=
  nodes st'.2 = nodes st.2 ∧ nodeMap st'.2 = nodeMap st.2
  ∧ usesByDef st'.2 = usesByDef st.2
  ∧ externalDependencies st'.2 = externalDependencies st.2
  ∧ cascadingJobs st.2 ⊆ cascadingJobs st'.2
  ∧ (∀ swiftDeps j, getJob st.2 swiftDeps = Done j →
                    getJob st'.2 swiftDeps = Done j)
  ∧ ∃ new, st'.1 = st.1 ++ new.

(** The job of the node [n] is tracked, and it is among the jobs or
    marked. *)
Definition userNoted (n : positive) (st : list Job * DriverGraph) : Prop :=
  ∃ node swiftDeps j,
    nodes st.2 !! n = Some node
    ∧ DriverNode.getSwiftDeps node = Some swiftDeps
    ∧ getJob st.2 swiftDeps = Done j
    ∧ (j ∈ st.1 ∨ isMarked st.2 j = true).

(** ** More sample graphs *)

(** A file that defines [baz], which depends on a header. *)
Definition cDeps : string := "c.swiftdeps".
Definition kBaz : DependencyKey := keyOf topLevel interface "baz".
Definition kHeader : DependencyKey := keyOf externalDepend interface "ext.h".

Definition usesHeader : FrontendGraph :=
  mkFrontendGraph cDeps
    [FrontendNode.mk kHeader None None;
     FrontendNode.mk kBaz (Some "z1") (Some cDeps)]
    {[kHeader := {[kBaz]}]}.

Definition headerUsed : DriverGraph :=
  graphOf (loadAll emptyGraph [(mkJob cDeps, Some usesHeader)]).

(** The graph once the file of [bar] is merged after the file that uses
    it. *)
Definition barDefined : DriverGraph :=
  (doneOr (UpToDate, emptyGraph) (integrate barUsed definesBar)).2.

(** The jobs and the graph that [markTransitive] returns for the file of
    [foo]. *)
Definition fooMarked : list Job * DriverGraph :=
  doneOr ([], emptyGraph) (markTransitive fooAndItsUse [] (mkJob aDeps)).

(** The graph once the file of [foo] is loaded from its path. *)
Definition fooLoadedFromPath : DriverGraph :=
  (doneOr (HadError, emptyGraph)
     (loadFromPath emptyGraph (mkJob aDeps) (Some (Some definesFoo)))).2.

(** [createDependedUponKey] as the keys of the sample graphs are made. *)
Definition sampleKey (kd : NodeKind) (name : string) : DependencyKey :=
  keyOf kd interface name.

Definition headerMarked : list Job * DriverGraph :=
  doneOr ([], emptyGraph) (markExternal sampleKey headerUsed [] "ext.h").

(** * Properties *)

(** ** Outcomes and loops *)

Lemma bind_Done {A B : Type} (m : outcome A) (k : A → outcome B) (b : B) :
  m ≫= k = Done b ↔ ∃ a, m = Done a ∧ k a = Done b.
Proof.
  destruct m as [a|f]; simpl; split.
  - intros H. exists a. split; [reflexivity | exact H].
  - intros (a' & Ha & Hk). injection Ha as <-. exact Hk.
  - intros H. discriminate H.
  - intros (a' & Ha & _). discriminate Ha.
Qed.

Lemma assertThat_Done (b : bool) (u : unit) :
  assertThat b = Done u ↔ b = true.
Proof. destruct b, u; simpl; split; intros H; congruence. Qed.

(** An invariant of the body of a loop holds when the loop is done. *)
Lemma forEachM_invariant {S A : Type} (P : S → Prop)
    (body : S → A → outcome S) (l : list A) :
  (∀ s a s', a ∈ l → P s → body s a = Done s' → P s') →
  ∀ s s', P s → forEachM body s l = Done s' → P s'.
Proof.
  induction l as [|a l IH]; intros Hbody s s' Hs Hrun; simpl in Hrun.
  - injection Hrun as <-. exact Hs.
  - apply bind_Done in Hrun as (s1 & H1 & Hrun).
    apply (IH (λ s a s' Ha, Hbody s a s' (list_elem_of_further _ _ _ Ha)) s1).
    + apply (Hbody s a s1); [apply list_elem_of_here | exact Hs | exact H1].
    + exact Hrun.
Qed.

Lemma forEachM_app {S A : Type} (body : S → A → outcome S) (l1 l2 : list A)
    (s : S) :
  forEachM body s (l1 ++ l2) = forEachM body s l1 ≫= λ s1, forEachM body s1 l2.
Proof.
  revert s. induction l1 as [|a l1 IH]; intros s; simpl; [reflexivity|].
  destruct (body s a) as [s1|f]; simpl; [apply IH | reflexivity].
Qed.

(** ** The index *)

Lemma lookup_nodesOfSwiftDeps (G : DriverGraph) (swiftDeps : string)
    (key : DependencyKey) :
  nodesOfSwiftDeps G swiftDeps !! key = find G swiftDeps key.
Proof.
  unfold nodesOfSwiftDeps, find.
  rewrite <- (lookup_map_curry (M1:=gmap string) (M2:=gmap DependencyKey)).
  destruct (map_curry (nodeMap G) !! swiftDeps) as [m|]; simpl;
    [reflexivity | apply lookup_empty].
Qed.

Lemma elem_of_nodesOfKey (G : DriverGraph) (key : DependencyKey)
    (swiftDeps : string) (p : positive) :
  (swiftDeps, p) ∈ nodesOfKey G key ↔ find G swiftDeps key = Some p.
Proof.
  unfold nodesOfKey, find. rewrite list_elem_of_omap. split.
  - intros ([[s k] q] & Hin & Hf). simpl in Hf.
    destruct (decide (k = key)) as [->|]; [|discriminate Hf].
    injection Hf as -> ->. by apply elem_of_map_to_list.
  - intros H. exists (swiftDeps, key, p). split.
    + by apply elem_of_map_to_list.
    + simpl. destruct (decide (key = key)); [reflexivity | contradiction].
Qed.

Lemma NoDup_omap_inj {A B : Type} (f : A → option B) (l : list A) :
  (∀ x y z, f x = Some z → f y = Some z → x = y) →
  NoDup l → NoDup (omap f l).
Proof.
  intros Hinj. induction 1 as [|x l Hx Hl IH]; simpl; [constructor|].
  destruct (f x) as [z|] eqn:Hfx; [|exact IH].
  constructor; [|exact IH].
  rewrite list_elem_of_omap. intros (y & Hy & Hfy).
  apply Hx. by rewrite (Hinj x y z Hfx Hfy).
Qed.

Lemma NoDup_nodesOfKey (G : DriverGraph) (key : DependencyKey) :
  NoDup (nodesOfKey G key).
Proof.
  unfold nodesOfKey. apply NoDup_omap_inj; [|apply NoDup_map_to_list].
  intros [[s1 k1] p1] [[s2 k2] p2] z; simpl.
  destruct (decide (k1 = key)), (decide (k2 = key)); congruence.
Qed.

Lemma nodesOfKey_nil (G : DriverGraph) (key : DependencyKey) :
  nodesOfKey G key = [] ↔ ∀ swiftDeps, find G swiftDeps key = None.
Proof.
  split.
  - intros Hnil s. destruct (find G s key) as [p|] eqn:Hp; [|reflexivity].
    apply elem_of_nodesOfKey in Hp. rewrite Hnil in Hp.
    by apply elem_of_nil in Hp.
  - intros Hnone. destruct (nodesOfKey G key) as [|[s p] l] eqn:Hl;
      [reflexivity|].
    assert (Hin : (s, p) ∈ nodesOfKey G key) by (rewrite Hl; left).
    apply elem_of_nodesOfKey in Hin. by rewrite Hnone in Hin.
Qed.

Lemma nodesOfKey_alone (G : DriverGraph) (key : DependencyKey)
    (swiftDeps : string) (p : positive) :
  find G swiftDeps key = Some p →
  (∀ s q, find G s key = Some q → s = swiftDeps) →
  length (nodesOfKey G key) = 1.
Proof.
  intros Hp Honly.
  assert (Hperm : nodesOfKey G key ≡ₚ [(swiftDeps, p)]).
  { apply NoDup_Permutation.
    - apply NoDup_nodesOfKey.
    - apply NoDup_singleton.
    - intros [s q]. rewrite elem_of_nodesOfKey, list_elem_of_singleton. split.
      + intros Hq. pose proof (Honly s q Hq) as ->. congruence.
      + intros [= -> ->]. exact Hp. }
  by rewrite Hperm.
Qed.

(** ** The steps of [integrate] *)

Lemma getNode_Done (G : DriverGraph) (p : positive) (n : DriverNode.t) :
  getNode G p = Done n ↔ nodes G !! p = Some n.
Proof.
  unfold getNode. destruct (nodes G !! p); split; intros H; congruence.
Qed.

Lemma length_one_or_more {A : Type} (l : list A) :
  Nat.eqb (length l) 0 = false ↔ l ≠ [].
Proof. destruct l; simpl; split; intros H; congruence. Qed.

Lemma withNodeMap_same (G : DriverGraph) : withNodeMap G (nodeMap G) = G.
Proof. by destruct G. Qed.

Lemma eraseNodeFromMap_Done (G G' : DriverGraph) (p : positive) :
  eraseNodeFromMap G p = Done G' ↔
  ∃ n, nodes G !! p = Some n
       ∧ G' = withNodeMap G (delete (placeOf n) (nodeMap G)).
Proof.
  unfold eraseNodeFromMap, getNode.
  destruct (nodes G !! p) as [n|]; simpl; split.
  - intros [= <-]. by exists n.
  - intros (n' & [= <-] & ->). reflexivity.
  - intros H; discriminate H.
  - intros (n' & H & _); discriminate H.
Qed.

Lemma addToMap_Done (G G' : DriverGraph) (p : positive) :
  addToMap G p = Done G' ↔
  ∃ n, nodes G !! p = Some n
       ∧ G' = withNodeMap G (fileUnder (placeOf n) p (nodeMap G)).
Proof.
  unfold addToMap, getNode, fileUnder.
  destruct (nodes G !! p) as [n|]; simpl; split.
  - intros H. exists n. split; [reflexivity|]. unfold placeOf.
    destruct (nodeMap G !! _); injection H as <-;
      [by rewrite withNodeMap_same | reflexivity].
  - intros (n' & [= <-] & ->). unfold placeOf.
    destruct (nodeMap G !! _); [by rewrite withNodeMap_same | reflexivity].
  - intros H; discriminate H.
  - intros (n' & H & _); discriminate H.
Qed.

Lemma moveNodeToDifferentFile_Done (G G' : DriverGraph) (p : positive)
    (newFile : option string) :
  moveNodeToDifferentFile G p newFile = Done G' ↔
  ∃ n, nodes G !! p = Some n
       ∧ G' = withNodeMap
                (withNodes G
                   (<[p := DriverNode.setSwiftDeps n newFile]> (nodes G)))
                (fileUnder (placeOf (DriverNode.setSwiftDeps n newFile)) p
                   (delete (placeOf n) (nodeMap G))).
Proof.
  unfold moveNodeToDifferentFile. rewrite bind_Done. split.
  - intros (G1 & H1 & H2). apply eraseNodeFromMap_Done in H1 as (n & Hn & ->).
    apply bind_Done in H2 as (n' & Hn' & H2).
    apply getNode_Done in Hn'. simpl in Hn'. rewrite Hn in Hn'.
    injection Hn' as <-. apply addToMap_Done in H2 as (n2 & Hn2 & ->).
    simpl in Hn2. rewrite lookup_insert_eq in Hn2. injection Hn2 as <-.
    exists n. split; [exact Hn | reflexivity].
  - intros (n & Hn & ->).
    exists (withNodeMap G (delete (placeOf n) (nodeMap G))). split.
    + apply eraseNodeFromMap_Done. by exists n.
    + apply bind_Done. exists n. split; [by apply getNode_Done|].
      apply addToMap_Done. exists (DriverNode.setSwiftDeps n newFile).
      simpl. by rewrite lookup_insert_eq.
Qed.

Lemma integrateFingerprintFrom_Done (G : DriverGraph) (p : positive)
    (integrand : FrontendNode.t) (r : bool * DriverGraph) :
  integrateFingerprintFrom G p integrand = Done r ↔
  ∃ n, nodes G !! p = Some n
       ∧ r = (fingerprintChanged (DriverNode.getFingerprint n)
                (FrontendNode.getFingerprint integrand),
              withNodes G
                (<[p := DriverNode.setFingerprint n
                          (FrontendNode.getFingerprint integrand)]>
                   (nodes G))).
Proof.
  unfold integrateFingerprintFrom, getNode.
  destruct (nodes G !! p) as [n|]; simpl; split.
  - intros [= <-]. by exists n.
  - intros (n' & [= <-] & ->). reflexivity.
  - intros H; discriminate H.
  - intros (n' & H & _); discriminate H.
Qed.

Lemma integrateByCreatingANewNode_Done (G : DriverGraph)
    (integrand : FrontendNode.t) :
  let n := DriverNode.mk (FrontendNode.getKey integrand)
             (FrontendNode.getFingerprint integrand)
             (FrontendNode.getSwiftDeps integrand) in
  let newNode := fresh (dom (nodes G)) in
  integrateByCreatingANewNode G integrand
  = (_ ← assertThat (assertImplementationsMustBeInFiles
                       (FrontendNode.getKey integrand)
                       (FrontendNode.getSwiftDeps integrand));
     Done (newNode,
           withNodeMap (withNodes G (<[newNode := n]> (nodes G)))
             (fileUnder (placeOf n) newNode (nodeMap G)))).
Proof.
  intros n newNode. unfold integrateByCreatingANewNode.
  fold newNode. change (DriverNode.setSwiftDeps _ _) with n.
  destruct (assertThat _) as [[]|f0]; [simpl|reflexivity].
  destruct (addToMap (withNodes G (<[newNode:=n]> (nodes G))) newNode)
    as [G'|f] eqn:Hadd.
  - apply addToMap_Done in Hadd as (n' & Hn' & ->). simpl in Hn'.
    rewrite lookup_insert_eq in Hn'. injection Hn' as <-. reflexivity.
  - exfalso. unfold addToMap, getNode in Hadd. simpl in Hadd.
    rewrite lookup_insert_eq in Hadd. simpl in Hadd.
    destruct (nodeMap G !! _); discriminate Hadd.
Qed.

Lemma removeNode_Done (G G' : DriverGraph) (p : positive) :
  removeNode G p = Done G' ↔
  ∃ n, nodes G !! p = Some n
       ∧ G' = withNodes (withNodeMap G (delete (placeOf n) (nodeMap G)))
                (delete p (nodes G)).
Proof.
  unfold removeNode. rewrite bind_Done. split.
  - intros (G1 & H1 & [= <-]).
    apply eraseNodeFromMap_Done in H1 as (n & Hn & ->). by exists n.
  - intros (n & Hn & ->). eexists. split.
    + apply eraseNodeFromMap_Done. by exists n.
    + reflexivity.
Qed.

Lemma NodeStep_eq (g : FrontendGraph) (st st1 st2 : Integration)
    (integrand : FrontendNode.t) :
  NodeStep g st integrand st1 → st1 = st2 → NodeStep g st integrand st2.
Proof. by intros H <-. Qed.

Ltac settle :=
  unfold settled; simpl;
  repeat case_decide; try contradiction; try reflexivity.

(** Every step that is done is one of the five cases. *)
Lemma integrateNode_NodeStep (g : FrontendGraph) (swiftDeps : string)
    (st st' : Integration) (integrand : FrontendNode.t) :
  integrateNode g swiftDeps st integrand = Done st' →
  NodeStep g st integrand st'.
Proof.
  destruct st as [G d c]. destruct integrand as [k fp sd].
  unfold integrateNode, integrateFrontendNode; simpl.
  set (G1 := integrateUsesByDef G _ g).
  assert (Hfind : ∀ s, find G1 s k = find G s k) by reflexivity.
  assert (Hcount : nodesOfKey G1 k = nodesOfKey G k) by reflexivity.
  destruct sd as [sd|]; simpl; rewrite ?Hfind, ?Hcount.
  - (* a Decl *)
    destruct (find G sd k) as [p|] eqn:Hplace; simpl.
    + intros H. apply bind_Done in H as ([ch G2] & H & [= <-]).
      apply integrateFingerprintFrom_Done in H as (n & Hn & [= -> ->]).
      eapply NodeStep_eq; [eapply (step_in_place g _ _ sd p); simpl; eauto|].
      settle.
    + destruct (find G EmptyString k) as [e|] eqn:Hexpat; simpl.
      * intros H. apply bind_Done in H as ([ch G2] & H & [= <-]).
        apply bind_Done in H as ([] & Hc & H).
        apply assertThat_Done in Hc. apply (proj1 (Nat.eqb_eq _ _)) in Hc.
        apply bind_Done in H as (G3 & Hmove & H).
        apply moveNodeToDifferentFile_Done in Hmove as (n & Hn & ->).
        apply bind_Done in H as ([ch' G4] & H & [= <- <-]).
        apply integrateFingerprintFrom_Done in H as (n' & Hn' & [= -> ->]).
        simpl in Hn'. rewrite lookup_insert_eq in Hn'. injection Hn' as <-.
        eapply NodeStep_eq;
          [eapply (step_promote g _ _ sd e n); simpl; eauto|].
        settle; simpl; by rewrite insert_insert_eq.
      * intros H. apply bind_Done in H as ([ch G2] & H & [= <-]).
        rewrite integrateByCreatingANewNode_Done in H.
        destruct (assertThat _) as [[]|] in H; [|discriminate H].
        simpl in H. injection H as <- <-.
        eapply NodeStep_eq; [eapply (step_new_decl g _ _ sd); simpl; eauto|].
        unfold fileUnder, placeOf, DriverNode.getSwiftDepsForMapKey; simpl. 
        change (nodeMap G1) with (nodeMap G). unfold find in Hplace.
        rewrite Hplace. settle.
  - (* a use of a definition in some other file *)
    destruct (find G EmptyString k) as [e|] eqn:Hexpat; simpl.
    + intros H.
      apply bind_Done in H as ([ch G2] & H & [= <-]).
      apply bind_Done in H as ([] & Hc & H).
      unfold integrateFrontendExpatNode in H; simpl in H.
      apply bind_Done in H as ([] & Hfp & [= <- <-]).
      apply assertThat_Done, negb_true_iff in Hfp.
      destruct fp; [discriminate Hfp|].
      eapply NodeStep_eq; [eapply (step_known_expat g); simpl; eauto|].
      * apply elem_of_nodesOfKey in Hexpat. intros Hnil.
        rewrite Hnil in Hexpat. by apply elem_of_nil in Hexpat.
      * settle.
    + unfold integrateFrontendExpatNode.
      destruct (length (nodesOfKey G k) =? 0) eqn:Hzero; simpl.
      * intros H. apply bind_Done in H as ([ch G2] & H & [= <-]).
        rewrite integrateByCreatingANewNode_Done in H.
        destruct (assertThat _) as [[]|] in H; [|discriminate H].
        simpl in H. injection H as <- <-.
        apply (proj1 (Nat.eqb_eq _ _)), length_zero_iff_nil in Hzero.
        eapply NodeStep_eq; [eapply (step_new_expat g); simpl; eauto|].
        unfold fileUnder, placeOf, DriverNode.getSwiftDepsForMapKey; simpl.
        change (nodeMap G1) with (nodeMap G). unfold find in Hexpat.
        rewrite Hexpat. settle.
      * intros H. apply bind_Done in H as ([ch G2] & H & [= <-]).
        apply bind_Done in H as ([] & Hfp & [= <- <-]).
        apply assertThat_Done, negb_true_iff in Hfp.
        destruct fp; [discriminate Hfp|].
        apply length_one_or_more in Hzero.
        eapply NodeStep_eq; [eapply (step_known_expat g); simpl; eauto|].
        settle.
Qed.

(** ** Consistency is kept *)

Lemma filedInPlace_lookup (G : DriverGraph) :
  filedInPlace G ↔
  ∀ place p, nodeMap G !! place = Some p →
             ∃ n, nodes G !! p = Some n ∧ placeOf n = place.
Proof.
  unfold filedInPlace. rewrite map_Forall_lookup.
  split; intros H place p Hp; specialize (H place p Hp).
  - destruct (nodes G !! p) as [n|]; simpl in H; [|discriminate H].
    exists n. split; congruence.
  - destruct H as (n & -> & <-). reflexivity.
Qed.

Lemma expatOf_Some (G : DriverGraph) (key : DependencyKey) (e : positive) :
  expatOf G key = Some e ↔
  find G EmptyString key = Some e
  ∧ ∃ n, nodes G !! e = Some n ∧ DriverNode.getSwiftDeps n = None.
Proof.
  unfold expatOf, isExpat.
  destruct (find G EmptyString key) as [e'|]; simpl.
  - destruct (nodes G !! e') as [n|] eqn:Hn; simpl.
    + destruct (DriverNode.getSwiftDeps n) as [sd|] eqn:Hsd; simpl; split.
      * intros H; discriminate H.
      * intros ([= ->] & n' & Hn' & Hsd'). congruence.
      * intros [= ->]. split; [reflexivity|]. by exists n.
      * intros ([= ->] & _). reflexivity.
    + split; [intros H; discriminate H|].
      intros ([= ->] & n' & Hn' & _). congruence.
  - split; [intros H; discriminate H | intros (H & _); discriminate H].
Qed.

Lemma expatsStandAlone_lookup (G : DriverGraph) :
  expatsStandAlone G ↔
  ∀ key e swiftDeps p,
    expatOf G key = Some e → find G swiftDeps key = Some p →
    swiftDeps = EmptyString.
Proof.
  unfold expatsStandAlone. rewrite map_Forall_lookup. split.
  - intros H key e s p He Hp. apply (H (s, key) p Hp). by exists e.
  - intros H [s key] p Hp [e He]. simpl in *. by apply (H key e s p).
Qed.

(** A node that is filed somewhere is not the node that [new] returns. *)
Lemma filed_not_fresh (G : DriverGraph) (place : string * DependencyKey)
    (p : positive) :
  filedInPlace G → nodeMap G !! place = Some p →
  p ≠ fresh (dom (nodes G)).
Proof.
  intros HG Hp ->. rewrite filedInPlace_lookup in HG.
  destruct (HG _ _ Hp) as (n & Hn & _).
  apply (is_fresh (dom (nodes G))). apply elem_of_dom. by exists n.
Qed.

Lemma NodeStep_filedInPlace (g : FrontendGraph) (st st' : Integration)
    (integrand : FrontendNode.t) :
  filedInPlace (graph st) → NodeStep g st integrand st' →
  filedInPlace (graph st').
Proof.
  intros HG Hstep. pose proof HG as Hfiled.
  rewrite filedInPlace_lookup in HG. apply filedInPlace_lookup.
  destruct Hstep as [sd p n Hsd Hp Hn | sd e n Hsd Hp He Hone Hn
                    | sd Hsd Hp He | Hsd Hfp Hsome | Hsd Hnone];
    simpl; intros place q Hq.
  - destruct (HG _ _ Hq) as (nq & Hnq & Hplace).
    destruct (decide (q = p)) as [->|Hne].
    + rewrite lookup_insert_eq. eexists. split; [reflexivity|].
      rewrite Hn in Hnq. injection Hnq as <-. exact Hplace.
    + rewrite lookup_insert_ne by done. by exists nq.
  - unfold fileUnder in Hq.
    destruct (delete (placeOf n) (nodeMap (graph st)) !! _) eqn:Hfree.
    + apply lookup_delete_Some in Hq as [Hne Hq].
      destruct (HG _ _ Hq) as (nq & Hnq & Hplace).
      rewrite lookup_insert_ne; [by exists nq|]. intros ->. congruence.
    + apply lookup_insert_Some in Hq as [[<- <-]|[Hne Hq]].
      * rewrite lookup_insert_eq. eexists. split; reflexivity.
      * apply lookup_delete_Some in Hq as [Hne' Hq].
        destruct (HG _ _ Hq) as (nq & Hnq & Hplace).
        rewrite lookup_insert_ne; [by exists nq|]. intros ->. congruence.
  - apply lookup_insert_Some in Hq as [[<- <-]|[Hne Hq]].
    + rewrite lookup_insert_eq. eexists. split; reflexivity.
    + rewrite lookup_insert_ne by (symmetry; by eapply filed_not_fresh).
      by apply HG.
  - by apply HG.
  - apply lookup_insert_Some in Hq as [[<- <-]|[Hne Hq]].
    + rewrite lookup_insert_eq. eexists. split; reflexivity.
    + rewrite lookup_insert_ne by (symmetry; by eapply filed_not_fresh).
      by apply HG.
Qed.

Lemma NodeStep_expatsStandAlone (g : FrontendGraph) (st st' : Integration)
    (integrand : FrontendNode.t) :
  consistent (graph st) → NodeStep g st integrand st' →
  expatsStandAlone (graph st').
Proof.
  intros [Hfiled HG] Hstep. pose proof Hfiled as HF.
  rewrite filedInPlace_lookup in HF.
  rewrite expatsStandAlone_lookup in HG. apply expatsStandAlone_lookup.
  destruct Hstep as [sd p n Hsd Hp Hn | sd e n Hsd Hp He Hone Hn
                    | sd Hsd Hp He | Hsd Hfp Hsome | Hsd Hnone];
    intros key e0 s q He0 Hq;
    apply expatOf_Some in He0 as (He0 & n0 & Hn0 & Hexp);
    unfold find in *; simpl in *.
  - (* the fingerprint of a node in place is replaced *)
    apply (HG key e0 s q); [|exact Hq].
    apply expatOf_Some. split; [exact He0|].
    destruct (decide (e0 = p)) as [->|Hne].
    + rewrite lookup_insert_eq in Hn0. injection Hn0 as <-. by exists n.
    + rewrite lookup_insert_ne in Hn0 by done. by exists n0.
  - (* an expat is moved to the file of its definition *)
    destruct (HF _ _ He) as (n' & Hn' & Hplace).
    rewrite Hn in Hn'. injection Hn' as <-.
    assert (Hkey : DriverNode.getKey n = FrontendNode.getKey integrand)
      by (by injection Hplace).
    assert (Hsdne : sd ≠ EmptyString) by (intros ->; congruence).
    rewrite Hplace, Hkey in *. unfold fileUnder in *.
    rewrite lookup_delete_ne, Hp in * by congruence.
    destruct (decide (key = FrontendNode.getKey integrand)) as [->|Hk].
    + rewrite lookup_insert_ne, lookup_delete_eq in He0 by congruence.
      discriminate He0.
    + rewrite lookup_insert_ne, lookup_delete_ne in He0, Hq by congruence.
      apply (HG key e0 s q); [|exact Hq].
      apply expatOf_Some. split; [exact He0|].
      rewrite lookup_insert_ne in Hn0; [by exists n0|].
      intros <-. destruct (HF _ _ He0) as (n' & Hn' & Hplace').
      congruence.
  - (* a definition is new *)
    destruct (decide (key = FrontendNode.getKey integrand)) as [->|Hk].
    + apply lookup_insert_Some in He0 as [[[= <-] <-]|[Hne He0]];
        [|congruence].
      rewrite lookup_insert_eq in Hn0. injection Hn0 as <-.
      discriminate Hexp.
    + rewrite lookup_insert_ne in He0, Hq by congruence.
      apply (HG key e0 s q); [|exact Hq].
      apply expatOf_Some. split; [exact He0|].
      rewrite lookup_insert_ne in Hn0
        by (symmetry; by eapply filed_not_fresh).
      by exists n0.
  - (* nothing to be done *)
    apply (HG key e0 s q); [|exact Hq].
    apply expatOf_Some. split; [exact He0 | by exists n0].
  - (* an expat is new: there was no node for its key *)
    pose proof (proj1 (nodesOfKey_nil _ _) Hnone) as Hno.
    unfold find in Hno.
    destruct (decide (key = FrontendNode.getKey integrand)) as [->|Hk].
    + apply lookup_insert_Some in Hq as [[[= <-] _]|[_ Hq]];
        [reflexivity|].
      by rewrite Hno in Hq.
    + rewrite lookup_insert_ne in He0, Hq by congruence.
      apply (HG key e0 s q); [|exact Hq].
      apply expatOf_Some. split; [exact He0|].
      rewrite lookup_insert_ne in Hn0
        by (symmetry; by eapply filed_not_fresh).
      by exists n0.
Qed.

Lemma NodeStep_consistent (g : FrontendGraph) (st st' : Integration)
    (integrand : FrontendNode.t) :
  consistent (graph st) → NodeStep g st integrand st' →
  consistent (graph st').
Proof.
  intros HG Hstep. split.
  - eapply NodeStep_filedInPlace; [apply HG | exact Hstep].
  - eapply NodeStep_expatsStandAlone; [exact HG | exact Hstep].
Qed.

Lemma removeNode_consistent (G G' : DriverGraph) (p : positive) :
  consistent G → removeNode G p = Done G' → consistent G'.
Proof.
  intros [Hfiled HG] Hrm. apply removeNode_Done in Hrm as (n & Hn & ->).
  pose proof Hfiled as HF. rewrite filedInPlace_lookup in HF.
  rewrite expatsStandAlone_lookup in HG.
  assert (Hkeep : ∀ place q,
            delete (placeOf n) (nodeMap G) !! place = Some q →
            nodeMap G !! place = Some q ∧ q ≠ p).
  { intros place q Hq. apply lookup_delete_Some in Hq as [Hne Hq].
    split; [exact Hq|]. intros ->.
    destruct (HF _ _ Hq) as (n' & Hn' & Hplace). congruence. }
  split.
  - apply filedInPlace_lookup. simpl. intros place q Hq.
    apply Hkeep in Hq as [Hq Hne]. rewrite lookup_delete_ne by done.
    by apply HF.
  - apply expatsStandAlone_lookup. intros key e s q He Hq.
    apply expatOf_Some in He as (He & n0 & Hn0 & Hexp).
    unfold find in *; simpl in *.
    apply Hkeep in He as [He Hne], Hq as [Hq _].
    rewrite lookup_delete_ne in Hn0 by done.
    apply (HG key e s q); [|exact Hq].
    apply expatOf_Some. split; [exact He | by exists n0].
Qed.

Lemma removeDisappeared_Done (st st' : Integration)
    (x : DependencyKey * positive) :
  removeDisappeared st x = Done st' ↔
  ∃ n, nodes (graph st) !! x.2 = Some n
       ∧ st' = mkIntegration
                 (withNodes
                    (withNodeMap (graph st)
                       (delete (placeOf n) (nodeMap (graph st))))
                    (delete x.2 (nodes (graph st))))
                 (disappearedNodes st)
                 ({[DriverNode.getKey n]} ∪ changedNodes st).
Proof.
  unfold removeDisappeared. rewrite bind_Done. split.
  - intros (n & Hn & H). apply getNode_Done in Hn.
    apply bind_Done in H as (G' & Hrm & [= <-]).
    apply removeNode_Done in Hrm as (n' & Hn' & ->).
    rewrite Hn in Hn'. injection Hn' as <-. by exists n.
  - intros (n & Hn & ->). exists n. split; [by apply getNode_Done|].
    apply bind_Done. eexists. split; [|reflexivity].
    apply removeNode_Done. by exists n.
Qed.

Lemma removeDisappeared_consistent (st st' : Integration)
    (x : DependencyKey * positive) :
  consistent (graph st) → removeDisappeared st x = Done st' →
  consistent (graph st').
Proof.
  intros HG Hrm. pose proof Hrm as Hrm'.
  apply removeDisappeared_Done in Hrm as (n & Hn & ->). simpl.
  apply (removeNode_consistent (graph st) _ x.2); [exact HG|].
  apply removeNode_Done. by exists n.
Qed.

Lemma integrateChanges_consistent (G G' : DriverGraph) (g : FrontendGraph)
    (changed : gset DependencyKey) :
  consistent G → integrateChanges G g = Done (changed, G') → consistent G'.
Proof.
  intros HG H. unfold integrateChanges in H.
  apply bind_Done in H as (st1 & H1 & H).
  apply bind_Done in H as (st2 & H2 & [= _ <-]).
  apply (forEachM_invariant (λ st, consistent (graph st))) in H1.
  - apply (forEachM_invariant (λ st, consistent (graph st))) in H2;
      [exact H2 | | exact H1].
    intros s a s' _. apply removeDisappeared_consistent.
  - intros s a s' _ Hs Hstep. apply integrateNode_NodeStep in Hstep.
    by eapply NodeStep_consistent.
  - exact HG.
Qed.

Lemma loadFromBuffer_consistent (G G' : DriverGraph) (job : Job)
    (buffer : MemoryBuffer) (r : LoadResult) :
  consistent G → loadFromBuffer G job buffer = Done (r, G') → consistent G'.
Proof.
  intros HG H. destruct buffer as [fg|]; simpl in H.
  - unfold integrate in H. apply bind_Done in H as ([c G1] & H & [= _ <-]).
    apply (integrateChanges_consistent (addIndependentNode G job) _ fg c);
      [|exact H].
    unfold addIndependentNode. by destruct (jobsBySwiftDeps G !! _).
  - by injection H as _ <-.
Qed.

Lemma emptyGraph_consistent : consistent emptyGraph.
Proof. split; apply map_Forall_empty. Qed.

Lemma loadAll_consistent (loads : list (Job * MemoryBuffer))
    (G : DriverGraph) :
  loadAll emptyGraph loads = Done G → consistent G.
Proof.
  unfold loadAll. apply (forEachM_invariant consistent).
  - intros G1 [job buffer] G2 _ HG1 H.
    apply bind_Done in H as ([r G3] & H & [= <-]).
    by eapply loadFromBuffer_consistent.
  - apply emptyGraph_consistent.
Qed.

(** ** Invariants A and B *)

(** C5. After every sequence of merges, every key has at most one expat node
    in the graph, and a key that has an expat node has no resident node in
    any unit. *)
Theorem expats_unique_after_merges (loads : list (Job * MemoryBuffer))
    (G : DriverGraph) (key : DependencyKey) :
  loadAll emptyGraph loads = Done G →
  (∀ e1 e2, expatNodeFor G key e1 → expatNodeFor G key e2 → e1 = e2)
  ∧ (∀ e p, expatNodeFor G key e → ¬ residentNodeFor G key p).
Proof.
  intros Hloads. apply loadAll_consistent in Hloads as [HF HS].
  rewrite filedInPlace_lookup in HF. rewrite expatsStandAlone_lookup in HS.
  assert (Hexpat : ∀ e, expatNodeFor G key e → expatOf G key = Some e).
  { intros e (n & [Hn [place He]] & Hkey & Hsd).
    apply expatOf_Some. split; [|by exists n].
    destruct (HF _ _ He) as (n' & Hn' & <-).
    rewrite Hn in Hn'. injection Hn' as <-.
    unfold find, placeOf, DriverNode.getSwiftDepsForMapKey in *.
    by rewrite Hsd, Hkey in He. }
  split.
  - intros e1 e2 H1%Hexpat H2%Hexpat. congruence.
  - intros e p He (n & [Hn [place Hp]] & Hkey & Hsd).
    pose proof (Hexpat e He) as Hof.
    destruct (HF _ _ Hp) as (n' & Hn' & <-).
    rewrite Hn in Hn'. injection Hn' as <-.
    unfold placeOf in Hp. rewrite Hkey in Hp.
    pose proof (HS key e _ p Hof Hp) as Hempty.
    rewrite Hempty in Hp.
    apply expatOf_Some in Hof as (He' & n' & Hn' & Hsd').
    unfold find in He'. rewrite Hp in He'. injection He' as ->.
    rewrite Hn in Hn'. injection Hn' as <-.
    rewrite Hsd' in Hsd. by destruct Hsd.
Qed.

Lemma expats_unique_after_merges_witness :
  (∀ e1 e2, expatNodeFor (graphOf (loadAll emptyGraph sampleLoads)) kBar e1 →
            expatNodeFor (graphOf (loadAll emptyGraph sampleLoads)) kBar e2 →
            e1 = e2)
  ∧ (∀ e p, expatNodeFor (graphOf (loadAll emptyGraph sampleLoads)) kBar e →
            ¬ residentNodeFor (graphOf (loadAll emptyGraph sampleLoads))
                kBar p).
Proof.
  apply (expats_unique_after_merges sampleLoads). vm_compute. reflexivity.
Defined.

(** ** Arcs *)

Lemma foldl_uses_not_def (def : DependencyKey) (l : list DependencyKey)
    (uses : gset DependencyKey) :
  def ∉ uses →
  def ∉ foldl (λ (uses : gset DependencyKey) use,
                 if decide (use ≠ def) then {[use]} ∪ uses else uses)
              uses l.
Proof.
  revert uses. induction l as [|use l IH]; intros uses Huses; simpl;
    [exact Huses|].
  apply IH. destruct (decide (use ≠ def)) as [Hne|_]; [|exact Huses].
  intros [Heq%elem_of_singleton|Hin]%elem_of_union; [congruence | done].
Qed.

Lemma integrateUsesByDef_noSelfUse (G : DriverGraph) (n : FrontendNode.t)
    (g : FrontendGraph) :
  noSelfUse G → noSelfUse (integrateUsesByDef G n g).
Proof.
  intros HG def uses. unfold integrateUsesByDef; simpl.
  intros [[<- <-]|[Hne Hdef]]%lookup_insert_Some.
  - apply foldl_uses_not_def.
    destruct (usesByDef G !! FrontendNode.getKey n) as [uses|] eqn:Huses;
      simpl; [by apply (HG _ _ Huses) | set_solver].
  - by apply (HG def).
Qed.

Lemma NodeStep_noSelfUse (g : FrontendGraph) (st st' : Integration)
    (integrand : FrontendNode.t) :
  noSelfUse (graph st) → NodeStep g st integrand st' → noSelfUse (graph st').
Proof.
  intros HG Hstep.
  pose proof (integrateUsesByDef_noSelfUse _ integrand g HG) as Huses.
  destruct Hstep; exact Huses.
Qed.

Lemma integrateChanges_noSelfUse (G G' : DriverGraph) (g : FrontendGraph)
    (changed : gset DependencyKey) :
  noSelfUse G → integrateChanges G g = Done (changed, G') → noSelfUse G'.
Proof.
  intros HG H. unfold integrateChanges in H.
  apply bind_Done in H as (st1 & H1 & H).
  apply bind_Done in H as (st2 & H2 & [= _ <-]).
  apply (forEachM_invariant (λ st, noSelfUse (graph st))) in H1.
  - apply (forEachM_invariant (λ st, noSelfUse (graph st))) in H2;
      [exact H2 | | exact H1].
    intros s a s' _ Hs Hrm.
    apply removeDisappeared_Done in Hrm as (n & Hn & ->). exact Hs.
  - intros s a s' _ Hs Hstep. apply integrateNode_NodeStep in Hstep.
    by eapply NodeStep_noSelfUse.
  - exact HG.
Qed.

(** C10. After any sequence of merges no key is among its own uses: the arcs
    that a merge records leave out those whose use is the definition. *)
Theorem usesByDef_has_no_self_edge (loads : list (Job * MemoryBuffer))
    (G : DriverGraph) (def : DependencyKey) (uses : gset DependencyKey) :
  loadAll emptyGraph loads = Done G →
  usesByDef G !! def = Some uses → def ∉ uses.
Proof.
  intros Hloads. revert def uses. change (noSelfUse G).
  revert Hloads. unfold loadAll. apply (forEachM_invariant noSelfUse).
  - intros G1 [job [fg|]] G2 _ HG1 H; simpl in H.
    + apply bind_Done in H as ([r G3] & H & [= <-]).
      unfold integrate in H.
      apply bind_Done in H as ([c G4] & H & [= _ <-]).
      apply (integrateChanges_noSelfUse (addIndependentNode G1 job) _ fg c);
        [|exact H].
      unfold addIndependentNode. by destruct (jobsBySwiftDeps G1 !! _).
    + by injection H as <-.
  - intros def uses H. simpl in H. by rewrite lookup_empty in H.
Qed.

Lemma usesByDef_has_no_self_edge_witness :
  kBar ∉ ({[kFoo]} : gset DependencyKey).
Proof.
  apply (usesByDef_has_no_self_edge sampleLoads
           (graphOf (loadAll emptyGraph sampleLoads)) kBar {[kFoo]});
    vm_compute; reflexivity.
Defined.

(** ** Loads that fail *)

(** C8. When the swiftdeps file cannot be read or cannot be parsed the load
    returns [HadError] and leaves the index, the arcs, the external
    dependencies, the cascading jobs and the job correspondence as they were:
    [loadFromBuffer] and a [loadFromPath] that cannot read the file return
    the graph itself; a [loadFromPath] whose file does not parse has only
    advanced the sequence number of its dot files. *)
Theorem failed_load_leaves_graph (G : DriverGraph) (job : Job) :
  loadFromBuffer G job None = Done (HadError, G)
  ∧ loadFromPath G job None = Done (HadError, G)
  ∧ ∃ G', loadFromPath G job (Some None) = Done (HadError, G')
          ∧ nodes G' = nodes G ∧ nodeMap G' = nodeMap G
          ∧ usesByDef G' = usesByDef G
          ∧ externalDependencies G' = externalDependencies G
          ∧ cascadingJobs G' = cascadingJobs G
          ∧ jobsBySwiftDeps G' = jobsBySwiftDeps G.
Proof.
  split; [reflexivity|]. split; [reflexivity|].
  eexists. split; [reflexivity|]. simpl. repeat split.
Qed.

(** ** Definitions that a file provides *)

Lemma fingerprintChanged_true (old new : option string) :
  fingerprintChanged old new = true ↔ old ≠ new ∨ old = None ∨ new = None.
Proof.
  destruct old as [a|], new as [b|]; simpl;
    try (split; [intros _; right; by eauto | reflexivity]).
  rewrite negb_true_iff. split.
  - intros Hne. left. intros [= ->]. by rewrite String.eqb_refl in Hne.
  - intros [Hne|[H|H]]; try discriminate H.
    apply String.eqb_neq. congruence.
Qed.

(** C7. A definition whose node is already in place in its file has the
    fingerprint of that node replaced by its own, and its key is reported
    changed exactly when the two fingerprints differ or one of them is
    absent. *)
Theorem definition_in_place_replaces_fingerprint (g : FrontendGraph)
    (swiftDeps : string) (st : Integration) (integrand : FrontendNode.t)
    (sd : string) (p : positive) (n : DriverNode.t) :
  FrontendNode.getSwiftDeps integrand = Some sd →
  find (graph st) sd (FrontendNode.getKey integrand) = Some p →
  nodes (graph st) !! p = Some n →
  ∃ st',
    integrateNode g swiftDeps st integrand = Done st'
    ∧ nodeMap (graph st') = nodeMap (graph st)
    ∧ nodes (graph st') !! p
      = Some (DriverNode.setFingerprint n
                (FrontendNode.getFingerprint integrand))
    ∧ (FrontendNode.getKey integrand ∈ changedNodes st' ↔
       FrontendNode.getKey integrand ∈ changedNodes st
       ∨ DriverNode.getFingerprint n ≠ FrontendNode.getFingerprint integrand
       ∨ DriverNode.getFingerprint n = None
       ∨ FrontendNode.getFingerprint integrand = None).
Proof.
  intros Hsd Hp Hn. destruct st as [G d c], integrand as [k fp sd'].
  simpl in *. subst sd'.
  unfold integrateNode, integrateFrontendNode; simpl.
  set (G1 := integrateUsesByDef G _ g).
  change (find G1 sd k) with (find G sd k). rewrite Hp. simpl.
  unfold integrateFingerprintFrom, getNode.
  change (nodes G1) with (nodes G). rewrite Hn. simpl.
  eexists. split; [reflexivity|]. simpl. split; [|split].
  - by destruct (decide (getKind k = externalDepend)).
  - destruct (decide (getKind k = externalDepend)); simpl;
      apply lookup_insert_eq.
  - rewrite <- fingerprintChanged_true.
    destruct (fingerprintChanged (DriverNode.getFingerprint n) fp).
    + rewrite elem_of_union, elem_of_singleton. split; [by right|by left].
    + split; [by left | by intros [H|H]].
Qed.

Lemma definition_in_place_replaces_fingerprint_witness :
  ∃ st',
    integrateNode definesFoo aDeps
      (mkIntegration (graphOf (loadAll emptyGraph sampleLoads)) ∅ ∅)
      (FrontendNode.mk kFoo (Some "f2") (Some aDeps)) = Done st'
    ∧ nodeMap (graph st') = nodeMap (graphOf (loadAll emptyGraph sampleLoads))
    ∧ nodes (graph st') !! 1%positive
      = Some (DriverNode.mk kFoo (Some "f2") (Some aDeps))
    ∧ (kFoo ∈ changedNodes st' ↔
       kFoo ∈ (∅ : gset DependencyKey)
       ∨ Some "f1" ≠ Some "f2" ∨ Some "f1" = @None string
       ∨ Some "f2" = @None string).
Proof.
  apply (definition_in_place_replaces_fingerprint definesFoo aDeps
           (mkIntegration (graphOf (loadAll emptyGraph sampleLoads)) ∅ ∅)
           (FrontendNode.mk kFoo (Some "f2") (Some aDeps)) aDeps 1%positive
           (DriverNode.mk kFoo (Some "f1") (Some aDeps)));
    vm_compute; reflexivity.
Defined.

(** C6. A definition whose key has an expat, and no node in place in the
    file of the definition, takes the expat over: the same node is filed
    under the file of the definition with the fingerprint of the definition,
    the key has no expat any more, and the key is reported changed. *)
Theorem definition_promotes_expat (g : FrontendGraph) (swiftDeps : string)
    (st : Integration) (integrand : FrontendNode.t) (sd : string)
    (e : positive) (n : DriverNode.t) :
  consistent (graph st) →
  FrontendNode.getSwiftDeps integrand = Some sd →
  find (graph st) sd (FrontendNode.getKey integrand) = None →
  find (graph st) EmptyString (FrontendNode.getKey integrand) = Some e →
  nodes (graph st) !! e = Some n →
  DriverNode.getSwiftDeps n = None →
  ∃ st',
    integrateNode g swiftDeps st integrand = Done st'
    ∧ find (graph st') sd (FrontendNode.getKey integrand) = Some e
    ∧ find (graph st') EmptyString (FrontendNode.getKey integrand) = None
    ∧ nodes (graph st') !! e
      = Some (DriverNode.mk (FrontendNode.getKey integrand)
                (FrontendNode.getFingerprint integrand) (Some sd))
    ∧ FrontendNode.getKey integrand ∈ changedNodes st'.
Proof.
  intros [HF HS] Hsd Hp He Hn Hexpat.
  rewrite filedInPlace_lookup in HF. rewrite expatsStandAlone_lookup in HS.
  destruct st as [G d c], integrand as [k fp sd']. simpl in *. subst sd'.
  destruct (HF _ _ He) as (n' & Hn' & Hplace).
  rewrite Hn in Hn'. injection Hn' as <-.
  assert (Hkey : DriverNode.getKey n = k) by (by injection Hplace).
  assert (Hsdne : sd ≠ EmptyString) by (intros ->; congruence).
  assert (Hone : length (nodesOfKey G k) = 1).
  { apply (nodesOfKey_alone G k EmptyString e He). intros s q Hq.
    apply (HS k e s q); [|exact Hq]. apply expatOf_Some. split; [exact He|].
    by exists n. }
  unfold integrateNode, integrateFrontendNode; simpl.
  set (G1 := integrateUsesByDef G _ g).
  change (find G1 sd k) with (find G sd k).
  change (find G1 EmptyString k) with (find G EmptyString k).
  change (nodesOfKey G1 k) with (nodesOfKey G k).
  rewrite Hp, He, Hone. simpl.
  rewrite (proj2 (moveNodeToDifferentFile_Done G1 _ e (Some sd))
             (ex_intro _ n (conj Hn eq_refl))). simpl.
  unfold integrateFingerprintFrom, getNode. simpl.
  rewrite lookup_insert_eq. simpl.
  eexists. split; [reflexivity|].
  unfold find in *. rewrite Hplace. unfold fileUnder, placeOf. simpl.
  rewrite Hkey. change (nodeMap G1) with (nodeMap G).
  change (DriverNode.getSwiftDepsForMapKey
            (DriverNode.setSwiftDeps n (Some sd))) with sd.
  rewrite lookup_delete_ne, Hp by congruence.
  destruct (decide (getKind k = externalDepend)); simpl;
    rewrite lookup_insert_eq, lookup_insert_ne, lookup_delete_eq,
      lookup_insert_eq by congruence;
    (split; [reflexivity|]; split; [reflexivity|]; split; [|set_solver];
     unfold DriverNode.setFingerprint, DriverNode.setSwiftDeps; simpl;
     by rewrite Hkey).
Qed.

Lemma definition_promotes_expat_witness :
  ∃ st',
    integrateNode definesBar bDeps
      (mkIntegration (graphOf (loadAll emptyGraph sampleLoads)) ∅ ∅)
      (FrontendNode.mk kBar (Some "b1") (Some bDeps)) = Done st'
    ∧ find (graph st') bDeps kBar = Some 2%positive
    ∧ find (graph st') EmptyString kBar = None
    ∧ nodes (graph st') !! 2%positive
      = Some (DriverNode.mk kBar (Some "b1") (Some bDeps))
    ∧ kBar ∈ changedNodes st'.
Proof.
  apply (definition_promotes_expat definesBar bDeps
           (mkIntegration (graphOf (loadAll emptyGraph sampleLoads)) ∅ ∅)
           (FrontendNode.mk kBar (Some "b1") (Some bDeps)) bDeps 2%positive
           (DriverNode.mk kBar None None));
    try (vm_compute; reflexivity).
  apply (bool_decide_unpack (consistent _)). vm_compute. exact I.
Defined.

(** ** Nodes that disappear *)

Lemma fileUnder_keeps (place place' : string * DependencyKey)
    (p q : positive) (m : gmap (string * DependencyKey) positive) :
  m !! place = Some p → fileUnder place' q m !! place = Some p.
Proof.
  intros Hp. unfold fileUnder.
  destruct (m !! place') as [q'|] eqn:Hfree; [exact Hp|].
  rewrite lookup_insert_ne; [exact Hp | congruence].
Qed.

(** A step of [integrate] leaves the nodes of every file where they are
    filed: only expats move. *)
Lemma NodeStep_keeps_place (g : FrontendGraph) (st st' : Integration)
    (integrand : FrontendNode.t) (swiftDeps : string) (key : DependencyKey)
    (p : positive) :
  consistent (graph st) → NodeStep g st integrand st' →
  swiftDeps ≠ EmptyString →
  find (graph st) swiftDeps key = Some p →
  find (graph st') swiftDeps key = Some p.
Proof.
  intros [HF _] Hstep Hne Hp. rewrite filedInPlace_lookup in HF.
  destruct Hstep as [sd q n Hsd Hq Hn | sd e n Hsd Hq He Hone Hn
                    | sd Hsd Hq He | Hsd Hfp Hsome | Hsd Hnone];
    unfold find in *; simpl.
  - exact Hp.
  - destruct (HF _ _ He) as (n' & Hn' & Hplace).
    rewrite Hn in Hn'. injection Hn' as <-. rewrite Hplace.
    apply fileUnder_keeps.
    rewrite lookup_delete_ne; [exact Hp | by intros [= <- _]].
  - rewrite lookup_insert_ne; [exact Hp | congruence].
  - exact Hp.
  - rewrite lookup_insert_ne; [exact Hp | by intros [= <- _]].
Qed.

Lemma NodeStep_disappeared (g : FrontendGraph) (st st' : Integration)
    (integrand : FrontendNode.t) (key : DependencyKey) :
  NodeStep g st integrand st' →
  (disappearedNodes st' !! key = disappearedNodes st !! key
   ∨ disappearedNodes st' !! key = None
     ∧ key = FrontendNode.getKey integrand).
Proof.
  intros Hstep. destruct Hstep; simpl; try (by left).
  destruct (decide (key = FrontendNode.getKey integrand)) as [->|Hne].
  - right. by rewrite lookup_delete_eq.
  - left. by rewrite lookup_delete_ne.
Qed.

Lemma NodeStep_disappearedInPlace (g : FrontendGraph) (st st' : Integration)
    (integrand : FrontendNode.t) (swiftDeps : string) :
  swiftDeps ≠ EmptyString → disappearedInPlace swiftDeps st →
  NodeStep g st integrand st' → disappearedInPlace swiftDeps st'.
Proof.
  intros Hne [HG Hd] Hstep. split; [by eapply NodeStep_consistent|].
  intros key p Hp. eapply NodeStep_keeps_place; try done.
  apply Hd. destruct (NodeStep_disappeared g st st' integrand key Hstep)
    as [<-|[Hnone _]]; [exact Hp | congruence].
Qed.

Lemma integrateNodes_disappearedInPlace (g : FrontendGraph)
    (swiftDeps U : string) (l : list FrontendNode.t) (st st' : Integration) :
  U ≠ EmptyString → disappearedInPlace U st →
  forEachM (integrateNode g swiftDeps) st l = Done st' →
  disappearedInPlace U st'.
Proof.
  intros Hne. apply forEachM_invariant.
  intros s a s' _ Hs Hstep%integrateNode_NodeStep.
  by eapply NodeStep_disappearedInPlace.
Qed.

Lemma integrateNodes_keep_place (g : FrontendGraph) (swiftDeps U : string)
    (key : DependencyKey) (p : positive) (l : list FrontendNode.t)
    (st st' : Integration) :
  U ≠ EmptyString → consistent (graph st) →
  find (graph st) U key = Some p →
  forEachM (integrateNode g swiftDeps) st l = Done st' →
  find (graph st') U key = Some p.
Proof.
  intros Hne HG Hp Hrun.
  apply (forEachM_invariant
           (λ st, consistent (graph st) ∧ find (graph st) U key = Some p))
    in Hrun as [_ H]; [exact H | | by split].
  intros s a s' _ [Hs Hps] Hstep%integrateNode_NodeStep. split.
  - by eapply NodeStep_consistent.
  - by eapply NodeStep_keeps_place.
Qed.

Lemma integrateNodes_disappeared_None (g : FrontendGraph)
    (swiftDeps : string) (key : DependencyKey) (l : list FrontendNode.t)
    (st st' : Integration) :
  disappearedNodes st !! key = None →
  forEachM (integrateNode g swiftDeps) st l = Done st' →
  disappearedNodes st' !! key = None.
Proof.
  apply (forEachM_invariant (λ st, disappearedNodes st !! key = None)).
  intros s a s' _ Hs Hstep%integrateNode_NodeStep.
  destruct (NodeStep_disappeared g s s' a key Hstep) as [->|[Hnone _]];
    done.
Qed.

Lemma integrateNodes_disappeared_other (g : FrontendGraph)
    (swiftDeps : string) (key : DependencyKey) (l : list FrontendNode.t)
    (st st' : Integration) :
  (∀ n, n ∈ l → FrontendNode.getKey n ≠ key) →
  forEachM (integrateNode g swiftDeps) st l = Done st' →
  disappearedNodes st' !! key = disappearedNodes st !! key.
Proof.
  intros Hl Hrun.
  apply (forEachM_invariant
           (λ s, disappearedNodes s !! key = disappearedNodes st !! key))
    in Hrun; [exact Hrun | | reflexivity].
  intros s a s' Ha Hs Hstep%integrateNode_NodeStep.
  destruct (NodeStep_disappeared g s s' a key Hstep) as [->|[_ ->]];
    [exact Hs|]. by destruct (Hl a Ha).
Qed.

Lemma removeDisappeared_storeWithin (G0 : DriverGraph) (st st' : Integration)
    (x : DependencyKey * positive) :
  storeWithin (graph st) G0 → removeDisappeared st x = Done st' →
  storeWithin (graph st') G0.
Proof.
  intros Hst (n & Hn & ->)%removeDisappeared_Done q n' Hq. simpl in Hq.
  apply lookup_delete_Some in Hq as [_ Hq]. by apply Hst.
Qed.

(** Removing the disappeared nodes of a file leaves every other place of
    the index as it is. *)
Lemma removeAll_keeps_place (G0 : DriverGraph) (U swiftDeps : string)
    (key : DependencyKey) (p : positive)
    (l : list (DependencyKey * positive)) (st st' : Integration) :
  filedInPlace G0 →
  (∀ x, x ∈ l → find G0 U x.1 = Some x.2 ∧ (U, x.1) ≠ (swiftDeps, key)) →
  storeWithin (graph st) G0 →
  find (graph st) swiftDeps key = Some p →
  forEachM removeDisappeared st l = Done st' →
  find (graph st') swiftDeps key = Some p.
Proof.
  intros HF Hl Hst Hp Hrun. rewrite filedInPlace_lookup in HF.
  apply (forEachM_invariant
           (λ st, storeWithin (graph st) G0
                  ∧ find (graph st) swiftDeps key = Some p))
    in Hrun as [_ H]; [exact H | | by split].
  intros s x s' Hx [Hs Hps] Hstep. split;
    [by eapply removeDisappeared_storeWithin|].
  apply removeDisappeared_Done in Hstep as (n & Hn & ->).
  destruct (Hl x Hx) as [Hfiled Hother].
  destruct (HF _ _ Hfiled) as (n' & Hn' & Hplace).
  rewrite (Hs _ _ Hn) in Hn'. injection Hn' as <-.
  unfold find in *. simpl. rewrite Hplace.
  by rewrite lookup_delete_ne.
Qed.

Lemma removeAll_gone (swiftDeps : string) (key : DependencyKey)
    (l : list (DependencyKey * positive)) (st st' : Integration) :
  find (graph st) swiftDeps key = None ∧ key ∈ changedNodes st →
  forEachM removeDisappeared st l = Done st' →
  find (graph st') swiftDeps key = None ∧ key ∈ changedNodes st'.
Proof.
  apply (forEachM_invariant
           (λ st, find (graph st) swiftDeps key = None
                  ∧ key ∈ changedNodes st)).
  intros s x s' _ [Hnone Hin] (n & Hn & ->)%removeDisappeared_Done.
  unfold find in *. simpl. split.
  - apply lookup_delete_None. by right.
  - set_solver.
Qed.

(** A disappeared node that is still where it was is taken out of the
    index, and its key is reported changed. *)
Lemma removeAll_removes (G0 : DriverGraph) (U : string)
    (key : DependencyKey) (p : positive)
    (l : list (DependencyKey * positive)) (st st' : Integration) :
  filedInPlace G0 → find G0 U key = Some p → (key, p) ∈ l →
  storeWithin (graph st) G0 →
  forEachM removeDisappeared st l = Done st' →
  find (graph st') U key = None ∧ key ∈ changedNodes st'.
Proof.
  intros HF Hp Hin Hst Hrun. rewrite filedInPlace_lookup in HF.
  apply list_elem_of_split in Hin as (l1 & l2 & ->).
  rewrite forEachM_app in Hrun. apply bind_Done in Hrun as (s1 & H1 & Hrun).
  simpl in Hrun. apply bind_Done in Hrun as (s2 & H2 & Hrun).
  apply (forEachM_invariant (λ st, storeWithin (graph st) G0)) in H1;
    [| intros s x s' _; apply removeDisappeared_storeWithin | exact Hst].
  apply removeDisappeared_Done in H2 as (n & Hn & ->). simpl in Hn.
  destruct (HF _ _ Hp) as (n' & Hn' & Hplace).
  rewrite (H1 _ _ Hn) in Hn'. injection Hn' as <-.
  apply (removeAll_gone U key) in Hrun; [exact Hrun|].
  unfold find. simpl. rewrite Hplace. split.
  - apply lookup_delete_eq.
  - injection Hplace as _ ->. set_solver.
Qed.

Lemma fileUnder_is_Some (place : string * DependencyKey) (p : positive)
    (m : gmap (string * DependencyKey) positive) :
  is_Some (fileUnder place p m !! place).
Proof.
  unfold fileUnder. destruct (m !! place) as [q|] eqn:Hq.
  - by exists q.
  - rewrite lookup_insert_eq. by exists p.
Qed.

Lemma storeWithin_refl (G : DriverGraph) : storeWithin G G.
Proof. by intros q n. Qed.

Lemma integrateChanges_Done (G G' : DriverGraph) (g : FrontendGraph)
    (changed : gset DependencyKey) :
  integrateChanges G g = Done (changed, G') →
  ∃ st1 st2,
    forEachM (integrateNode g (getSwiftDepsFromSourceFileProvide g))
      (mkIntegration G
         (nodesOfSwiftDeps G (getSwiftDepsFromSourceFileProvide g)) ∅)
      (allNodes g) = Done st1
    ∧ forEachM removeDisappeared st1 (map_to_list (disappearedNodes st1))
      = Done st2
    ∧ changed = changedNodes st2 ∧ G' = graph st2.
Proof.
  intros H. unfold integrateChanges in H.
  apply bind_Done in H as (st1 & H1 & H).
  apply bind_Done in H as (st2 & H2 & [= <- <-]).
  by exists st1, st2.
Qed.

Lemma start_disappearedInPlace (G : DriverGraph) (U : string) :
  consistent G →
  disappearedInPlace U (mkIntegration G (nodesOfSwiftDeps G U) ∅).
Proof.
  intros HG. split; [exact HG|]. intros key p. simpl.
  by rewrite lookup_nodesOfSwiftDeps.
Qed.

(** A definition of the file that is merged has a node in that file when
    the merge is done. *)
Lemma integrateChanges_keeps_definition (G G' : DriverGraph)
    (g : FrontendGraph) (changed : gset DependencyKey)
    (n : FrontendNode.t) :
  consistent G →
  getSwiftDepsFromSourceFileProvide g ≠ EmptyString →
  n ∈ allNodes g →
  FrontendNode.getSwiftDeps n = Some (getSwiftDepsFromSourceFileProvide g) →
  integrateChanges G g = Done (changed, G') →
  is_Some (find G' (getSwiftDepsFromSourceFileProvide g)
             (FrontendNode.getKey n)).
Proof.
  set (U := getSwiftDepsFromSourceFileProvide g).
  intros HG HU Hn Hsd (st1 & st2 & H1 & H2 & _ & ->)%integrateChanges_Done.
  fold U in H1.
  apply list_elem_of_split in Hn as (l1 & l2 & Hl). rewrite Hl in H1.
  rewrite forEachM_app in H1. apply bind_Done in H1 as (sa & Ha & H1).
  simpl in H1. apply bind_Done in H1 as (sb & Hb & Hc).
  apply (integrateNodes_disappearedInPlace g U U) in Ha;
    [| exact HU | by apply start_disappearedInPlace].
  apply integrateNode_NodeStep in Hb.
  pose proof (NodeStep_disappearedInPlace g sa sb n U HU Ha Hb) as Hsb.
  assert (Hnow : is_Some (find (graph sb) U (FrontendNode.getKey n))
                 ∧ disappearedNodes sb !! FrontendNode.getKey n = None).
  { destruct Ha as [[HFa _] Hda]. rewrite filedInPlace_lookup in HFa.
    destruct Hb as [sd q nq Hsd' Hq Hnq | sd e ne Hsd' Hq He Hone Hne
                   | sd Hsd' Hq He | Hsd' Hfp Hsome | Hsd' Hnone];
      rewrite Hsd in Hsd'; try discriminate Hsd';
      injection Hsd' as <-; unfold find in *; simpl.
    - split; [by exists q | apply lookup_delete_eq].
    - split.
      + destruct (HFa _ _ He) as (n' & Hn' & Hplace).
        rewrite Hne in Hn'. injection Hn' as <-.
        injection Hplace as _ ->. apply fileUnder_is_Some.
      + destruct (disappearedNodes sa !! FrontendNode.getKey n) as [q|]
          eqn:Hd; [|reflexivity].
        apply Hda in Hd. congruence.
    - split; [rewrite lookup_insert_eq; by eexists |].
      destruct (disappearedNodes sa !! FrontendNode.getKey n) as [q|]
        eqn:Hd; [|reflexivity].
      apply Hda in Hd. congruence. }
  destruct Hnow as [[p Hp] Hgone].
  apply (integrateNodes_keep_place g U U (FrontendNode.getKey n) p)
    in Hc as Hkept;
    [| exact HU | apply Hsb | exact Hp].
  apply (integrateNodes_disappeared_None g U (FrontendNode.getKey n))
    in Hc as Hnone;
    [| exact Hgone].
  apply (integrateNodes_disappearedInPlace g U U) in Hc as [[HF1 _] Hd1];
    [| exact HU | exact Hsb].
  exists p.
  apply (removeAll_keeps_place (graph st1) U U (FrontendNode.getKey n) p)
    in H2;
    [exact H2 | exact HF1 | | apply storeWithin_refl | exact Hkept].
  intros [k q] Hx%elem_of_map_to_list. simpl. split; [by apply Hd1|].
  intros [= ->]. congruence.
Qed.

(** A node of the file that is merged whose key the file no longer has is
    taken out of the index, and its key is reported changed. *)
Lemma integrateChanges_removes_missing (G G' : DriverGraph)
    (g : FrontendGraph) (changed : gset DependencyKey)
    (key : DependencyKey) (p : positive) :
  consistent G →
  getSwiftDepsFromSourceFileProvide g ≠ EmptyString →
  find G (getSwiftDepsFromSourceFileProvide g) key = Some p →
  (∀ n, n ∈ allNodes g → FrontendNode.getKey n ≠ key) →
  integrateChanges G g = Done (changed, G') →
  find G' (getSwiftDepsFromSourceFileProvide g) key = None ∧ key ∈ changed.
Proof.
  set (U := getSwiftDepsFromSourceFileProvide g).
  intros HG HU Hp Hkeys
    (st1 & st2 & H1 & H2 & -> & ->)%integrateChanges_Done.
  fold U in H1.
  apply (integrateNodes_disappeared_other g U key) in H1 as Hd;
    [| exact Hkeys].
  simpl in Hd. rewrite lookup_nodesOfSwiftDeps, Hp in Hd.
  apply (integrateNodes_disappearedInPlace g U U) in H1 as [[HF1 _] Hd1];
    [| exact HU | by apply start_disappearedInPlace].
  apply (removeAll_removes (graph st1) U key p) in H2;
    [exact H2 | exact HF1 | by apply Hd1 | by apply elem_of_map_to_list
    | apply storeWithin_refl].
Qed.

(** The nodes of the other files stay where they are. *)
Lemma integrateChanges_keeps_other_file (G G' : DriverGraph)
    (g : FrontendGraph) (changed : gset DependencyKey) (U : string)
    (key : DependencyKey) (p : positive) :
  consistent G →
  getSwiftDepsFromSourceFileProvide g ≠ EmptyString →
  U ≠ EmptyString → U ≠ getSwiftDepsFromSourceFileProvide g →
  find G U key = Some p →
  integrateChanges G g = Done (changed, G') →
  find G' U key = Some p.
Proof.
  set (V := getSwiftDepsFromSourceFileProvide g).
  intros HG HV HU HUV Hp
    (st1 & st2 & H1 & H2 & _ & ->)%integrateChanges_Done.
  fold V in H1.
  apply (integrateNodes_keep_place g V U key p) in H1 as Hkept;
    [| exact HU | exact HG | exact Hp].
  apply (integrateNodes_disappearedInPlace g V V) in H1 as [[HF1 _] Hd1];
    [| exact HV | by apply start_disappearedInPlace].
  apply (removeAll_keeps_place (graph st1) V U key p) in H2;
    [exact H2 | exact HF1 | | apply storeWithin_refl | exact Hkept].
  intros [k q] Hx%elem_of_map_to_list. simpl. split; [by apply Hd1|].
  intros [= ->]. by apply HUV.
Qed.

Lemma addIndependentNode_find (G : DriverGraph) (job : Job) :
  find (addIndependentNode G job) = find G.
Proof. unfold addIndependentNode. by destruct (jobsBySwiftDeps G !! _). Qed.

Lemma addIndependentNode_consistent (G : DriverGraph) (job : Job) :
  consistent G → consistent (addIndependentNode G job).
Proof. unfold addIndependentNode. by destruct (jobsBySwiftDeps G !! _). Qed.

Lemma loadAll_keeps_other_file (loads : list (Job * MemoryBuffer))
    (G G' : DriverGraph) (U : string) (key : DependencyKey) (p : positive) :
  loadsOfOtherFiles U loads → U ≠ EmptyString →
  consistent G → find G U key = Some p →
  loadAll G loads = Done G' →
  consistent G' ∧ find G' U key = Some p.
Proof.
  intros Hloads HU HG Hp Hrun. unfold loadAll in Hrun.
  apply (forEachM_invariant
           (λ G, consistent G ∧ find G U key = Some p)) in Hrun;
    [exact Hrun | | by split].
  intros G1 [job buffer] G2 Hin [HG1 Hp1] H.
  apply bind_Done in H as ([r G3] & H & [= <-]). split.
  - by eapply loadFromBuffer_consistent.
  - destruct buffer as [fg|]; simpl in H; [|by injection H as _ <-].
    unfold integrate in H. apply bind_Done in H as ([c G4] & H & [= _ <-]).
    destruct (Hloads job fg Hin) as [Hfg HfgU].
    apply (integrateChanges_keeps_other_file _ _ fg c U key p) in H;
      [exact H | by apply addIndependentNode_consistent | exact Hfg
      | exact HU | congruence | by rewrite addIndependentNode_find].
Qed.

(** ** Disappearance *)

(** C4. A unit that is merged with a graph that has a definition of a key,
    and later, after merges of other units, is merged again with a graph
    that does not have the key: the key is among the changed keys of the
    second merge, which returns [AffectsDownstream], and the graph has no
    node of that key that belongs to the unit any more. *)
Theorem disappeared_definition_is_removed (G G1 G1' G2 : DriverGraph)
    (S1 S2 : FrontendGraph) (others : list (Job * MemoryBuffer))
    (U : string) (key : DependencyKey) (n1 : FrontendNode.t)
    (changed1 changed2 : gset DependencyKey) :
  consistent G → U ≠ EmptyString →
  getSwiftDepsFromSourceFileProvide S1 = U →
  getSwiftDepsFromSourceFileProvide S2 = U →
  n1 ∈ allNodes S1 → FrontendNode.getKey n1 = key →
  FrontendNode.getSwiftDeps n1 = Some U →
  (∀ n, n ∈ allNodes S2 → FrontendNode.getKey n ≠ key) →
  loadsOfOtherFiles U others →
  integrateChanges G S1 = Done (changed1, G1) →
  loadAll G1 others = Done G1' →
  integrateChanges G1' S2 = Done (changed2, G2) →
  key ∈ changed2
  ∧ integrate G1' S2 = Done (AffectsDownstream, G2)
  ∧ ∀ p n, inGraph G2 p n → DriverNode.getKey n = key →
           DriverNode.getSwiftDeps n ≠ Some U.
Proof.
  intros HG HU HS1 HS2 Hn1 Hkey Hsd Hkeys Hothers H1 Hloads H2.
  subst key.
  pose proof (integrateChanges_consistent _ _ _ _ HG H1) as HG1.
  pose proof (integrateChanges_keeps_definition G G1 S1 changed1 n1 HG)
    as Hdef.
  rewrite HS1 in Hdef. destruct (Hdef HU Hn1 Hsd H1) as [p Hp].
  destruct (loadAll_keeps_other_file others G1 G1' U _ p Hothers HU HG1 Hp
              Hloads) as [HG1' Hp'].
  pose proof (integrateChanges_consistent _ _ _ _ HG1' H2) as [HF2 _].
  pose proof (integrateChanges_removes_missing G1' G2 S2 changed2
                (FrontendNode.getKey n1) p HG1') as Hrm.
  rewrite HS2 in Hrm. destruct (Hrm HU Hp' Hkeys H2) as [Hgone Hin].
  split; [exact Hin|]. split.
  - unfold integrate. rewrite H2. simpl.
    destruct (decide (changed2 = ∅)) as [->|_]; [|reflexivity].
    by apply not_elem_of_empty in Hin.
  - intros q n [Hn [place Hq]] Hk Hown.
    rewrite filedInPlace_lookup in HF2.
    destruct (HF2 _ _ Hq) as (n' & Hn' & <-).
    rewrite Hn in Hn'. injection Hn' as <-.
    unfold placeOf, DriverNode.getSwiftDepsForMapKey in Hq.
    rewrite Hown, Hk in Hq. simpl in Hq.
    unfold find in Hgone. congruence.
Qed.

Lemma disappeared_definition_is_removed_witness :
  kFoo ∈ secondMerge.1
  ∧ integrate afterDefinesBar definesBarInstead
    = Done (AffectsDownstream, secondMerge.2)
  ∧ ∀ p n, inGraph secondMerge.2 p n → DriverNode.getKey n = kFoo →
           DriverNode.getSwiftDeps n ≠ Some aDeps.
Proof.
  apply (disappeared_definition_is_removed emptyGraph afterDefinesFoo
           afterDefinesBar secondMerge.2
           definesFoo definesBarInstead [(mkJob bDeps, Some definesBar)]
           aDeps kFoo (FrontendNode.mk kFoo (Some "f1") (Some aDeps))
           (doneOr (∅, emptyGraph)
              (integrateChanges emptyGraph definesFoo)).1 secondMerge.1).
  - apply (bool_decide_unpack (consistent _)). vm_compute. exact I.
  - discriminate.
  - reflexivity.
  - reflexivity.
  - apply list_elem_of_here.
  - reflexivity.
  - reflexivity.
  - intros n Hn. apply list_elem_of_singleton in Hn. subst n. discriminate.
  - intros job fg Hin. apply list_elem_of_singleton in Hin.
    injection Hin as _ ->. split; discriminate.
  - vm_compute. reflexivity.
  - vm_compute. reflexivity.
  - vm_compute. reflexivity.
Defined.

(** ** The traversal *)

Lemma checkTransitiveClosureForCascading_step (fuel : nat) (G : DriverGraph)
    (st : gset positive * gset string) (d : positive) :
  checkTransitiveClosureForCascading (S fuel) G st d
  = if decide (d ∈ st.1) then Done st
    else
      def ← getNode G d;
      match DriverNode.getSwiftDeps def with
      | None => Abort AssertionFailed
      | Some swiftDeps =>
          forEachM (visitUse fuel G swiftDeps) ({[d]} ∪ st.1, st.2)
                   (forEachUseOf G def)
      end.
Proof. reflexivity. Qed.

Lemma cascadesFrom_mono (G : DriverGraph) (v : positive)
    (c c' : gset string) :
  c ⊆ c' → cascadesFrom G v c → cascadesFrom G v c'.
Proof.
  intros Hc Hv def u un Hdef Hu Hun Hi.
  destruct (Hv def u un Hdef Hu Hun Hi) as (sd & Hsd & Hin).
  exists sd. split; [exact Hsd | by apply Hc].
Qed.

Section Uses.
Context (fuel : nat) (G : DriverGraph).

(** What is known of the calls with less fuel. *)
Hypothesis calls_traversed :
  ∀ st d st',
    checkTransitiveClosureForCascading fuel G st d = Done st' →
    traversed G st st' d.

(** The loop over the uses of a definition of [swiftDeps]: every use is
    visited, the file of the definition cascades when a use is an
    interface, and whatever is visited on the way is marked. *)
Lemma visitUses_traversed (swiftDeps : string) (l : list positive)
    (st st' : gset positive * gset string) :
  forEachM (visitUse fuel G swiftDeps) st l = Done st' →
  st.1 ⊆ st'.1 ∧ st.2 ⊆ st'.2
  ∧ (∀ u, u ∈ l → u ∈ st'.1)
  ∧ (∀ u un, u ∈ l → nodes G !! u = Some un →
             isInterface (DriverNode.getKey un) = true →
             swiftDeps ∈ st'.2)
  ∧ (∀ v, v ∈ st'.1 → v ∉ st.1 → cascadesFrom G v st'.2).
Proof.
  revert st. induction l as [|u l IH]; intros st Hrun; simpl in Hrun.
  - injection Hrun as <-. repeat split; try done.
    + intros u Hu. by apply elem_of_nil in Hu.
    + intros u un Hu. by apply elem_of_nil in Hu.
  - apply bind_Done in Hrun as (st1 & Hu & Hrun).
    unfold visitUse in Hu. apply bind_Done in Hu as (un & Hun & Hu).
    apply getNode_Done in Hun.
    apply calls_traversed in Hu as (Hv1 & Hc1 & Hu1 & Hm1). simpl in *.
    destruct (IH st1 Hrun) as (Hv & Hc & Hl & Hi & Hm).
    assert (Hc0 : st.2 ⊆ st1.2).
    { etrans; [|exact Hc1]. unfold rememberThatJobCascades.
      destruct (isInterface _); [apply union_subseteq_r | done]. }
    split; [by etrans|]. split; [by etrans|]. split; [|split].
    + intros u' [->|Hu']%elem_of_cons; [by apply Hv | by apply Hl].
    + intros u' un' [->|Hu']%elem_of_cons Hun' Hint;
        [|by eapply Hi].
      rewrite Hun in Hun'. injection Hun' as <-. rewrite Hint in Hc1.
      unfold rememberThatJobCascades in Hc1.
      apply Hc, Hc1, elem_of_union. left. by apply elem_of_singleton.
    + intros v Hv' Hnew. destruct (decide (v ∈ st1.1)) as [Hin|Hout].
      * apply (cascadesFrom_mono G v st1.2); [exact Hc | by apply Hm1].
      * by apply Hm.
Qed.
End Uses.

(** Every call that is done has visited its node and has marked every node
    that it has newly visited. *)
Lemma checkTransitiveClosureForCascading_traversed (fuel : nat)
    (G : DriverGraph) (st st' : gset positive * gset string) (d : positive) :
  checkTransitiveClosureForCascading fuel G st d = Done st' →
  traversed G st st' d.
Proof.
  revert st st' d. induction fuel as [|fuel IH]; intros st st' d Hrun;
    [discriminate Hrun|].
  rewrite checkTransitiveClosureForCascading_step in Hrun.
  destruct (decide (d ∈ st.1)) as [Hin|Hout].
  - injection Hrun as <-. repeat split; try done.
  - apply bind_Done in Hrun as (def & Hdef & Hrun).
    apply getNode_Done in Hdef.
    destruct (DriverNode.getSwiftDeps def) as [swiftDeps|] eqn:Hsd;
      [|discriminate Hrun].
    apply (visitUses_traversed fuel G (λ st d st', IH st st' d)) in Hrun
      as (Hv & Hc & Hl & Hi & Hm). simpl in *.
    split; [etrans; [apply union_subseteq_r | exact Hv]|].
    split; [exact Hc|].
    split; [apply Hv, elem_of_union; left; by apply elem_of_singleton|].
    intros v Hv' Hnew. destruct (decide (v = d)) as [->|Hne].
    + intros def' u un Hdef' Hu Hun Hint.
      rewrite Hdef in Hdef'. injection Hdef' as <-.
      exists swiftDeps. split; [exact Hsd | by eapply Hi].
    + apply Hm; [exact Hv'|].
      by intros [Heq%elem_of_singleton|Hin]%elem_of_union.
Qed.

Ltac by_compute := apply (bool_decide_unpack _); vm_compute; exact I.

(** ** Cascading *)

(** C9, as the code has it. For every arc that the traversal finds from a
    node it visits to a use [u] whose key is an interface, the file of the
    visited node, the definition, is inserted into the cascading jobs. *)
Theorem interface_use_marks_file_of_definition (fuel : nat) (G : DriverGraph)
    (st st' : gset positive * gset string) (d v u : positive)
    (def un : DriverNode.t) :
  checkTransitiveClosureForCascading fuel G st d = Done st' →
  v ∈ st'.1 → v ∉ st.1 →
  nodes G !! v = Some def → u ∈ forEachUseOf G def →
  nodes G !! u = Some un → isInterface (DriverNode.getKey un) = true →
  ∃ swiftDeps, DriverNode.getSwiftDeps def = Some swiftDeps
               ∧ swiftDeps ∈ st'.2.
Proof.
  intros (_ & _ & _ & Hmarked)%checkTransitiveClosureForCascading_traversed
    Hv Hnew Hdef Hu Hun Hint.
  by apply (Hmarked v Hv Hnew def u un).
Qed.

Lemma interface_use_marks_file_of_definition_witness :
  ∃ swiftDeps,
    DriverNode.getSwiftDeps (DriverNode.mk kFoo (Some "f1") (Some aDeps))
    = Some swiftDeps
    ∧ swiftDeps ∈ (doneOr (∅, ∅)
                     (checkTransitiveClosureForCascading 3 fooAndItsUse
                        (∅, ∅) 1%positive)).2.
Proof.
  apply (interface_use_marks_file_of_definition 3 fooAndItsUse (∅, ∅)
           (doneOr (∅, ∅)
              (checkTransitiveClosureForCascading 3 fooAndItsUse (∅, ∅)
                 1%positive))
           1%positive 1%positive 2%positive
           (DriverNode.mk kFoo (Some "f1") (Some aDeps))
           (DriverNode.mk kBar (Some "b1") (Some bDeps))).
  - vm_compute. reflexivity.
  - by_compute.
  - by_compute.
  - vm_compute. reflexivity.
  - by_compute.
  - vm_compute. reflexivity.
  - reflexivity.
Defined.

(** C9, as it is stated, fails: the traversal from the definition of [foo]
    in [a.swiftdeps] finds the arc to its use [bar], an interface of
    [b.swiftdeps]; it marks [a.swiftdeps], and [b.swiftdeps], the file of
    the use, is not among the cascading jobs. *)
Lemma file_of_use_is_not_marked :
  checkTransitiveClosureForCascading 3 fooAndItsUse (∅, ∅) 1%positive
  = Done ({[1%positive; 2%positive]}, {[aDeps]})
  ∧ nodes fooAndItsUse !! 1%positive
    = Some (DriverNode.mk kFoo (Some "f1") (Some aDeps))
  ∧ forEachUseOf fooAndItsUse (DriverNode.mk kFoo (Some "f1") (Some aDeps))
    = [2%positive]
  ∧ nodes fooAndItsUse !! 2%positive
    = Some (DriverNode.mk kBar (Some "b1") (Some bDeps))
  ∧ isInterface kBar = true
  ∧ (bDeps ∉ ({[aDeps]} : gset string))
  ∧ ∃ jobs G', markTransitive fooAndItsUse [] (mkJob aDeps) = Done (jobs, G')
               ∧ bDeps ∉ cascadingJobs G'.
Proof.
  split; [vm_compute; reflexivity|].
  split; [vm_compute; reflexivity|].
  split; [vm_compute; reflexivity|].
  split; [vm_compute; reflexivity|].
  split; [reflexivity|].
  split; [by_compute|].
  eexists _, _. split; [vm_compute; reflexivity|].
  by_compute.
Qed.

(** ** The jobs of the visited nodes *)

(** The loop of [markTransitive] over the nodes of the file visits each of
    them. *)
Lemma traversal_visits_starts (fuel : nat) (G : DriverGraph)
    (l : list positive) (st st' : gset positive * gset string) :
  forEachM (checkTransitiveClosureForCascading fuel G) st l = Done st' →
  st.1 ⊆ st'.1 ∧ ∀ p, p ∈ l → p ∈ st'.1.
Proof.
  revert st. induction l as [|d l IH]; intros st Hrun; simpl in Hrun.
  - injection Hrun as <-. split; [done|].
    intros p Hp. by apply elem_of_nil in Hp.
  - apply bind_Done in Hrun as (st1 & Hd & Hrun).
    apply checkTransitiveClosureForCascading_traversed in Hd
      as (Hv1 & _ & Hd1 & _).
    destruct (IH st1 Hrun) as [Hv Hl]. split; [by etrans|].
    intros p [->|Hp]%elem_of_cons; [by apply Hv | by apply Hl].
Qed.

(** A step of the copy-back loop that appends a job: the file is new, and
    the job is the one the graph has for it. *)
Lemma copyBackVisitedJob_Done (st st' : CopyBack) (p : positive) :
  copyBackVisitedJob st p = Done st' →
  st' = st
  ∨ ∃ node swiftDeps job,
      nodes (trackedGraph st) !! p = Some node
      ∧ DriverNode.getSwiftDeps node = Some swiftDeps
      ∧ (swiftDeps ∉ visitedSwiftDeps st)
      ∧ getJob (trackedGraph st) swiftDeps = Done job
      ∧ st' = mkCopyBack ({[swiftDeps]} ∪ visitedSwiftDeps st)
                (visitedJobs st ++ [job]) (trackedGraph st).
Proof.
  unfold copyBackVisitedJob, getNode.
  destruct (nodes (trackedGraph st) !! p) as [node|] eqn:Hnode; simpl;
    [|intros H; discriminate H].
  destruct (DriverNode.getSwiftDeps node) as [sd|] eqn:Hsd;
    [|intros [= <-]; by left].
  destruct (decide (sd ∈ visitedSwiftDeps st)) as [Hin|Hout];
    [intros [= <-]; by left|].
  destruct (assertThat _) as [[]|]; simpl; [|intros H; discriminate H].
  destruct (ensureJobIsTracked _ _) as [[]|]; simpl;
    [|intros H; discriminate H].
  destruct (getJob (trackedGraph st) sd) as [job|] eqn:Hjob; simpl;
    [|intros H; discriminate H].
  intros [= <-]. right. by exists node, sd, job.
Qed.

Lemma copyBackVisitedJob_trackedGraph (st st' : CopyBack) (p : positive) :
  copyBackVisitedJob st p = Done st' → trackedGraph st' = trackedGraph st.
Proof.
  intros [->|(node & sd & job & _ & _ & _ & _ & ->)]%copyBackVisitedJob_Done;
    reflexivity.
Qed.

Lemma copyBackVisitedJob_copiedBack (G : DriverGraph) (st st' : CopyBack)
    (p : positive) :
  copiedBack G st → copyBackVisitedJob st p = Done st' →
  copiedBack G st'
  ∧ visitedSwiftDeps st ⊆ visitedSwiftDeps st'
  ∧ ∀ n swiftDeps,
      nodes G !! p = Some n → DriverNode.getSwiftDeps n = Some swiftDeps →
      swiftDeps ∈ visitedSwiftDeps st'.
Proof.
  intros [Hstore Hjobs] Hrun. unfold copyBackVisitedJob in Hrun.
  apply bind_Done in Hrun as (node & Hnode & Hrun).
  apply getNode_Done in Hnode. rewrite Hstore in Hnode.
  destruct (DriverNode.getSwiftDeps node) as [sd|] eqn:Hsd.
  - destruct (decide (sd ∈ visitedSwiftDeps st)) as [Hin|Hout].
    + injection Hrun as <-. split; [by split|]. split; [done|].
      intros n s Hn Hs. congruence.
    + destruct (assertThat _) as [[]|]; simpl in Hrun; [|discriminate Hrun].
      destruct (ensureJobIsTracked _ _) as [[]|]; simpl in Hrun;
        [|discriminate Hrun].
      apply bind_Done in Hrun as (job & Hjob & [= <-]). simpl.
      split; [split|split].
      * simpl. exact Hstore.
      * simpl. intros s [->%elem_of_singleton|Hs]%elem_of_union.
        -- exists job. split; [exact Hjob|].
           apply elem_of_app. right. apply list_elem_of_here.
        -- destruct (Hjobs s Hs) as (j & Hj & Hjin). exists j. split.
           ++ exact Hj.
           ++ apply elem_of_app. by left.
      * apply union_subseteq_r.
      * intros n s Hn Hs. apply elem_of_union. left.
        apply elem_of_singleton. congruence.
  - injection Hrun as <-. split; [by split|]. split; [done|].
    intros n s Hn Hs. congruence.
Qed.

Lemma copyBack_copiedBack (G : DriverGraph) (l : list positive)
    (st st' : CopyBack) :
  copiedBack G st → forEachM copyBackVisitedJob st l = Done st' →
  copiedBack G st'
  ∧ visitedSwiftDeps st ⊆ visitedSwiftDeps st'
  ∧ ∀ p n swiftDeps,
      p ∈ l → nodes G !! p = Some n →
      DriverNode.getSwiftDeps n = Some swiftDeps →
      swiftDeps ∈ visitedSwiftDeps st'.
Proof.
  revert st. induction l as [|p l IH]; intros st Hst Hrun; simpl in Hrun.
  - injection Hrun as <-. split; [exact Hst|]. split; [done|].
    intros p n s Hp. by apply elem_of_nil in Hp.
  - apply bind_Done in Hrun as (st1 & Hp & Hrun).
    destruct (copyBackVisitedJob_copiedBack G st st1 p Hst Hp)
      as (Hst1 & Hsub1 & Hp1).
    destruct (IH st1 Hst1 Hrun) as (Hst' & Hsub & Hl).
    split; [exact Hst'|]. split; [by etrans|].
    intros q n s [->|Hq]%elem_of_cons Hn Hs.
    + apply Hsub. by eapply Hp1.
    + by eapply Hl.
Qed.

(** C1, as the code has it. The jobs that [markTransitive] copies back are
    those of all visited nodes, the nodes of the starting file among them:
    when the file of the job has a node, the job that corresponds to that
    file is in the result. *)
Theorem markTransitive_includes_starting_job (G G' : DriverGraph)
    (job : Job) (jobs : list Job) (key : DependencyKey) (p : positive)
    (n : DriverNode.t) :
  find G (getSwiftDeps job) key = Some p →
  nodes G !! p = Some n →
  DriverNode.getSwiftDeps n = Some (getSwiftDeps job) →
  markTransitive G [] job = Done (jobs, G') →
  ∃ j, getJob G' (getSwiftDeps job) = Done j ∧ j ∈ jobs.
Proof.
  intros Hp Hn Hsd Hrun. unfold markTransitive in Hrun.
  apply bind_Done in Hrun as ([visited cascading] & Htrav & Hrun).
  apply bind_Done in Hrun as (st & Hcopy & [= <- <-]).
  apply traversal_visits_starts in Htrav as [_ Hstarts]. simpl in Hstarts.
  assert (Hvisited : p ∈ visited).
  { apply Hstarts. apply list_elem_of_fmap. exists (key, p).
    split; [reflexivity|]. apply elem_of_map_to_list.
    by rewrite lookup_nodesOfSwiftDeps. }
  apply (copyBack_copiedBack (withCascadingJobs G cascading)) in Hcopy
    as ([_ Hjobs] & _ & Hseen).
  - apply Hjobs. apply (Hseen p n); [|exact Hn | exact Hsd].
    by apply elem_of_elements.
  - split; [reflexivity|]. simpl. intros s Hs.
    by apply not_elem_of_empty in Hs.
Qed.

Lemma markTransitive_includes_starting_job_witness :
  ∃ j, getJob (doneOr ([], emptyGraph)
                 (markTransitive fooAndItsUse [] (mkJob aDeps))).2
         (getSwiftDeps (mkJob aDeps)) = Done j
       ∧ j ∈ (doneOr ([], emptyGraph)
                (markTransitive fooAndItsUse [] (mkJob aDeps))).1.
Proof.
  apply (markTransitive_includes_starting_job fooAndItsUse _ (mkJob aDeps) _
           kFoo 1%positive (DriverNode.mk kFoo (Some "f1") (Some aDeps)));
    vm_compute; reflexivity.
Defined.

(** C1, as it is stated, fails: [a.swiftdeps] has a node, and the result of
    [markTransitive] for its job contains that job. *)
Lemma starting_job_is_in_result :
  find fooAndItsUse aDeps kFoo = Some 1%positive
  ∧ nodes fooAndItsUse !! 1%positive
    = Some (DriverNode.mk kFoo (Some "f1") (Some aDeps))
  ∧ ∃ G', markTransitive fooAndItsUse [] (mkJob aDeps)
          = Done ([mkJob bDeps; mkJob aDeps], G')
          ∧ mkJob aDeps ∈ [mkJob bDeps; mkJob aDeps].
Proof.
  split; [vm_compute; reflexivity|].
  split; [vm_compute; reflexivity|].
  eexists. split; [vm_compute; reflexivity|].
  apply list_elem_of_further, list_elem_of_here.
Qed.

(** ** The traversal ends *)

Lemma length_filter_le_impl {A : Type} (P Q : A → Prop)
    `{!∀ x, Decision (P x)} `{!∀ x, Decision (Q x)} (l : list A) :
  (∀ x, P x → Q x) → length (filter P l) ≤ length (filter Q l).
Proof.
  intros HPQ. induction l as [|x l IH]; [done|].
  rewrite !filter_cons.
  destruct (decide (P x)) as [HP|HP], (decide (Q x)) as [HQ|HQ]; simpl;
    try lia.
  exfalso. by apply HQ, HPQ.
Qed.

Lemma length_filter_lt_impl {A : Type} (P Q : A → Prop)
    `{!∀ x, Decision (P x)} `{!∀ x, Decision (Q x)} (l : list A) (a : A) :
  (∀ x, P x → Q x) → a ∈ l → Q a → ¬ P a →
  length (filter P l) < length (filter Q l).
Proof.
  intros HPQ Ha HQa HPa. induction l as [|x l IH];
    [by apply elem_of_nil in Ha|].
  rewrite !filter_cons.
  pose proof (length_filter_le_impl P Q l HPQ) as Hle.
  apply elem_of_cons in Ha as [<-|Ha].
  - destruct (decide (P a)) as [HP|HP], (decide (Q a)) as [HQ|HQ];
      try done. simpl. lia.
  - specialize (IH Ha).
    destruct (decide (P x)) as [HP|HP], (decide (Q x)) as [HQ|HQ]; simpl;
      try lia.
    exfalso. by apply HQ, HPQ.
Qed.

Lemma unvisited_mono (G : DriverGraph) (v v' : gset positive) :
  v ⊆ v' → unvisited G v' ≤ unvisited G v.
Proof.
  intros Hv. apply length_filter_le_impl. intros x Hx Hin. by apply Hx, Hv.
Qed.

Lemma unvisited_visit (G : DriverGraph) (v : gset positive) (d : positive) :
  d ∈ indexed G → d ∉ v → unvisited G ({[d]} ∪ v) < unvisited G v.
Proof.
  intros Hd Hv. apply (length_filter_lt_impl _ _ _ d); [|exact Hd|exact Hv|].
  - intros x Hx Hin. apply Hx, elem_of_union. by right.
  - intros Hout. apply Hout, elem_of_union. left. by apply elem_of_singleton.
Qed.

Lemma unvisited_le_size (G : DriverGraph) (v : gset positive) :
  unvisited G v < traversalFuel G.
Proof.
  unfold unvisited, traversalFuel, indexed.
  pose proof (length_filter (λ p, p ∉ v) (map_to_list (nodeMap G)).*2) as H.
  rewrite length_fmap, length_map_to_list in H. lia.
Qed.

Lemma find_indexed (G : DriverGraph) (swiftDeps : string)
    (key : DependencyKey) (p : positive) :
  find G swiftDeps key = Some p → p ∈ indexed G.
Proof.
  intros Hp. apply list_elem_of_fmap. exists (swiftDeps, key, p).
  split; [reflexivity | by apply elem_of_map_to_list].
Qed.

Lemma forEachUseOf_indexed (G : DriverGraph) (def : DriverNode.t)
    (u : positive) :
  u ∈ forEachUseOf G def → u ∈ indexed G.
Proof.
  unfold forEachUseOf. destruct (usesByDef G !! _) as [uses|];
    [|intros H; by apply elem_of_nil in H].
  intros (k & Hu & _)%list_elem_of_bind.
  unfold forEachMatchingNode in Hu.
  apply list_elem_of_fmap in Hu as ([s q] & -> & Hq).
  apply elem_of_nodesOfKey in Hq. by eapply find_indexed.
Qed.

(** A loop whose body has fuel enough for every node of [l], and only adds
    to the visited nodes, does not run out of fuel. *)
Lemma loop_has_fuel (G : DriverGraph) (fuel : nat)
    (body : gset positive * gset string → positive →
            outcome (gset positive * gset string))
    (l : list positive) (st : gset positive * gset string) :
  (∀ st u, u ∈ l → unvisited G st.1 < fuel →
           body st u ≠ Abort OutOfFuel) →
  (∀ st u st', body st u = Done st' → st.1 ⊆ st'.1) →
  unvisited G st.1 < fuel →
  forEachM body st l ≠ Abort OutOfFuel.
Proof.
  intros Hbody Hgrows. revert st.
  induction l as [|u l IH]; intros st Hst; simpl; [discriminate|].
  destruct (body st u) as [st1|f] eqn:Hu; simpl.
  - apply IH.
    + intros st2 u2 Hu2. apply Hbody. by apply list_elem_of_further.
    + pose proof (unvisited_mono G _ _ (Hgrows _ _ _ Hu)). lia.
  - rewrite <- Hu. apply Hbody; [apply list_elem_of_here | exact Hst].
Qed.

Lemma visitUse_grows (fuel : nat) (G : DriverGraph) (swiftDeps : string)
    (st st' : gset positive * gset string) (u : positive) :
  visitUse fuel G swiftDeps st u = Done st' → st.1 ⊆ st'.1.
Proof.
  unfold visitUse. intros (un & _ & Hu)%bind_Done.
  by apply checkTransitiveClosureForCascading_traversed in Hu as [Hv _].
Qed.

(** As many calls may be nested as there are nodes of the index that are not
    visited, and one more. *)
Lemma checkTransitiveClosureForCascading_has_fuel (G : DriverGraph)
    (fuel : nat) (st : gset positive * gset string) (d : positive) :
  d ∈ indexed G → unvisited G st.1 < fuel →
  checkTransitiveClosureForCascading fuel G st d ≠ Abort OutOfFuel.
Proof.
  revert st d. induction fuel as [|fuel IH]; intros st d Hd Hfuel; [lia|].
  rewrite checkTransitiveClosureForCascading_step.
  destruct (decide (d ∈ st.1)) as [Hin|Hout]; [discriminate|].
  destruct (getNode G d) as [def|f] eqn:Hdef; simpl;
    [|unfold getNode in Hdef; destruct (nodes G !! d); congruence].
  destruct (DriverNode.getSwiftDeps def) as [swiftDeps|]; [|discriminate].
  pose proof (unvisited_visit G st.1 d Hd Hout) as Hless.
  apply (loop_has_fuel G fuel).
  - intros st1 u Hu Hst1. unfold visitUse.
    destruct (getNode G u) as [un|f] eqn:Hun; simpl;
      [|unfold getNode in Hun; destruct (nodes G !! u); congruence].
    apply IH; [by eapply forEachUseOf_indexed | exact Hst1].
  - intros st1 u st1'. apply visitUse_grows.
  - simpl. lia.
Qed.

Lemma loop_never_out_of_fuel {S A : Type} (body : S → A → outcome S)
    (l : list A) (s : S) :
  (∀ s a, body s a ≠ Abort OutOfFuel) → forEachM body s l ≠ Abort OutOfFuel.
Proof.
  intros Hbody. revert s. induction l as [|a l IH]; intros s; simpl;
    [discriminate|].
  destruct (body s a) as [s1|f] eqn:Ha; simpl; [apply IH|].
  rewrite <- Ha. apply Hbody.
Qed.

(** The fuel that [markTransitive] gives the traversal is enough: the call
    is done, or an assertion has failed. *)
Lemma markTransitive_has_fuel (G : DriverGraph) (visited : list Job)
    (job : Job) :
  markTransitive G visited job ≠ Abort OutOfFuel.
Proof.
  unfold markTransitive.
  destruct (forEachM _ _ _) as [[visitedNodeSet cascading]|f] eqn:Htrav;
    simpl.
  - destruct (forEachM copyBackVisitedJob _ _) as [st|f] eqn:Hcopy; simpl;
      [discriminate|].
    intros [= ->]. revert Hcopy. apply loop_never_out_of_fuel.
    intros st n.
    unfold copyBackVisitedJob, getNode, ensureJobIsTracked, getJob,
      assertThat.
    destruct (nodes (trackedGraph st) !! n) as [node|]; simpl;
      [|discriminate].
    destruct (DriverNode.getSwiftDeps node) as [sd|]; [|discriminate].
    destruct (decide (sd ∈ visitedSwiftDeps st)); [discriminate|].
    destruct (assertImplementationsMustBeInFiles _ _); simpl;
      [|discriminate].
    destruct (decide (sd = EmptyString)); simpl;
      destruct (jobsBySwiftDeps _ !! sd); simpl; discriminate.
  - intros [= ->]. revert Htrav. apply (loop_has_fuel G (traversalFuel G)).
    + intros st u Hu _.
      apply checkTransitiveClosureForCascading_has_fuel;
        [|apply unvisited_le_size].
      apply list_elem_of_fmap in Hu as ([k p] & -> & Hp).
      apply elem_of_map_to_list in Hp.
      rewrite lookup_nodesOfSwiftDeps in Hp. by eapply find_indexed.
    + intros st u st' H.
      by apply checkTransitiveClosureForCascading_traversed in H as [Hv _].
    + apply unvisited_le_size.
Qed.

(** ** Uses of a definition of the same file *)

(** The branch of [integrateFrontendExpatNode] for a node in place: the node
    takes the integrand's fingerprint, loses its swiftDeps and is refiled
    under the expat bucket, and the key is reported as changed. *)
Lemma node_in_place_becomes_expat (G : DriverGraph)
    (integrand : FrontendNode.t) (swiftDepsOfFrontendGraph sd : string)
    (p : positive) (n : DriverNode.t) :
  nodes G !! p = Some n →
  DriverNode.getSwiftDeps n = Some sd →
  sd ≠ EmptyString →
  find G sd (DriverNode.getKey n) = Some p →
  find G EmptyString (DriverNode.getKey n) = None →
  ∃ G', integrateFrontendExpatNode G integrand swiftDepsOfFrontendGraph
          (Some p) None false = Done (true, G')
        ∧ nodes G' !! p
          = Some (DriverNode.mk (DriverNode.getKey n)
                    (FrontendNode.getFingerprint integrand) None)
        ∧ find G' sd (DriverNode.getKey n) = None
        ∧ find G' EmptyString (DriverNode.getKey n) = Some p.
Proof.
  intros Hn Hsd Hne Hp He. unfold integrateFrontendExpatNode. simpl.
  unfold integrateFingerprintFrom, moveNodeToDifferentFile, eraseNodeFromMap,
    addToMap, getNode, find in *.
  rewrite Hn. simpl. rewrite lookup_insert_eq. simpl.
  rewrite lookup_insert_eq. simpl. rewrite lookup_insert_eq. simpl.
  unfold DriverNode.getSwiftDepsForMapKey. simpl. rewrite Hsd. simpl.
  rewrite lookup_delete_ne by (intros [= ->]; done). rewrite He.
  eexists. split; [reflexivity|]. simpl.
  rewrite insert_insert_eq, lookup_insert_eq. split; [reflexivity|].
  rewrite lookup_insert_ne by (intros [= <-]; done).
  rewrite lookup_delete_eq, lookup_insert_eq. done.
Qed.

(** [integrate] looks for a node in place only for an integrand that has a
    swiftDeps, so for a use it finds none: when the file itself has a node
    for the key, that node counts as a duplicate in another file, and
    nothing is done. The branch of [integrateFrontendExpatNode] that makes
    a node in place an expat is never reached from [integrate]. *)
Lemma use_of_own_definition_changes_nothing (g : FrontendGraph)
    (swiftDeps sd : string) (st st' : Integration)
    (integrand : FrontendNode.t) (p : positive) :
  FrontendNode.getSwiftDeps integrand = None →
  find (graph st) sd (FrontendNode.getKey integrand) = Some p →
  integrateNode g swiftDeps st integrand = Done st' →
  nodes (graph st') = nodes (graph st)
  ∧ nodeMap (graph st') = nodeMap (graph st)
  ∧ disappearedNodes st' = disappearedNodes st
  ∧ changedNodes st' = changedNodes st.
Proof.
  intros Hsd Hp Hstep%integrateNode_NodeStep.
  destruct Hstep as [sd' q n Hsd' Hq Hn | sd' e n Hsd' Hq He Hone Hn
                    | sd' Hsd' Hq He | Hsd' Hfp Hsome | Hsd' Hnone];
    try congruence; [done|].
  apply elem_of_nodesOfKey in Hp. rewrite Hnone in Hp.
  by apply elem_of_nil in Hp.
Qed.

(** C3 at the failing input. The file [a.swiftdeps] has the only node of
    [foo]; a merge of that file meets a use of [foo]: the step leaves the
    node a node of the file and reports nothing; at the end of the merge the
    node is removed as disappeared, and [foo] has no node at all. *)
Lemma use_does_not_make_definition_expat :
  find fooLoaded aDeps kFoo = Some 1%positive
  ∧ nodesOfKey fooLoaded kFoo = [(aDeps, 1%positive)]
  ∧ (∃ st', integrateNode usesFoo aDeps
              (mkIntegration fooLoaded (nodesOfSwiftDeps fooLoaded aDeps) ∅)
              (FrontendNode.mk kFoo None None) = Done st'
            ∧ nodes (graph st') !! 1%positive
              = Some (DriverNode.mk kFoo (Some "f1") (Some aDeps))
            ∧ find (graph st') aDeps kFoo = Some 1%positive
            ∧ find (graph st') EmptyString kFoo = None
            ∧ changedNodes st' = ∅)
  ∧ loadFromBuffer fooLoaded (mkJob aDeps) (Some usesFoo)
    = Done (AffectsDownstream, fooUsedOnce)
  ∧ nodesOfKey fooUsedOnce kFoo = []
  ∧ nodes fooUsedOnce = ∅.
Proof.
  split; [vm_compute; reflexivity|].
  split; [vm_compute; reflexivity|].
  split; [eexists; split; [vm_compute; reflexivity|]|].
  { split; [vm_compute; reflexivity|].
    split; [vm_compute; reflexivity|].
    split; vm_compute; reflexivity. }
  split; [vm_compute; reflexivity|].
  split; vm_compute; reflexivity.
Qed.

(** C2 at the failing input. The same graph of [a.swiftdeps], which uses
    [foo] and no longer defines it, is merged twice into the graph in which
    [a.swiftdeps] has the only node of [foo]: the first merge removes the
    node of [foo]; the second merge makes an expat for [foo], so it returns
    [AffectsDownstream] and leaves another graph than the first. With the
    node made an expat by the first merge, the second would have found it
    and changed nothing. *)
Lemma second_merge_is_not_up_to_date :
  loadFromBuffer fooLoaded (mkJob aDeps) (Some usesFoo)
  = Done (AffectsDownstream, fooUsedOnce)
  ∧ loadFromBuffer fooUsedOnce (mkJob aDeps) (Some usesFoo)
    = Done (AffectsDownstream, fooUsedTwice)
  ∧ find fooUsedOnce EmptyString kFoo = None
  ∧ find fooUsedTwice EmptyString kFoo = Some 1%positive
  ∧ fooUsedTwice ≠ fooUsedOnce.
Proof.
  split; [vm_compute; reflexivity|].
  split; [vm_compute; reflexivity|].
  split; [vm_compute; reflexivity|].
  split; [vm_compute; reflexivity|].
  intros Heq. apply (f_equal (λ G, find G EmptyString kFoo)) in Heq.
  vm_compute in Heq. discriminate Heq.
Qed.

(** ** Merges that are done *)

Lemma forEachM_completes {S A : Type} (P : S → Prop)
    (body : S → A → outcome S) (l : list A) (s : S) :
  (∀ s a, a ∈ l → P s → ∃ s', body s a = Done s' ∧ P s') →
  P s → ∃ s', forEachM body s l = Done s' ∧ P s'.
Proof.
  revert s. induction l as [|a l IH]; intros s Hbody Hs; simpl.
  - by exists s.
  - destruct (Hbody s a (list_elem_of_here _ _) Hs) as (s1 & -> & Hs1).
    simpl. apply IH; [|exact Hs1].
    intros s2 b Hb. apply Hbody. by apply list_elem_of_further.
Qed.

(** On a consistent graph whose owners are named, the expat bucket holds
    expats only, so the assertion of [integrateFrontendNode] holds. *)
Lemma expat_is_alone (G : DriverGraph) (key : DependencyKey) (e : positive) :
  consistent G → ownersNamed G →
  find G EmptyString key = Some e → length (nodesOfKey G key) = 1.
Proof.
  intros [HF HS] HN He.
  rewrite filedInPlace_lookup in HF. rewrite expatsStandAlone_lookup in HS.
  destruct (HF _ _ He) as (n & Hn & Hplace).
  apply (nodesOfKey_alone G key EmptyString e He). intros s q Hq.
  apply (HS key e s q); [|exact Hq]. apply expatOf_Some. split; [exact He|].
  exists n. split; [exact Hn|].
  pose proof (map_Forall_lookup_1 _ _ _ _ HN Hn) as Hnamed. simpl in Hnamed.
  injection Hplace as Hsd _. unfold DriverNode.getSwiftDepsForMapKey in Hsd.
  destruct (DriverNode.getSwiftDeps n) as [sd|]; [|reflexivity].
  simpl in Hsd. by subst sd.
Qed.

Lemma integrateNode_completes (g : FrontendGraph) (swiftDeps : string)
    (st : Integration) (integrand : FrontendNode.t) :
  consistent (graph st) → ownersNamed (graph st) →
  (FrontendNode.getSwiftDeps integrand = None →
   FrontendNode.getFingerprint integrand = None) →
  assertImplementationsMustBeInFiles (FrontendNode.getKey integrand)
    (FrontendNode.getSwiftDeps integrand) = true →
  ∃ st', integrateNode g swiftDeps st integrand = Done st'.
Proof.
  intros HG HN Hfp Himpl. pose proof HG as [HF _].
  rewrite filedInPlace_lookup in HF.
  destruct st as [G d c], integrand as [k fp sd]. simpl in *.
  unfold integrateNode, integrateFrontendNode; simpl.
  set (G1 := integrateUsesByDef G _ g).
  assert (Hfind : ∀ s, find G1 s k = find G s k) by reflexivity.
  assert (Hcount : nodesOfKey G1 k = nodesOfKey G k) by reflexivity.
  destruct sd as [sd|]; simpl; rewrite ?Hfind, ?Hcount.
  - destruct (find G sd k) as [p|] eqn:Hp; simpl.
    + destruct (HF _ _ Hp) as (n & Hn & _).
      unfold integrateFingerprintFrom, getNode.
      change (nodes G1) with (nodes G). rewrite Hn. simpl. by eexists.
    + destruct (find G EmptyString k) as [e|] eqn:He; simpl.
      * rewrite (expat_is_alone G k e HG HN He). simpl.
        destruct (HF _ _ He) as (n & Hn & _).
        rewrite (proj2 (moveNodeToDifferentFile_Done G1 _ e (Some sd))
                   (ex_intro _ n (conj Hn eq_refl))). simpl.
        unfold integrateFingerprintFrom, getNode. simpl.
        rewrite lookup_insert_eq. simpl. by eexists.
      * rewrite integrateByCreatingANewNode_Done. simpl. by eexists.
  - rewrite (Hfp eq_refl).
    destruct (find G EmptyString k) as [e|] eqn:He; simpl.
    + rewrite (expat_is_alone G k e HG HN He). simpl.
      unfold integrateFrontendExpatNode. simpl. by eexists.
    + unfold integrateFrontendExpatNode.
      destruct (length (nodesOfKey G k) =? 0); simpl; [|by eexists].
      rewrite integrateByCreatingANewNode_Done. simpl.
      rewrite Himpl. simpl. by eexists.
Qed.

Lemma NodeStep_ownersNamed (g : FrontendGraph) (st st' : Integration)
    (integrand : FrontendNode.t) :
  ownersNamed (graph st) →
  FrontendNode.getSwiftDeps integrand ≠ Some EmptyString →
  NodeStep g st integrand st' → ownersNamed (graph st').
Proof.
  intros HN Hsd Hstep. unfold ownersNamed in *.
  destruct Hstep as [sd p n Hsd' Hp Hn | sd e n Hsd' Hp He Hone Hn
                    | sd Hsd' Hp He | Hsd' Hfp Hsome | Hsd' Hnone]; simpl;
    try exact HN; apply map_Forall_insert_2; try exact HN; simpl;
    try congruence.
  apply (map_Forall_lookup_1 _ _ _ _ HN Hn).
Qed.

Lemma removeAll_completes (l : list (DependencyKey * positive))
    (st : Integration) :
  NoDup l → (∀ x y, x ∈ l → y ∈ l → x.2 = y.2 → x = y) →
  (∀ x, x ∈ l → is_Some (nodes (graph st) !! x.2)) →
  ∃ st', forEachM removeDisappeared st l = Done st'.
Proof.
  revert st. induction l as [|x l IH]; intros st Hnodup Hinj Hlive; simpl.
  - by exists st.
  - pose proof (NoDup_cons_1_1 _ _ Hnodup) as Hx.
    apply NoDup_cons_1_2 in Hnodup.
    destruct (Hlive x (list_elem_of_here _ _)) as [n Hn].
    rewrite (proj2 (removeDisappeared_Done st _ x)
               (ex_intro _ n (conj Hn eq_refl))). simpl.
    apply IH; [exact Hnodup | |].
    + intros y z Hy Hz. apply Hinj; by apply list_elem_of_further.
    + intros y Hy. simpl. rewrite lookup_delete_ne.
      * apply Hlive. by apply list_elem_of_further.
      * intros Heq. apply Hx.
        rewrite (Hinj x y (list_elem_of_here _ _)
                   (list_elem_of_further _ _ _ Hy) Heq). exact Hy.
Qed.

Lemma removeDisappeared_ownersNamed (st st' : Integration)
    (x : DependencyKey * positive) :
  ownersNamed (graph st) → removeDisappeared st x = Done st' →
  ownersNamed (graph st').
Proof.
  intros HN (n & Hn & ->)%removeDisappeared_Done. simpl.
  by apply map_Forall_delete.
Qed.

Lemma integrateChanges_ownersNamed (G G' : DriverGraph) (g : FrontendGraph)
    (changed : gset DependencyKey) :
  ownersNamed G → wellFormed g →
  integrateChanges G g = Done (changed, G') → ownersNamed G'.
Proof.
  intros HN [HU Hnodes] H. rewrite list.Forall_forall in Hnodes.
  unfold integrateChanges in H.
  apply bind_Done in H as (st1 & H1 & H).
  apply bind_Done in H as (st2 & H2 & [= _ <-]).
  apply (forEachM_invariant (λ st, ownersNamed (graph st))) in H1.
  - apply (forEachM_invariant (λ st, ownersNamed (graph st))) in H2;
      [exact H2 | | exact H1].
    intros s a s' _. apply removeDisappeared_ownersNamed.
  - intros s a s' Ha Hs Hstep. apply integrateNode_NodeStep in Hstep.
    apply (NodeStep_ownersNamed g s s' a); [exact Hs | | exact Hstep].
    intros Hsd. specialize (Hnodes a Ha). rewrite Hsd in Hnodes.
    by apply HU.
  - exact HN.
Qed.

(** The merge of a well-formed per-file graph, whose implementations are its
    own, into a consistent graph is done, and the graph it leaves is
    consistent. *)
Lemma integrateChanges_completes (G : DriverGraph) (g : FrontendGraph) :
  consistent G → ownersNamed G → wellFormed g → implementationsInFiles g →
  ∃ changed G', integrateChanges G g = Done (changed, G')
                ∧ consistent G' ∧ ownersNamed G'.
Proof.
  intros HG HN [HU Hnodes] Himpl. rewrite list.Forall_forall in Hnodes.
  unfold implementationsInFiles in Himpl.
  rewrite list.Forall_forall in Himpl.
  set (U := getSwiftDepsFromSourceFileProvide g) in *.
  unfold integrateChanges. fold U.
  destruct (forEachM_completes
              (λ st, disappearedInPlace U st ∧ ownersNamed (graph st))
              (integrateNode g U) (allNodes g)
              (mkIntegration G (nodesOfSwiftDeps G U) ∅))
    as (st1 & -> & [[HG1 Hd1] HN1]).
  - intros st n Hn [[Hst Hd] HNst]. specialize (Hnodes n Hn).
    destruct (integrateNode_completes g U st n Hst HNst) as [st' Hstep].
    { intros Hsd. by rewrite Hsd in Hnodes. }
    { by apply Himpl. }
    exists st'. split; [exact Hstep|].
    apply integrateNode_NodeStep in Hstep. split.
    + by apply (NodeStep_disappearedInPlace g st st' n U).
    + apply (NodeStep_ownersNamed g st st' n); [exact HNst | | exact Hstep].
      intros Hsd. rewrite Hsd in Hnodes. by apply HU.
  - split; [by apply start_disappearedInPlace | exact HN].
  - simpl. pose proof HG1 as [HF1 _]. rewrite filedInPlace_lookup in HF1.
    destruct (removeAll_completes (map_to_list (disappearedNodes st1)) st1)
      as [st2 H2].
    + apply NoDup_map_to_list.
    + intros [k p] [k' p'] Hx%elem_of_map_to_list Hy%elem_of_map_to_list.
      simpl. intros <-. apply Hd1 in Hx, Hy.
      destruct (HF1 _ _ Hx) as (n & Hn & Hplace).
      destruct (HF1 _ _ Hy) as (n' & Hn' & Hplace').
      congruence.
    + intros [k p] Hx%elem_of_map_to_list. simpl. apply Hd1 in Hx.
      destruct (HF1 _ _ Hx) as (n & Hn & _). by exists n.
    + rewrite H2. simpl. eexists _, _. split; [reflexivity|]. split.
      * revert H2.
        apply (forEachM_invariant (λ st, consistent (graph st)));
          [|exact HG1].
        intros s a s' _. apply removeDisappeared_consistent.
      * revert H2.
        apply (forEachM_invariant (λ st, ownersNamed (graph st)));
          [|exact HN1].
        intros s a s' _. apply removeDisappeared_ownersNamed.
Qed.

(** Every sequence of loads of well-formed per-file graphs whose
    implementations are their own, from the empty graph on, is done. *)
Lemma loadAll_completes (loads : list (Job * MemoryBuffer)) :
  Forall (λ load : Job * MemoryBuffer,
            match load.2 with
            | Some fg => wellFormed fg ∧ implementationsInFiles fg
            | None => True
            end)
         loads →
  ∃ G, loadAll emptyGraph loads = Done G.
Proof.
  intros Hloads. rewrite list.Forall_forall in Hloads. unfold loadAll.
  destruct (forEachM_completes (λ G, consistent G ∧ ownersNamed G)
              (λ G load, '(_, G) ← loadFromBuffer G load.1 load.2; Done G)
              loads emptyGraph) as (G & HG & _).
  - intros G [job [fg|]] Hin [HG HN]; simpl.
    + specialize (Hloads _ Hin). simpl in Hloads.
      destruct Hloads as [Hwf Himpl].
      destruct (integrateChanges_completes (addIndependentNode G job) fg)
        as (c & G' & HG' & Hgood); [| |exact Hwf|exact Himpl|].
      * by apply addIndependentNode_consistent.
      * unfold addIndependentNode. by destruct (jobsBySwiftDeps G !! _).
      * unfold integrate. rewrite HG'. simpl. by exists G'.
    + by exists G.
  - split; [apply emptyGraph_consistent | apply map_Forall_empty].
  - by exists G.
Qed.

(** ** Merging the same graph again *)

Lemma settled_same (G : DriverGraph) (g : FrontendGraph)
    (n : FrontendNode.t) :
  usesByDef (integrateUsesByDef G n g) = usesByDef G →
  (getKind (FrontendNode.getKey n) = externalDepend →
   getName (FrontendNode.getKey n) ∈ externalDependencies G) →
  settled G g n (nodes G) (nodeMap G) = G.
Proof.
  intros Huses Hext. unfold settled. rewrite Huses.
  destruct (decide (getKind (FrontendNode.getKey n) = externalDepend))
    as [Hkind|Hkind].
  - rewrite (subseteq_union_1_L {[getName (FrontendNode.getKey n)]}
               (externalDependencies G)); [by destruct G|].
    apply singleton_subseteq_l. by apply Hext.
  - by destruct G.
Qed.

Lemma fingerprintChanged_same (f : string) :
  fingerprintChanged (Some f) (Some f) = false.
Proof. simpl. by rewrite String.eqb_refl. Qed.

Lemma setFingerprint_same (n : DriverNode.t) :
  DriverNode.setFingerprint n (DriverNode.getFingerprint n) = n.
Proof. by destruct n. Qed.

(** On a graph that [g] is merged into, a step for a node of [g] changes
    nothing and reports nothing. *)
Lemma integrateNode_merged (G : DriverGraph) (g : FrontendGraph)
    (d : gmap DependencyKey positive) (n : FrontendNode.t) :
  consistent G → ownersNamed G → wellFormed g → fingerprinted g →
  mergedInto g G → n ∈ allNodes g →
  integrateNode g (getSwiftDepsFromSourceFileProvide g)
    (mkIntegration G d ∅) n
  = Done (mkIntegration G (notMet [n] d) ∅).
Proof.
  intros HG HN [HU Hwf] Hfp (Hdef & Huse & _ & Harcs & Hext) Hn.
  rewrite list.Forall_forall in Hwf. specialize (Hwf n Hn).
  specialize (Harcs n Hn). specialize (Hext n Hn).
  pose proof (settled_same G g n Harcs Hext) as Hsame.
  set (U := getSwiftDepsFromSourceFileProvide g) in *.
  unfold integrateNode, integrateFrontendNode, notMet; simpl.
  set (G1 := integrateUsesByDef G n g) in *.
  assert (Hfind : ∀ s k, find G1 s k = find G s k) by reflexivity.
  assert (Hcount : ∀ k, nodesOfKey G1 k = nodesOfKey G k) by reflexivity.
  destruct (FrontendNode.getSwiftDeps n) as [sd|] eqn:Hsd; simpl.
  - subst sd. destruct (Hdef n Hn Hsd) as (p & nd & Hp & Hnd & Hsamefp).
    destruct (Hfp n Hn) as [f Hf]; [by rewrite Hsd|].
    rewrite !Hfind, Hp. simpl.
    unfold integrateFingerprintFrom, getNode.
    change (nodes G1) with (nodes G). rewrite Hnd. simpl.
    rewrite Hsamefp, Hf, fingerprintChanged_same. simpl.
    rewrite <- Hf, <- Hsamefp, setFingerprint_same, insert_id by exact Hnd.
    do 2 f_equal. etrans; [|exact Hsame].
    unfold settled. by destruct (decide _).
  - specialize (Huse n Hn Hsd). rewrite !Hfind, Hcount.
    unfold integrateFrontendExpatNode. rewrite Hwf.
    destruct (find G EmptyString (FrontendNode.getKey n)) as [e|] eqn:He;
      simpl.
    + rewrite (expat_is_alone G _ e HG HN He). simpl.
      do 2 f_equal. etrans; [|exact Hsame].
      unfold settled. by destruct (decide _).
    + apply length_one_or_more in Huse. rewrite Huse. simpl.
      do 2 f_equal. etrans; [|exact Hsame].
      unfold settled. by destruct (decide _).
Qed.

Lemma notMet_lookup_Some (l : list FrontendNode.t)
    (d : gmap DependencyKey positive) (key : DependencyKey) (p : positive) :
  notMet l d !! key = Some p →
  d !! key = Some p
  ∧ ∀ n, n ∈ l → is_Some (FrontendNode.getSwiftDeps n) →
         FrontendNode.getKey n ≠ key.
Proof.
  revert d. induction l as [|a l IH]; intros d Hp; simpl in Hp.
  - split; [exact Hp|]. intros n Hn. by apply elem_of_nil in Hn.
  - apply IH in Hp as [Hp Hl].
    destruct (FrontendNode.getSwiftDeps a) as [sd|] eqn:Hsd; simpl in Hp.
    + apply lookup_delete_Some in Hp as [Hne Hp]. split; [exact Hp|].
      intros n [->|Hn]%elem_of_cons Hdef; [exact Hne | by apply Hl].
    + split; [exact Hp|].
      intros n [->|Hn]%elem_of_cons Hdef; [|by apply Hl].
      rewrite Hsd in Hdef. by destruct Hdef.
Qed.

Lemma integrateNodes_merged (G : DriverGraph) (g : FrontendGraph)
    (l : list FrontendNode.t) (d : gmap DependencyKey positive) :
  consistent G → ownersNamed G → wellFormed g → fingerprinted g →
  mergedInto g G → (∀ n, n ∈ l → n ∈ allNodes g) →
  forEachM (integrateNode g (getSwiftDepsFromSourceFileProvide g))
    (mkIntegration G d ∅) l
  = Done (mkIntegration G (notMet l d) ∅).
Proof.
  intros HG HN Hwf Hfp Hmerged. revert d.
  induction l as [|n l IH]; intros d Hl; simpl; [reflexivity|].
  rewrite (integrateNode_merged G g d n HG HN Hwf Hfp Hmerged)
    by apply Hl, list_elem_of_here.
  simpl. apply IH. intros n' Hn'. by apply Hl, list_elem_of_further.
Qed.

(** A graph that [g] is merged into is left as it is by a merge of [g],
    which returns [UpToDate]. *)
Lemma merged_graph_is_up_to_date (G : DriverGraph) (g : FrontendGraph) :
  consistent G → ownersNamed G → wellFormed g → fingerprinted g →
  mergedInto g G → integrate G g = Done (UpToDate, G).
Proof.
  intros HG HN Hwf Hfp Hmerged. unfold integrate, integrateChanges.
  rewrite (integrateNodes_merged G g (allNodes g) _ HG HN Hwf Hfp Hmerged)
    by done.
  simpl.
  assert (Hnone : notMet (allNodes g)
                    (nodesOfSwiftDeps G (getSwiftDepsFromSourceFileProvide g))
                  = ∅).
  { apply map_empty. intros key.
    destruct (notMet _ _ !! key) as [p|] eqn:Hp; [|reflexivity].
    apply notMet_lookup_Some in Hp as [Hp Hl].
    rewrite lookup_nodesOfSwiftDeps in Hp.
    destruct Hmerged as (_ & _ & Hfile & _).
    destruct (Hfile key p Hp) as (n & Hn & Hkey & Hsd).
    destruct (Hl n Hn); [by rewrite Hsd | exact Hkey]. }
  rewrite Hnone, map_to_list_empty. simpl.
  by destruct (decide (∅ = ∅)).
Qed.

(** *** What the first merge leaves *)

Lemma foldl_uses_grows (def : DependencyKey) (l : list DependencyKey)
    (uses : gset DependencyKey) (use : DependencyKey) :
  use ∈ uses ∨ (use ∈ l ∧ use ≠ def) →
  use ∈ foldl (λ (uses : gset DependencyKey) use,
                 if decide (use ≠ def) then {[use]} ∪ uses else uses)
              uses l.
Proof.
  revert uses. induction l as [|a l IH]; intros uses H; simpl.
  - destruct H as [H|[H _]]; [exact H | by apply elem_of_nil in H].
  - apply IH. destruct H as [H|[[->|H]%elem_of_cons Hne]].
    + left. destruct (decide (a ≠ def)); [|exact H].
      apply elem_of_union. by right.
    + left. destruct (decide (a ≠ def)); [|done].
      apply elem_of_union. left. by apply elem_of_singleton.
    + by right.
Qed.

Lemma foldl_uses_same (def : DependencyKey) (l : list DependencyKey)
    (uses : gset DependencyKey) :
  (∀ use, use ∈ l → use ≠ def → use ∈ uses) →
  foldl (λ (uses : gset DependencyKey) use,
           if decide (use ≠ def) then {[use]} ∪ uses else uses)
        uses l = uses.
Proof.
  induction l as [|a l IH]; intros Hl; simpl; [reflexivity|].
  destruct (decide (a ≠ def)) as [Hne|_].
  - rewrite (subseteq_union_1_L {[a]} uses).
    + apply IH. intros use Hin. apply Hl. by apply list_elem_of_further.
    + apply singleton_subseteq_l, Hl; [apply list_elem_of_here | exact Hne].
  - apply IH. intros use Hin. apply Hl. by apply list_elem_of_further.
Qed.

Lemma arcsRecorded_same (g : FrontendGraph) (G : DriverGraph)
    (n : FrontendNode.t) :
  arcsRecorded g G n → usesByDef (integrateUsesByDef G n g) = usesByDef G.
Proof.
  intros (uses & Huses & Hall). unfold integrateUsesByDef. simpl.
  rewrite Huses. simpl. rewrite (foldl_uses_same _ _ _ Hall).
  by apply insert_id.
Qed.

(** Recording the arcs of [a] records them, and keeps those of every node
    recorded. *)
Lemma integrateUsesByDef_arcsRecorded (g : FrontendGraph) (G : DriverGraph)
    (a n : FrontendNode.t) :
  n = a ∨ arcsRecorded g G n →
  arcsRecorded g (integrateUsesByDef G a g) n.
Proof.
  intros H. unfold arcsRecorded, integrateUsesByDef. simpl.
  destruct (decide (FrontendNode.getKey n = FrontendNode.getKey a))
    as [Hkey|Hkey].
  - rewrite Hkey, lookup_insert_eq. eexists. split; [reflexivity|].
    intros use Hin Hne. apply foldl_uses_grows.
    destruct H as [->|(uses & Huses & Hall)].
    + by right.
    + left. rewrite Hkey in Huses. rewrite Huses. simpl.
      apply Hall; [exact Hin | by rewrite Hkey].
  - destruct H as [->|(uses & Huses & Hall)]; [done|].
    rewrite lookup_insert_ne by done. by exists uses.
Qed.

Lemma NodeStep_records (g : FrontendGraph) (st st' : Integration)
    (a : FrontendNode.t) :
  NodeStep g st a st' →
  usesByDef (graph st') = usesByDef (integrateUsesByDef (graph st) a g)
  ∧ externalDependencies (graph st) ⊆ externalDependencies (graph st')
  ∧ externalRecorded (graph st') a.
Proof.
  intros Hstep. unfold externalRecorded.
  destruct Hstep; simpl; (split; [reflexivity|]);
    destruct (decide (getKind (FrontendNode.getKey a) = externalDepend));
    (split; [try done; apply union_subseteq_r|]); intros Hkind; try done;
    apply elem_of_union; left; by apply elem_of_singleton.
Qed.

Lemma NodeStep_arcsRecorded (g : FrontendGraph) (st st' : Integration)
    (a n : FrontendNode.t) :
  NodeStep g st a st' → n = a ∨ arcsRecorded g (graph st) n →
  arcsRecorded g (graph st') n.
Proof.
  intros [Huses _]%NodeStep_records H.
  apply (integrateUsesByDef_arcsRecorded g (graph st) a n) in H.
  unfold arcsRecorded in *. by rewrite Huses.
Qed.

Lemma NodeStep_externalRecorded (g : FrontendGraph) (st st' : Integration)
    (a n : FrontendNode.t) :
  NodeStep g st a st' → n = a ∨ externalRecorded (graph st) n →
  externalRecorded (graph st') n.
Proof.
  intros (_ & Hgrows & Ha)%NodeStep_records [->|Hn]; [exact Ha|].
  intros Hkind. by apply Hgrows, Hn.
Qed.

(** A step leaves a node of a file as it is unless it is the definition
    that the step integrates. *)
Lemma NodeStep_keeps_node (g : FrontendGraph) (st st' : Integration)
    (a : FrontendNode.t) (swiftDeps : string) (key : DependencyKey)
    (p : positive) (nd : DriverNode.t) :
  consistent (graph st) → NodeStep g st a st' →
  swiftDeps ≠ EmptyString →
  find (graph st) swiftDeps key = Some p → nodes (graph st) !! p = Some nd →
  FrontendNode.getKey a ≠ key ∨ FrontendNode.getSwiftDeps a = None →
  nodes (graph st') !! p = Some nd.
Proof.
  intros [HF _] Hstep Hne Hp Hnd Hother. pose proof HF as Hfiled.
  rewrite filedInPlace_lookup in HF.
  destruct (HF _ _ Hp) as (nd' & Hnd' & Hplace).
  rewrite Hnd in Hnd'. injection Hnd' as <-.
  destruct Hstep as [sd q n Hsd Hq Hn | sd e n Hsd Hq He Hone Hn
                    | sd Hsd Hq He | Hsd Hfp Hsome | Hsd Hnone]; simpl.
  - rewrite lookup_insert_ne; [exact Hnd|]. intros ->.
    destruct (HF _ _ Hq) as (n' & Hn' & Hplace').
    rewrite Hnd in Hn'. injection Hn' as <-.
    destruct Hother as [Hkey|Hexp]; congruence.
  - rewrite lookup_insert_ne; [exact Hnd|]. intros ->.
    destruct (HF _ _ He) as (n' & Hn' & Hplace').
    rewrite Hnd in Hn'. injection Hn' as <-.
    rewrite Hplace in Hplace'. injection Hplace' as Hs _. by apply Hne.
  - rewrite lookup_insert_ne; [exact Hnd|].
    symmetry. by eapply filed_not_fresh.
  - exact Hnd.
  - rewrite lookup_insert_ne; [exact Hnd|].
    symmetry. by eapply filed_not_fresh.
Qed.

(** A step leaves every key that has a node with a node. *)
Lemma NodeStep_keeps_key (g : FrontendGraph) (st st' : Integration)
    (a : FrontendNode.t) (key : DependencyKey) :
  consistent (graph st) → NodeStep g st a st' →
  nodesOfKey (graph st) key ≠ [] → nodesOfKey (graph st') key ≠ [].
Proof.
  intros [HF _] Hstep Hsome. rewrite filedInPlace_lookup in HF.
  assert (Hhas : ∃ s p, find (graph st) s key = Some p).
  { destruct (nodesOfKey (graph st) key) as [|[s p] l] eqn:Hl; [done|].
    exists s, p. apply elem_of_nodesOfKey. rewrite Hl. left. }
  destruct Hhas as (s & p & Hp).
  assert (Hgoal : ∃ s' p', find (graph st') s' key = Some p').
  { destruct Hstep as [sd q n Hsd Hq Hn | sd e n Hsd Hq He Hone Hn
                      | sd Hsd Hq He | Hsd Hfp Hsome' | Hsd Hnone];
      unfold find in *; simpl.
    - by exists s, p.
    - destruct (HF _ _ He) as (n' & Hn' & Hplace).
      rewrite Hn in Hn'. injection Hn' as <-.
      assert (Hk : DriverNode.getKey n = FrontendNode.getKey a)
        by (by injection Hplace).
      rewrite Hplace, Hk.
      destruct (decide ((s, key) = (EmptyString, FrontendNode.getKey a)))
        as [Heq|Hother].
      + injection Heq as -> ->.
        destruct (fileUnder_is_Some (sd, FrontendNode.getKey a) e
                    (delete (EmptyString, FrontendNode.getKey a)
                       (nodeMap (graph st)))) as [q Hq'].
        by exists sd, q.
      + exists s, p. apply fileUnder_keeps. by rewrite lookup_delete_ne.
    - exists s, p. rewrite lookup_insert_ne; [exact Hp | congruence].
    - by exists s, p.
    - exists s, p. rewrite lookup_insert_ne; [exact Hp|].
      intros [= <- <-]. apply elem_of_nodesOfKey in Hp.
      rewrite Hnone in Hp. by apply elem_of_nil in Hp. }
  destruct Hgoal as (s' & p' & Hp'). apply elem_of_nodesOfKey in Hp'.
  intros Hnil. rewrite Hnil in Hp'. by apply elem_of_nil in Hp'.
Qed.

Lemma fileUnder_lookup_ne (place place' : string * DependencyKey)
    (q : positive) (m : gmap (string * DependencyKey) positive) :
  place ≠ place' → fileUnder place' q m !! place = m !! place.
Proof.
  intros Hne. unfold fileUnder. destruct (m !! place'); [reflexivity|].
  by rewrite lookup_insert_ne.
Qed.

(** The step for a definition of the file leaves its node in the file, with
    its fingerprint, and it will not disappear. *)
Lemma NodeStep_defines (g : FrontendGraph) (U : string)
    (st st' : Integration) (a : FrontendNode.t) :
  U ≠ EmptyString → disappearedInPlace U st →
  FrontendNode.getSwiftDeps a = Some U → NodeStep g st a st' →
  disappearedNodes st' !! FrontendNode.getKey a = None
  ∧ ∃ p nd, find (graph st') U (FrontendNode.getKey a) = Some p
            ∧ nodes (graph st') !! p = Some nd
            ∧ DriverNode.getFingerprint nd = FrontendNode.getFingerprint a.
Proof.
  intros HU [[HF _] Hd] Hsd Hstep. rewrite filedInPlace_lookup in HF.
  assert (Hfree : find (graph st) U (FrontendNode.getKey a) = None →
                  disappearedNodes st !! FrontendNode.getKey a = None).
  { intros Hnone.
    destruct (disappearedNodes st !! FrontendNode.getKey a) as [q|] eqn:Hq;
      [|reflexivity].
    apply Hd in Hq. congruence. }
  destruct Hstep as [sd q n Hsd' Hq Hn | sd e n Hsd' Hq He Hone Hn
                    | sd Hsd' Hq He | Hsd' Hfp Hsome | Hsd' Hnone];
    rewrite Hsd in Hsd'; try discriminate Hsd'; injection Hsd' as <-;
    unfold find in *; simpl.
  - split; [apply lookup_delete_eq|]. exists q. eexists.
    split; [exact Hq|]. split; [apply lookup_insert_eq | reflexivity].
  - split; [by apply Hfree|].
    destruct (HF _ _ He) as (n' & Hn' & Hplace).
    rewrite Hn in Hn'. injection Hn' as <-.
    assert (Hk : DriverNode.getKey n = FrontendNode.getKey a)
      by (by injection Hplace).
    rewrite Hplace, Hk. unfold fileUnder.
    rewrite lookup_delete_ne, Hq by (by intros [= <-]).
    exists e. eexists. split; [apply lookup_insert_eq|].
    split; [apply lookup_insert_eq | reflexivity].
  - split; [by apply Hfree|]. eexists _, _.
    split; [apply lookup_insert_eq|].
    split; [apply lookup_insert_eq | reflexivity].
Qed.

Lemma NodeStep_bucket (g : FrontendGraph) (U : string)
    (st st' : Integration) (a : FrontendNode.t) (key : DependencyKey)
    (p : positive) :
  U ≠ EmptyString → consistent (graph st) →
  (∀ sd, FrontendNode.getSwiftDeps a = Some sd → sd = U) →
  NodeStep g st a st' →
  find (graph st') U key = Some p →
  (FrontendNode.getKey a = key ∧ FrontendNode.getSwiftDeps a = Some U)
  ∨ (find (graph st) U key = Some p
     ∧ disappearedNodes st' !! key = disappearedNodes st !! key).
Proof.
  intros HU [HF _] Hown Hstep Hp. rewrite filedInPlace_lookup in HF.
  destruct (decide (FrontendNode.getKey a = key)) as [Hkey|Hkey].
  - destruct (FrontendNode.getSwiftDeps a) as [sd|] eqn:Hsd.
    + left. split; [exact Hkey|]. by rewrite (Hown sd eq_refl).
    + right.
      destruct Hstep as [sd q n Hsd' Hq Hn | sd e n Hsd' Hq He Hone Hn
                        | sd Hsd' Hq He | Hsd' Hfp Hsome | Hsd' Hnone];
        try congruence; unfold find in *; simpl in *.
      * by split.
      * rewrite lookup_insert_ne in Hp by (by intros [= <-]). by split.
  - right.
    destruct Hstep as [sd q n Hsd' Hq Hn | sd e n Hsd' Hq He Hone Hn
                      | sd Hsd' Hq He | Hsd' Hfp Hsome | Hsd' Hnone];
      unfold find in *; simpl in *.
    + split; [exact Hp | by rewrite lookup_delete_ne].
    + destruct (HF _ _ He) as (n' & Hn' & Hplace).
      rewrite Hn in Hn'. injection Hn' as <-.
      assert (Hk : DriverNode.getKey n = FrontendNode.getKey a)
        by (by injection Hplace).
      rewrite Hplace, Hk in Hp.
      rewrite fileUnder_lookup_ne, lookup_delete_ne in Hp by congruence.
      by split.
    + rewrite lookup_insert_ne in Hp by congruence. by split.
    + by split.
    + rewrite lookup_insert_ne in Hp by congruence. by split.
Qed.

Lemma NodeStep_mergingInto (g : FrontendGraph) (U : string)
    (met : list FrontendNode.t) (st st' : Integration)
    (a : FrontendNode.t) :
  U ≠ EmptyString →
  (∀ sd, FrontendNode.getSwiftDeps a = Some sd → sd = U) →
  (∀ n, n ∈ met → FrontendNode.getSwiftDeps n = Some U →
        FrontendNode.getSwiftDeps a = Some U →
        FrontendNode.getKey a ≠ FrontendNode.getKey n) →
  mergingInto g U met st → NodeStep g st a st' →
  mergingInto g U (met ++ [a]) st'.
Proof.
  intros HU Hown Honce (Hd & Hdefs & Huses & Hfile & Hrec) Hstep.
  pose proof Hd as [HG _].
  split; [by eapply NodeStep_disappearedInPlace|].
  split; [|split; [|split]].
  - intros n [Hn|Ha%list_elem_of_singleton]%elem_of_app Hsd;
      [|subst n; by eapply NodeStep_defines].
    destruct (Hdefs n Hn Hsd) as (Hnone & p & nd & Hp & Hnd & Hfp). split.
    + destruct (NodeStep_disappeared g st st' a (FrontendNode.getKey n)
                  Hstep) as [->|[Hgone _]]; done.
    + exists p, nd. split; [by eapply NodeStep_keeps_place|].
      split; [|exact Hfp].
      apply (NodeStep_keeps_node g st st' a U (FrontendNode.getKey n));
        try done.
      destruct (FrontendNode.getSwiftDeps a) as [sd|] eqn:Hsda;
        [|by right].
      left. apply (Honce n Hn Hsd). by rewrite (Hown sd eq_refl).
  - intros n [Hn|Ha%list_elem_of_singleton]%elem_of_app Hsd.
    + eapply NodeStep_keeps_key; [exact HG | exact Hstep | by apply Huses].
    + subst n. destruct Hstep as [sd q n Hsd' Hq Hn | sd e n Hsd' Hq He Hone Hn
                        | sd Hsd' Hq He | Hsd' Hfp Hsome | Hsd' Hnone];
        try congruence; simpl; [exact Hsome|].
      intros Hnil.
      assert (Hin : (EmptyString, fresh (dom (nodes (graph st))))
                    ∈ @nil (string * positive)).
      { rewrite <- Hnil. apply elem_of_nodesOfKey. unfold find. simpl.
        apply lookup_insert_eq. }
      by apply elem_of_nil in Hin.
  - intros key p Hp.
    destruct (NodeStep_bucket g U st st' a key p HU HG Hown Hstep Hp)
      as [[Hkey Hsd]|[Hold Hsame]].
    + right. exists a. split; [|by split].
      apply elem_of_app. right. apply list_elem_of_here.
    + destruct (Hfile key p Hold) as [Hdis|(n & Hn & Hkey & Hsd)].
      * left. by rewrite Hsame.
      * right. exists n. split; [|by split]. apply elem_of_app. by left.
  - intros n Hn. split.
    + apply (NodeStep_arcsRecorded g st st' a n Hstep).
      apply elem_of_app in Hn as [Hn|Ha%list_elem_of_singleton];
        [right; by apply Hrec | by left].
    + apply (NodeStep_externalRecorded g st st' a n Hstep).
      apply elem_of_app in Hn as [Hn|Ha%list_elem_of_singleton];
        [right; by apply Hrec | by left].
Qed.

(** An invariant of the loop that speaks of the part of the list that has
    been gone through. *)
Lemma forEachM_prefix {S A : Type} (P : list A → S → Prop)
    (body : S → A → outcome S) (l : list A) (s s' : S) :
  (∀ met a rest s1 s2, l = met ++ a :: rest → P met s1 →
                       body s1 a = Done s2 → P (met ++ [a]) s2) →
  P [] s → forEachM body s l = Done s' → P l s'.
Proof.
  intros Hbody.
  assert (Hgen : ∀ rest met s, l = met ++ rest → P met s →
                               forEachM body s rest = Done s' → P l s').
  { induction rest as [|a rest IH]; intros met s1 Hl Hs Hrun; simpl in Hrun.
    - injection Hrun as <-. by rewrite Hl, app_nil_r.
    - apply bind_Done in Hrun as (s2 & Ha & Hrun).
      apply (IH (met ++ [a]) s2); [by rewrite <- app_assoc | | exact Hrun].
      by apply (Hbody met a rest s1 s2). }
  intros Hs. by apply (Hgen l [] s).
Qed.

Lemma definedOnce_split (g : FrontendGraph) (met rest : list FrontendNode.t)
    (a n : FrontendNode.t) :
  definedOnce g → allNodes g = met ++ a :: rest → n ∈ met →
  is_Some (FrontendNode.getSwiftDeps n) →
  is_Some (FrontendNode.getSwiftDeps a) →
  FrontendNode.getKey a ≠ FrontendNode.getKey n.
Proof.
  unfold definedOnce. intros Hnodup Hl Hn Hdn Hda Hkey.
  rewrite Hl, list.filter_app, filter_cons_True, fmap_app, fmap_cons
    in Hnodup by exact Hda.
  apply list.NoDup_app in Hnodup as (_ & Hdisjoint & _).
  apply (Hdisjoint (FrontendNode.getKey n)).
  - apply list_elem_of_fmap. exists n. split; [reflexivity|].
    apply list_elem_of_filter. by split.
  - rewrite Hkey. apply list_elem_of_here.
Qed.

Lemma removeAll_keeps_node (G0 : DriverGraph) (U swiftDeps : string)
    (key : DependencyKey) (p : positive) (nd : DriverNode.t)
    (l : list (DependencyKey * positive)) (st st' : Integration) :
  filedInPlace G0 →
  (∀ x, x ∈ l → find G0 U x.1 = Some x.2 ∧ (U, x.1) ≠ (swiftDeps, key)) →
  find G0 swiftDeps key = Some p →
  storeWithin (graph st) G0 → nodes (graph st) !! p = Some nd →
  forEachM removeDisappeared st l = Done st' →
  nodes (graph st') !! p = Some nd.
Proof.
  intros HF Hl Hp Hst Hnd Hrun. rewrite filedInPlace_lookup in HF.
  apply (forEachM_invariant
           (λ st, storeWithin (graph st) G0
                  ∧ nodes (graph st) !! p = Some nd))
    in Hrun as [_ H]; [exact H | | by split].
  intros s x s' Hx [Hs Hps] Hstep. split;
    [by eapply removeDisappeared_storeWithin|].
  apply removeDisappeared_Done in Hstep as (n & Hn & ->). simpl.
  rewrite lookup_delete_ne; [exact Hps|]. intros Heq.
  destruct (Hl x Hx) as [Hfiled Hother].
  destruct (HF _ _ Hfiled) as (n1 & Hn1 & Hplace1).
  destruct (HF _ _ Hp) as (n2 & Hn2 & Hplace2).
  rewrite Heq in Hn1. congruence.
Qed.

Lemma removeAll_within (l : list (DependencyKey * positive))
    (st st' : Integration) :
  forEachM removeDisappeared st l = Done st' →
  (∀ swiftDeps key p, find (graph st') swiftDeps key = Some p →
                      find (graph st) swiftDeps key = Some p)
  ∧ usesByDef (graph st') = usesByDef (graph st)
  ∧ externalDependencies (graph st') = externalDependencies (graph st).
Proof.
  apply (forEachM_invariant
           (λ s, (∀ swiftDeps key p,
                    find (graph s) swiftDeps key = Some p →
                    find (graph st) swiftDeps key = Some p)
                 ∧ usesByDef (graph s) = usesByDef (graph st)
                 ∧ externalDependencies (graph s)
                   = externalDependencies (graph st))); [|done].
  intros s x s' _ (Hidx & Huses & Hext) (n & Hn & ->)%removeDisappeared_Done.
  simpl. split; [|by split].
  intros sd key p Hp. unfold find in Hp. simpl in Hp.
  apply lookup_delete_Some in Hp as [_ Hp]. by apply Hidx.
Qed.

(** The first merge of a well-formed graph leaves it merged, when no key
    that it only uses has a node in its file. *)
Lemma integrateChanges_mergedInto (G G1 : DriverGraph) (g : FrontendGraph)
    (changed : gset DependencyKey) :
  consistent G → wellFormed g → definedOnce g → usesElsewhere g G →
  integrateChanges G g = Done (changed, G1) → mergedInto g G1.
Proof.
  intros HG [HU Hwf] Honce Helse
    (st1 & st2 & H1 & H2 & _ & ->)%integrateChanges_Done.
  rewrite list.Forall_forall in Hwf.
  set (U := getSwiftDepsFromSourceFileProvide g) in *.
  pose proof H1 as Hgone.
  apply (forEachM_prefix (mergingInto g U)) in H1
    as ([[HF1 HS1] Hd1] & Hdefs & Huses & Hfile & Hrec).
  - pose proof (removeAll_within _ _ _ H2) as (Hidx & Harcs & Hext).
    assert (Hl : ∀ x, x ∈ map_to_list (disappearedNodes st1) →
                      find (graph st1) U x.1 = Some x.2).
    { intros [k q] Hx%elem_of_map_to_list. by apply Hd1. }
    assert (Hkeep : ∀ s key p,
              disappearedNodes st1 !! key = None →
              find (graph st1) s key = Some p →
              find (graph st2) s key = Some p).
    { intros s key p Hnone Hp.
      apply (removeAll_keeps_place (graph st1) U s key p) in H2;
        [exact H2 | exact HF1 | | apply storeWithin_refl | exact Hp].
      intros [k q] Hx. split; [by apply Hl|]. simpl.
      apply elem_of_map_to_list in Hx. intros [= _ ->]. congruence. }
    split; [|split; [|split; [|split]]].
    + intros n Hn Hsd.
      destruct (Hdefs n Hn Hsd) as (Hnone & p & nd & Hp & Hnd & Hfp).
      exists p, nd. split; [by apply Hkeep|]. split; [|exact Hfp].
      apply (removeAll_keeps_node (graph st1) U U (FrontendNode.getKey n)
               p nd) in H2;
        [exact H2 | exact HF1 | | exact Hp | apply storeWithin_refl
        | exact Hnd].
      intros [k q] Hx. split; [by apply Hl|]. simpl.
      apply elem_of_map_to_list in Hx. intros [= ->]. congruence.
    + intros n Hn Hsd. specialize (Huses n Hn Hsd).
      assert (Hnone : disappearedNodes st1 !! FrontendNode.getKey n = None).
      { destruct (Helse n Hn Hsd) as [Hfree|(n' & Hn' & [sd' Hsd'] & Hkey)].
        - apply (integrateNodes_disappeared_None g U (FrontendNode.getKey n))
            in Hgone; [exact Hgone|].
          simpl. by rewrite lookup_nodesOfSwiftDeps.
        - pose proof (Hwf n' Hn') as Hown. rewrite Hsd' in Hown.
          subst sd'. rewrite <- Hkey. by apply (Hdefs n' Hn' Hsd'). }
      destruct (nodesOfKey (graph st1) (FrontendNode.getKey n))
        as [|[s p] l] eqn:Hnodes; [done|].
      assert (Hp : find (graph st1) s (FrontendNode.getKey n) = Some p).
      { apply elem_of_nodesOfKey. rewrite Hnodes. left. }
      apply (Hkeep s _ p Hnone), elem_of_nodesOfKey in Hp.
      intros Hnil. rewrite Hnil in Hp. by apply elem_of_nil in Hp.
    + intros key p Hp. pose proof (Hidx _ _ _ Hp) as Hp1.
      destruct (Hfile key p Hp1) as [Hdis|Hmet]; [|exact Hmet].
      apply (removeAll_removes (graph st1) U key p) in H2 as [Hnone _];
        [fold U in Hp; by rewrite Hp in Hnone | exact HF1 | exact Hp1
        | by apply elem_of_map_to_list
        | apply storeWithin_refl].
    + intros n Hn. apply arcsRecorded_same.
      destruct (Hrec n Hn) as [(uses & Huses' & Hall) _].
      exists uses. by rewrite Harcs.
    + intros n Hn Hkind. rewrite Hext. by apply (Hrec n Hn).
  - intros met a rest s1 s2 Hl Hs1 Hstep%integrateNode_NodeStep.
    assert (Ha : a ∈ allNodes g).
    { rewrite Hl. apply elem_of_app. right. apply list_elem_of_here. }
    apply (NodeStep_mergingInto g U met s1 s2 a HU); [| |exact Hs1|exact Hstep].
    + intros sd Hsd. specialize (Hwf a Ha). by rewrite Hsd in Hwf.
    + intros n Hn Hsdn Hsda.
      apply (definedOnce_split g met rest a n Honce Hl Hn);
        [by rewrite Hsdn | by rewrite Hsda].
  - split; [by apply start_disappearedInPlace|].
    split; [intros n Hn; by apply elem_of_nil in Hn|].
    split; [intros n Hn; by apply elem_of_nil in Hn|].
    split; [|intros n Hn; by apply elem_of_nil in Hn].
    intros key p Hp. left. simpl. by rewrite lookup_nodesOfSwiftDeps.
Qed.

(** Where the second merge does change nothing. Merging the same well-formed
    graph a second time returns [UpToDate] and leaves the graph of the first
    merge, when its definitions carry fingerprints and have different keys,
    and no key that the graph only uses has a node in the file itself before
    the first merge. *)
Lemma second_merge_is_up_to_date (G G1 : DriverGraph) (g : FrontendGraph)
    (r : LoadResult) :
  consistent G → ownersNamed G →
  wellFormed g → fingerprinted g → definedOnce g → usesElsewhere g G →
  integrate G g = Done (r, G1) →
  integrate G1 g = Done (UpToDate, G1).
Proof.
  intros HG HN Hwf Hfp Honce Helse Hrun. unfold integrate in Hrun.
  apply bind_Done in Hrun as ([changed G1'] & Hrun & [= _ ->]).
  pose proof (integrateChanges_consistent G G1 g changed HG Hrun) as HG1.
  pose proof (integrateChanges_ownersNamed G G1 g changed HN Hwf Hrun) as HN1.
  apply merged_graph_is_up_to_date; try done.
  by apply (integrateChanges_mergedInto G G1 g changed).
Qed.

Lemma second_merge_is_up_to_date_witness :
  integrate barUsed usesBar = Done (UpToDate, barUsed).
Proof.
  apply (second_merge_is_up_to_date emptyGraph barUsed usesBar
           AffectsDownstream).
  - apply (bool_decide_unpack (consistent _)). vm_compute. exact I.
  - apply map_Forall_empty.
  - split; [discriminate|]. repeat constructor.
  - intros n Hn Hsd. apply elem_of_cons in Hn as [->|Hn]; [by eexists|].
    apply list_elem_of_singleton in Hn. subst n.
    destruct Hsd as [sd Hsd]. discriminate Hsd.
  - unfold definedOnce. vm_compute. apply NoDup_singleton.
  - intros n Hn Hsd. left. reflexivity.
  - vm_compute. reflexivity.
Defined.

(** ** Marking jobs, loading *)

Lemma wellFormed_usesBar : wellFormed usesBar.
Proof. split; [discriminate|]. repeat constructor. Qed.

(** X1. [markIntransitive] returns whether the job was not marked yet.
    Afterwards the job is marked, the jobs that were marked are still marked,
    the jobs of other swiftDeps are marked as before, and a second call
    returns false and leaves the graph as it is. *)
Theorem markIntransitive_marks (G : DriverGraph) (job : Job) :
  (markIntransitive G job).1 = negb (isMarked G job)
  ∧ isMarked (markIntransitive G job).2 job = true
  ∧ (∀ other, isMarked G other = true →
              isMarked (markIntransitive G job).2 other = true)
  ∧ (∀ other, getSwiftDeps other ≠ getSwiftDeps job →
              isMarked (markIntransitive G job).2 other = isMarked G other)
  ∧ markIntransitive (markIntransitive G job).2 job
    = (false, (markIntransitive G job).2).
Proof.
  unfold markIntransitive, isMarked. simpl. split; [reflexivity|].
  split.
  { apply bool_decide_eq_true, elem_of_union. left.
    by apply elem_of_singleton. }
  split.
  { intros other Ho%bool_decide_eq_true. apply bool_decide_eq_true.
    apply elem_of_union. by right. }
  split.
  { intros other Hne. apply bool_decide_ext.
    rewrite elem_of_union, elem_of_singleton. split; [|by right].
    by intros [Heq|Hin]. }
  f_equal.
  - apply negb_false_iff, bool_decide_eq_true, elem_of_union. left.
    by apply elem_of_singleton.
  - unfold withCascadingJobs. simpl. f_equal.
    by rewrite (assoc_L (∪)), union_idemp_L.
Qed.

(** X2. [loadFromBuffer] returns [HadError] exactly when the buffer does
    not parse, and then the graph is untouched: [integrate] never returns
    [HadError]. *)
Theorem loadFromBuffer_HadError (G G' : DriverGraph) (job : Job)
    (buffer : MemoryBuffer) :
  loadFromBuffer G job buffer = Done (HadError, G') ↔ buffer = None ∧ G' = G.
Proof.
  unfold loadFromBuffer. destruct buffer as [fg|]; split.
  - unfold integrate. intros H.
    apply bind_Done in H as ([changed G1] & _ & H).
    destruct (decide (changed = ∅)); discriminate H.
  - intros [H _]. discriminate H.
  - intros [= <-]. done.
  - intros [_ ->]. reflexivity.
Qed.

(** ** What a merge keeps *)

Lemma arcsWithin_refl (G : DriverGraph) : arcsWithin G G.
Proof. intros def uses H. by exists uses. Qed.

Lemma arcsWithin_trans (G1 G2 G3 : DriverGraph) :
  arcsWithin G1 G2 → arcsWithin G2 G3 → arcsWithin G1 G3.
Proof.
  intros H12 H23 def uses H.
  destruct (H12 _ _ H) as (uses2 & H2 & Hsub2).
  destruct (H23 _ _ H2) as (uses3 & H3 & Hsub3).
  exists uses3. split; [exact H3 | by etrans].
Qed.

Lemma integrateUsesByDef_arcsWithin (G : DriverGraph) (n : FrontendNode.t)
    (g : FrontendGraph) :
  arcsWithin G (integrateUsesByDef G n g).
Proof.
  intros def uses Hdef. unfold integrateUsesByDef. simpl.
  destruct (decide (def = FrontendNode.getKey n)) as [->|Hne].
  - rewrite lookup_insert_eq. eexists. split; [reflexivity|].
    rewrite Hdef. simpl. intros use Huse. apply foldl_uses_grows. by left.
  - rewrite lookup_insert_ne by done. by exists uses.
Qed.

Lemma NodeStep_frame (g : FrontendGraph) (st st' : Integration)
    (a : FrontendNode.t) :
  NodeStep g st a st' →
  cascadingJobs (graph st') = cascadingJobs (graph st)
  ∧ jobsBySwiftDeps (graph st') = jobsBySwiftDeps (graph st)
  ∧ dotFileSequenceNumberByJob (graph st')
    = dotFileSequenceNumberByJob (graph st).
Proof. by destruct 1. Qed.

Lemma removeDisappeared_frame (st st' : Integration)
    (x : DependencyKey * positive) :
  removeDisappeared st x = Done st' →
  usesByDef (graph st') = usesByDef (graph st)
  ∧ externalDependencies (graph st') = externalDependencies (graph st)
  ∧ cascadingJobs (graph st') = cascadingJobs (graph st)
  ∧ jobsBySwiftDeps (graph st') = jobsBySwiftDeps (graph st)
  ∧ dotFileSequenceNumberByJob (graph st')
    = dotFileSequenceNumberByJob (graph st).
Proof. by intros (n & _ & ->)%removeDisappeared_Done. Qed.

Lemma integrateChanges_grownFrom (G G' : DriverGraph) (g : FrontendGraph)
    (changed : gset DependencyKey) :
  integrateChanges G g = Done (changed, G') → grownFrom G G'.
Proof.
  intros (st1 & st2 & H1 & H2 & _ & ->)%integrateChanges_Done.
  apply (forEachM_invariant (λ st, grownFrom G (graph st))) in H1.
  - revert H2. apply (forEachM_invariant (λ st, grownFrom G (graph st)));
      [|exact H1].
    intros s x s' _ (Ha & He & Hc & Hj & Hd) Hrm.
    apply removeDisappeared_frame in Hrm as (Hu' & He' & Hc' & Hj' & Hd').
    split; [|by rewrite He', Hc', Hj', Hd'].
    intros def uses Hdef. rewrite Hu'. by apply Ha.
  - intros s a s' _ (Ha & He & Hc & Hj & Hd) Hstep%integrateNode_NodeStep.
    destruct (NodeStep_records _ _ _ _ Hstep) as (Hu & He' & _).
    destruct (NodeStep_frame _ _ _ _ Hstep) as (Hc' & Hj' & Hd').
    split; [|split; [by etrans|by rewrite Hc', Hj', Hd']].
    apply (arcsWithin_trans _ (graph s)); [exact Ha|].
    intros def uses Hdef. rewrite Hu.
    by apply integrateUsesByDef_arcsWithin.
  - split; [apply arcsWithin_refl|done].
Qed.

(** X4. [integrate] never forgets a use or an external dependency: the
    uses of every key after the merge include those before, also when nodes
    have disappeared, and so do the external dependencies. *)
Theorem merge_keeps_arcs_and_external_dependencies (G G' : DriverGraph)
    (g : FrontendGraph) (r : LoadResult) :
  integrate G g = Done (r, G') →
  (∀ def uses, usesByDef G !! def = Some uses →
               ∃ uses', usesByDef G' !! def = Some uses' ∧ uses ⊆ uses')
  ∧ ∀ name, name ∈ getExternalDependencies G →
            name ∈ getExternalDependencies G'.
Proof.
  unfold integrate. intros ([changed G1] & H & [= _ <-])%bind_Done.
  apply integrateChanges_grownFrom in H as (Ha & He & _).
  split; [exact Ha|]. unfold getExternalDependencies.
  intros name Hn%elem_of_elements. apply elem_of_elements. by apply He.
Qed.

Lemma merge_keeps_arcs_and_external_dependencies_witness :
  (∀ def uses, usesByDef barUsed !! def = Some uses →
               ∃ uses', usesByDef barDefined !! def = Some uses'
                        ∧ uses ⊆ uses')
  ∧ ∀ name, name ∈ getExternalDependencies barUsed →
            name ∈ getExternalDependencies barDefined.
Proof.
  apply (merge_keeps_arcs_and_external_dependencies barUsed barDefined
           definesBar AffectsDownstream).
  vm_compute. reflexivity.
Defined.

(** X3. A load whose buffer parses leaves every job marked or unmarked as
    it was, has the loaded job tracked, and keeps the job of every swiftDeps
    that had one. *)
Theorem load_tracks_job_and_marks_none (G G' : DriverGraph) (job : Job)
    (fg : FrontendGraph) (r : LoadResult) :
  loadFromBuffer G job (Some fg) = Done (r, G') →
  (∀ other, isMarked G' other = isMarked G other)
  ∧ (∃ j, getJob G' (getSwiftDeps job) = Done j)
  ∧ ∀ swiftDeps j, getJob G swiftDeps = Done j →
                   getJob G' swiftDeps = Done j.
Proof.
  unfold loadFromBuffer, integrate.
  intros ([changed G1] & H & [= _ <-])%bind_Done.
  apply integrateChanges_grownFrom in H as (_ & _ & Hc & Hj & _).
  split; [|split].
  - intros other. unfold isMarked. rewrite Hc.
    unfold addIndependentNode. by destruct (jobsBySwiftDeps G !! _).
  - unfold getJob. rewrite Hj. unfold addIndependentNode.
    destruct (jobsBySwiftDeps G !! getSwiftDeps job) as [j|] eqn:Hjob; simpl.
    + rewrite Hjob. by exists j.
    + rewrite lookup_insert_eq. by eexists.
  - intros sd j. unfold getJob. rewrite Hj. unfold addIndependentNode.
    destruct (jobsBySwiftDeps G !! sd) as [j'|] eqn:Hsd;
      [|intros H; discriminate H].
    intros [= <-].
    destruct (jobsBySwiftDeps G !! getSwiftDeps job) as [j2|] eqn:Hjob; simpl.
    + by rewrite Hsd.
    + rewrite lookup_insert_ne by congruence. by rewrite Hsd.
Qed.

Lemma load_tracks_job_and_marks_none_witness :
  (∀ other, isMarked fooLoaded other = isMarked emptyGraph other)
  ∧ (∃ j, getJob fooLoaded (getSwiftDeps (mkJob aDeps)) = Done j)
  ∧ ∀ swiftDeps j, getJob emptyGraph swiftDeps = Done j →
                   getJob fooLoaded swiftDeps = Done j.
Proof.
  apply (load_tracks_job_and_marks_none emptyGraph fooLoaded (mkJob aDeps)
           definesFoo AffectsDownstream).
  vm_compute. reflexivity.
Defined.

(** X5. After [integrate], every use that the per-file graph has for one
    of its nodes, other than the key of the node itself, is among the uses
    the graph records for the key of that node. *)
Theorem merge_records_arcs (G G' : DriverGraph) (g : FrontendGraph)
    (r : LoadResult) (n : FrontendNode.t) (use : DependencyKey) :
  integrate G g = Done (r, G') →
  n ∈ allNodes g → use ∈ FrontendGraph_forEachUseOf g n →
  use ≠ FrontendNode.getKey n →
  ∃ uses, usesByDef G' !! FrontendNode.getKey n = Some uses ∧ use ∈ uses.
Proof.
  unfold integrate. intros ([changed G1] & H & [= _ <-])%bind_Done Hn Huse Hne.
  apply integrateChanges_Done in H as (st1 & st2 & H1 & H2 & _ & ->).
  apply removeAll_within in H2 as (_ & Hu & _).
  assert (Hall : ∀ n, n ∈ allNodes g → arcsRecorded g (graph st1) n).
  { revert H1.
    apply (forEachM_prefix
             (λ met st, ∀ n, n ∈ met → arcsRecorded g (graph st) n)).
    - intros met a rest s1 s2 _ Hmet Hstep%integrateNode_NodeStep m Hm.
      apply (NodeStep_arcsRecorded g s1 s2 a m Hstep).
      apply elem_of_app in Hm as [Hm|Hm%list_elem_of_singleton];
        [right; by apply Hmet | by left].
    - intros m Hm. by apply elem_of_nil in Hm. }
  destruct (Hall n Hn) as (uses & Huses & Hin). rewrite Hu.
  exists uses. split; [exact Huses | by apply Hin].
Qed.

Lemma merge_records_arcs_witness :
  ∃ uses, usesByDef barUsed !! kBar = Some uses ∧ kFoo ∈ uses.
Proof.
  apply (merge_records_arcs emptyGraph barUsed usesBar AffectsDownstream
           (FrontendNode.mk kBar None None) kFoo).
  - vm_compute. reflexivity.
  - apply list_elem_of_further, list_elem_of_here.
  - by_compute.
  - discriminate.
Defined.

(** ** What [verify()] checks after loads *)

Lemma loadAll_wellFormed (loads : list (Job * MemoryBuffer))
    (G : DriverGraph) :
  wellFormedLoads loads → loadAll emptyGraph loads = Done G →
  consistent G ∧ ownersNamed G.
Proof.
  intros Hloads Hrun. unfold wellFormedLoads in Hloads.
  rewrite list.Forall_forall in Hloads. unfold loadAll in Hrun.
  revert Hrun.
  apply (forEachM_invariant (λ G, consistent G ∧ ownersNamed G));
    [|split; [apply emptyGraph_consistent | apply map_Forall_empty]].
  intros G1 [job [fg|]] G2 Hin [HG HN]; simpl.
  - specialize (Hloads _ Hin). simpl in Hloads. unfold integrate.
    destruct (integrateChanges (addIndependentNode G1 job) fg)
      as [[c G']|f] eqn:Hrun; simpl; [|intros H; discriminate H].
    intros [= <-]. split.
    + apply (integrateChanges_consistent _ _ fg c) in Hrun; [exact Hrun|].
      by apply addIndependentNode_consistent.
    + apply (integrateChanges_ownersNamed _ _ fg c) in Hrun;
        [exact Hrun | | exact Hloads].
      unfold addIndependentNode. by destruct (jobsBySwiftDeps G1 !! _).
  - intros [= <-]. by split.
Qed.

Lemma NodeStep_index (g : FrontendGraph) (st st' : Integration)
    (a : FrontendNode.t) (swiftDeps : string) (key : DependencyKey)
    (p : positive) :
  consistent (graph st) → NodeStep g st a st' →
  find (graph st') swiftDeps key = Some p →
  key = FrontendNode.getKey a ∨ find (graph st) swiftDeps key = Some p.
Proof.
  intros [HF _] Hstep Hp. rewrite filedInPlace_lookup in HF.
  destruct Hstep as [sd q n Hsd Hq Hn | sd e n Hsd Hq He Hone Hn
                    | sd Hsd Hq He | Hsd Hfp Hsome | Hsd Hnone];
    unfold find in *; simpl in Hp.
  - by right.
  - destruct (HF _ _ He) as (n' & Hn' & Hplace).
    rewrite Hn in Hn'. injection Hn' as <-.
    assert (Hkey : DriverNode.getKey n = FrontendNode.getKey a)
      by (by injection Hplace).
    destruct (decide ((swiftDeps, key) = (sd, DriverNode.getKey n)))
      as [[= -> ->]|Hne]; [by left|].
    rewrite fileUnder_lookup_ne in Hp by done.
    apply lookup_delete_Some in Hp as [_ Hp]. by right.
  - apply lookup_insert_Some in Hp as [[[= <- <-] _]|[_ Hp]];
      [by left | by right].
  - by right.
  - apply lookup_insert_Some in Hp as [[[= <- <-] _]|[_ Hp]];
      [by left | by right].
Qed.

Lemma NodeStep_externalTracked (g : FrontendGraph) (st st' : Integration)
    (a : FrontendNode.t) :
  consistent (graph st) → externalTracked (graph st) →
  NodeStep g st a st' → externalTracked (graph st').
Proof.
  intros HG HT Hstep s key p Hp Hkind.
  destruct (NodeStep_records _ _ _ _ Hstep) as (_ & He & Hrec).
  destruct (NodeStep_index g st st' a s key p HG Hstep Hp) as [->|Hold].
  - by apply Hrec.
  - apply He. by apply (HT s key p).
Qed.

Lemma integrateChanges_externalTracked (G G' : DriverGraph)
    (g : FrontendGraph) (changed : gset DependencyKey) :
  consistent G → externalTracked G →
  integrateChanges G g = Done (changed, G') → externalTracked G'.
Proof.
  intros HG HT (st1 & st2 & H1 & H2 & _ & ->)%integrateChanges_Done.
  apply (forEachM_invariant
           (λ st, consistent (graph st) ∧ externalTracked (graph st)))
    in H1 as [_ HT1].
  - apply removeAll_within in H2 as (Hin & _ & He).
    intros s key p Hp Hkind. rewrite He. apply (HT1 s key p); [|exact Hkind].
    by apply Hin.
  - intros s a s' _ [Hs HTs] Hstep%integrateNode_NodeStep. split.
    + by apply (NodeStep_consistent g s s' a).
    + by apply (NodeStep_externalTracked g s s' a).
  - by split.
Qed.

(** X6. After any sequence of loads, every key of the index that is an
    external dependency has its name among [getExternalDependencies]: what
    [verify()] asserts of the external dependencies holds. *)
Theorem external_dependencies_are_tracked (loads : list (Job * MemoryBuffer))
    (G : DriverGraph) (swiftDeps : string) (key : DependencyKey)
    (p : positive) :
  loadAll emptyGraph loads = Done G →
  find G swiftDeps key = Some p → getKind key = externalDepend →
  getName key ∈ getExternalDependencies G.
Proof.
  intros Hloads Hp Hkind. unfold getExternalDependencies.
  apply elem_of_elements. revert Hp Hkind.
  cut (consistent G ∧ externalTracked G).
  { intros [_ HT]. apply HT. }
  revert Hloads. unfold loadAll.
  apply (forEachM_invariant (λ G, consistent G ∧ externalTracked G)).
  - intros G1 [job [fg|]] G2 _ [HG1 HT1] H; simpl in H.
    + apply bind_Done in H as ([r G3] & H & [= <-]).
      unfold integrate in H.
      apply bind_Done in H as ([c G4] & H & [= _ <-]). split.
      * apply (integrateChanges_consistent _ _ _ _
                 (addIndependentNode_consistent G1 job HG1) H).
      * apply (integrateChanges_externalTracked (addIndependentNode G1 job)
                 _ fg c); [by apply addIndependentNode_consistent| |exact H].
        intros s k q. rewrite addIndependentNode_find.
        unfold addIndependentNode.
        destruct (jobsBySwiftDeps G1 !! _); apply HT1.
    + by injection H as <-.
  - split; [apply emptyGraph_consistent|].
    intros s k q Hq. unfold find in Hq. simpl in Hq.
    by rewrite lookup_empty in Hq.
Qed.

Lemma external_dependencies_are_tracked_witness :
  "ext.h" ∈ getExternalDependencies headerUsed.
Proof.
  apply (external_dependencies_are_tracked
           [(mkJob cDeps, Some usesHeader)] headerUsed EmptyString kHeader
           1%positive).
  - vm_compute. reflexivity.
  - vm_compute. reflexivity.
  - reflexivity.
Defined.

(** X7. After loads of well-formed per-file graphs, every entry of the
    index refers to a node of the store, which has the key of the entry and
    the swiftDeps of its bucket, none for the bucket of the empty string:
    no node is misplaced, as [verify()] asserts. *)
Theorem loaded_nodes_are_filed_where_they_belong
    (loads : list (Job * MemoryBuffer)) (G : DriverGraph)
    (swiftDeps : string) (key : DependencyKey) (p : positive) :
  wellFormedLoads loads → loadAll emptyGraph loads = Done G →
  find G swiftDeps key = Some p →
  ∃ n, nodes G !! p = Some n ∧ DriverNode.getKey n = key
       ∧ DriverNode.getSwiftDeps n
         = if decide (swiftDeps = EmptyString) then None else Some swiftDeps.
Proof.
  intros Hwf Hloads Hp.
  destruct (loadAll_wellFormed loads G Hwf Hloads) as [[HF _] HN].
  rewrite filedInPlace_lookup in HF.
  destruct (HF _ _ Hp) as (n & Hn & Hplace). exists n.
  split; [exact Hn|]. injection Hplace as Hsd Hkey. split; [exact Hkey|].
  specialize (HN p n Hn). simpl in HN.
  unfold DriverNode.getSwiftDepsForMapKey in Hsd.
  destruct (DriverNode.getSwiftDeps n) as [sd|]; simpl in Hsd; subst.
  - destruct (decide (_ = EmptyString)) as [Heq|_]; [|reflexivity].
    by rewrite Heq in HN.
  - reflexivity.
Qed.

Lemma loaded_nodes_are_filed_where_they_belong_witness :
  ∃ n, nodes (graphOf (loadAll emptyGraph sampleLoads)) !! 1%positive = Some n
       ∧ DriverNode.getKey n = kFoo
       ∧ DriverNode.getSwiftDeps n
         = if decide (aDeps = EmptyString) then None else Some aDeps.
Proof.
  apply (loaded_nodes_are_filed_where_they_belong sampleLoads
           (graphOf (loadAll emptyGraph sampleLoads)) aDeps kFoo 1%positive).
  - repeat constructor. apply wellFormed_usesBar.
  - vm_compute. reflexivity.
  - vm_compute. reflexivity.
Defined.

(** X8. [integrate] of a well-formed per-file graph, in which every node
    without swiftDeps has the key of an interface, into a consistent graph
    whose owners are named is done: no assertion of the merge fails, that of
    [integrateByCreatingANewNode] among them, the result is not [HadError],
    and the graph is consistent again. *)
Theorem merge_of_well_formed_graph_completes (G : DriverGraph)
    (g : FrontendGraph) :
  consistent G → ownersNamed G → wellFormed g → implementationsInFiles g →
  ∃ r G', integrate G g = Done (r, G') ∧ r ≠ HadError
          ∧ consistent G' ∧ ownersNamed G'.
Proof.
  intros HG HN Hwf Himpl.
  destruct (integrateChanges_completes G g HG HN Hwf Himpl)
    as (c & G' & Hrun & HG' & HN').
  unfold integrate. rewrite Hrun. simpl.
  eexists _, G'. split; [reflexivity|].
  split; [by destruct (decide (c = ∅)) | by split].
Qed.

Lemma merge_of_well_formed_graph_completes_witness :
  ∃ r G', integrate emptyGraph usesBar = Done (r, G') ∧ r ≠ HadError
          ∧ consistent G' ∧ ownersNamed G'.
Proof.
  apply (merge_of_well_formed_graph_completes emptyGraph usesBar).
  - apply emptyGraph_consistent.
  - apply map_Forall_empty.
  - apply wellFormed_usesBar.
  - repeat constructor.
Defined.

(** ** The nodes that a merge makes *)

Lemma fresh_node_is_new (G : DriverGraph) :
  nodes G !! fresh (dom (nodes G)) = None.
Proof. apply not_elem_of_dom, is_fresh. Qed.

(** X9. An integrand without swiftDeps that has a fingerprint, for a key
    that has a node already, fails an assertion of the merge. *)
Theorem use_with_fingerprint_of_known_key_is_refused (g : FrontendGraph)
    (swiftDeps : string) (st : Integration) (integrand : FrontendNode.t) :
  FrontendNode.getSwiftDeps integrand = None →
  is_Some (FrontendNode.getFingerprint integrand) →
  nodesOfKey (graph st) (FrontendNode.getKey integrand) ≠ [] →
  integrateNode g swiftDeps st integrand = Abort AssertionFailed.
Proof.
  intros Hsd [fp Hfp] Hsome. destruct st as [G d c], integrand as [k f sd].
  simpl in *. subst sd f.
  unfold integrateNode, integrateFrontendNode; simpl.
  set (G1 := integrateUsesByDef G _ g).
  change (find G1 EmptyString k) with (find G EmptyString k).
  change (nodesOfKey G1 k) with (nodesOfKey G k).
  apply length_one_or_more in Hsome.
  destruct (find G EmptyString k) as [e|]; simpl.
  - destruct (Nat.eqb (length (nodesOfKey G k)) 1); reflexivity.
  - by rewrite Hsome.
Qed.

Lemma use_with_fingerprint_of_known_key_is_refused_witness :
  integrateNode usesFoo aDeps (mkIntegration fooLoaded ∅ ∅)
    (FrontendNode.mk kFoo (Some "f9") None)
  = Abort AssertionFailed.
Proof.
  apply (use_with_fingerprint_of_known_key_is_refused usesFoo aDeps
           (mkIntegration fooLoaded ∅ ∅)
           (FrontendNode.mk kFoo (Some "f9") None)).
  - reflexivity.
  - by eexists.
  - vm_compute. discriminate.
Defined.

(** X10. A definition whose key has neither a node in its file nor an
    expat gets a new node: an address that was free holds the key, the
    fingerprint and the file of the definition and is filed under them, the
    key is reported changed, and every node and entry there was is kept. *)
Theorem first_definition_creates_a_node (g : FrontendGraph)
    (swiftDeps : string) (st : Integration) (integrand : FrontendNode.t)
    (sd : string) :
  FrontendNode.getSwiftDeps integrand = Some sd →
  find (graph st) sd (FrontendNode.getKey integrand) = None →
  find (graph st) EmptyString (FrontendNode.getKey integrand) = None →
  ∃ st' p,
    integrateNode g swiftDeps st integrand = Done st'
    ∧ nodes (graph st) !! p = None
    ∧ nodes (graph st') !! p
      = Some (DriverNode.mk (FrontendNode.getKey integrand)
                (FrontendNode.getFingerprint integrand) (Some sd))
    ∧ find (graph st') sd (FrontendNode.getKey integrand) = Some p
    ∧ FrontendNode.getKey integrand ∈ changedNodes st'
    ∧ disappearedNodes st' = disappearedNodes st
    ∧ (∀ q n, nodes (graph st) !! q = Some n →
              nodes (graph st') !! q = Some n)
    ∧ (∀ s key q, find (graph st) s key = Some q →
                  find (graph st') s key = Some q).
Proof.
  intros Hsd Hp He. destruct st as [G d c], integrand as [k fp sd'].
  simpl in *. subst sd'.
  unfold integrateNode, integrateFrontendNode; simpl.
  set (G1 := integrateUsesByDef G _ g).
  change (find G1 sd k) with (find G sd k).
  change (find G1 EmptyString k) with (find G EmptyString k).
  rewrite Hp, He. simpl.
  rewrite (integrateByCreatingANewNode_Done G1). simpl.
  change (nodes G1) with (nodes G). change (nodeMap G1) with (nodeMap G).
  set (p := fresh (dom (nodes G))).
  assert (Hnew : nodes G !! p = None) by apply fresh_node_is_new.
  unfold find in *.
  unfold fileUnder, placeOf, DriverNode.getSwiftDepsForMapKey. simpl.
  rewrite Hp.
  eexists _, p. split; [reflexivity|].
  destruct (decide (getKind k = externalDepend)); simpl;
    rewrite !lookup_insert_eq;
    (split; [exact Hnew|]; split; [reflexivity|]; split; [reflexivity|];
     split; [apply elem_of_union; left; by apply elem_of_singleton|];
     split; [reflexivity|]; split;
     [intros q nd Hq; rewrite lookup_insert_ne by congruence; exact Hq
     |intros s key q Hq; rewrite lookup_insert_ne by congruence; exact Hq]).
Qed.

Lemma first_definition_creates_a_node_witness :
  ∃ st' p,
    integrateNode definesFoo aDeps (mkIntegration emptyGraph ∅ ∅)
      (FrontendNode.mk kFoo (Some "f1") (Some aDeps)) = Done st'
    ∧ nodes emptyGraph !! p = None
    ∧ nodes (graph st') !! p
      = Some (DriverNode.mk kFoo (Some "f1") (Some aDeps))
    ∧ find (graph st') aDeps kFoo = Some p
    ∧ kFoo ∈ changedNodes st'
    ∧ disappearedNodes st' = ∅
    ∧ (∀ q n, nodes emptyGraph !! q = Some n →
              nodes (graph st') !! q = Some n)
    ∧ (∀ s key q, find emptyGraph s key = Some q →
                  find (graph st') s key = Some q).
Proof.
  apply (first_definition_creates_a_node definesFoo aDeps
           (mkIntegration emptyGraph ∅ ∅)
           (FrontendNode.mk kFoo (Some "f1") (Some aDeps)) aDeps);
    reflexivity.
Defined.

(** X11. An integrand without swiftDeps whose key is that of an interface
    and has no node at all gets a new expat: the assertion of
    [integrateByCreatingANewNode] holds, an address that was free holds the
    key and the fingerprint without a file and is filed in the bucket of the
    empty string, the key is reported changed, and every node and entry
    there was is kept. *)
Theorem first_use_creates_an_expat (g : FrontendGraph)
    (swiftDeps : string) (st : Integration) (integrand : FrontendNode.t) :
  FrontendNode.getSwiftDeps integrand = None →
  isInterface (FrontendNode.getKey integrand) = true →
  nodesOfKey (graph st) (FrontendNode.getKey integrand) = [] →
  ∃ st' p,
    integrateNode g swiftDeps st integrand = Done st'
    ∧ nodes (graph st) !! p = None
    ∧ nodes (graph st') !! p
      = Some (DriverNode.mk (FrontendNode.getKey integrand)
                (FrontendNode.getFingerprint integrand) None)
    ∧ find (graph st') EmptyString (FrontendNode.getKey integrand) = Some p
    ∧ FrontendNode.getKey integrand ∈ changedNodes st'
    ∧ disappearedNodes st' = disappearedNodes st
    ∧ (∀ q n, nodes (graph st) !! q = Some n →
              nodes (graph st') !! q = Some n)
    ∧ (∀ s key q, find (graph st) s key = Some q →
                  find (graph st') s key = Some q).
Proof.
  intros Hsd Hint Hnone. destruct st as [G d c], integrand as [k fp sd'].
  simpl in *. subst sd'.
  pose proof (proj1 (nodesOfKey_nil G k) Hnone EmptyString) as He.
  unfold integrateNode, integrateFrontendNode; simpl.
  set (G1 := integrateUsesByDef G _ g).
  change (find G1 EmptyString k) with (find G EmptyString k).
  change (nodesOfKey G1 k) with (nodesOfKey G k).
  rewrite He, Hnone. simpl. unfold integrateFrontendExpatNode. simpl.
  rewrite (integrateByCreatingANewNode_Done G1).
  unfold assertImplementationsMustBeInFiles. simpl. rewrite Hint. simpl.
  change (nodes G1) with (nodes G). change (nodeMap G1) with (nodeMap G).
  set (p := fresh (dom (nodes G))).
  assert (Hnew : nodes G !! p = None) by apply fresh_node_is_new.
  unfold find in *.
  unfold fileUnder, placeOf, DriverNode.getSwiftDepsForMapKey. simpl.
  rewrite He.
  eexists _, p. split; [reflexivity|].
  destruct (decide (getKind k = externalDepend)); simpl;
    rewrite !lookup_insert_eq;
    (split; [exact Hnew|]; split; [reflexivity|]; split; [reflexivity|];
     split; [apply elem_of_union; left; by apply elem_of_singleton|];
     split; [reflexivity|]; split;
     [intros q nd Hq; rewrite lookup_insert_ne by congruence; exact Hq
     |intros s key q Hq; rewrite lookup_insert_ne by congruence; exact Hq]).
Qed.

Lemma first_use_creates_an_expat_witness :
  ∃ st' p,
    integrateNode usesFoo aDeps (mkIntegration emptyGraph ∅ ∅)
      (FrontendNode.mk kFoo None None) = Done st'
    ∧ nodes emptyGraph !! p = None
    ∧ nodes (graph st') !! p = Some (DriverNode.mk kFoo None None)
    ∧ find (graph st') EmptyString kFoo = Some p
    ∧ kFoo ∈ changedNodes st'
    ∧ disappearedNodes st' = ∅
    ∧ (∀ q n, nodes emptyGraph !! q = Some n →
              nodes (graph st') !! q = Some n)
    ∧ (∀ s key q, find emptyGraph s key = Some q →
                  find (graph st') s key = Some q).
Proof.
  apply (first_use_creates_an_expat usesFoo aDeps
           (mkIntegration emptyGraph ∅ ∅) (FrontendNode.mk kFoo None None));
    reflexivity.
Defined.

(** The assertion of [integrateByCreatingANewNode] refuses what is left: an
    integrand without swiftDeps whose key is that of an implementation and
    has no node. *)
Lemma first_use_of_an_implementation_is_refused (g : FrontendGraph)
    (swiftDeps : string) (st : Integration) (integrand : FrontendNode.t) :
  FrontendNode.getSwiftDeps integrand = None →
  isInterface (FrontendNode.getKey integrand) = false →
  nodesOfKey (graph st) (FrontendNode.getKey integrand) = [] →
  integrateNode g swiftDeps st integrand = Abort AssertionFailed.
Proof.
  intros Hsd Hint Hnone. destruct st as [G d c], integrand as [k fp sd'].
  simpl in *. subst sd'.
  pose proof (proj1 (nodesOfKey_nil G k) Hnone EmptyString) as He.
  unfold integrateNode, integrateFrontendNode; simpl.
  set (G1 := integrateUsesByDef G _ g).
  change (find G1 EmptyString k) with (find G EmptyString k).
  change (nodesOfKey G1 k) with (nodesOfKey G k).
  rewrite He, Hnone. simpl. unfold integrateFrontendExpatNode. simpl.
  rewrite (integrateByCreatingANewNode_Done G1).
  unfold assertImplementationsMustBeInFiles. simpl. rewrite Hint.
  reflexivity.
Qed.

(** ** The nodes of the file that is merged, and of the other files *)

Lemma wellFormed_own (g : FrontendGraph) (a : FrontendNode.t) (sd : string) :
  wellFormed g → a ∈ allNodes g → FrontendNode.getSwiftDeps a = Some sd →
  sd = getSwiftDepsFromSourceFileProvide g.
Proof.
  intros [_ Hall] Ha Hsd. rewrite list.Forall_forall in Hall.
  specialize (Hall a Ha). by rewrite Hsd in Hall.
Qed.

(** X12. After [integrate] of a well-formed per-file graph, the bucket of
    its file has a node for exactly the keys that the graph defines. *)
Theorem merge_replaces_the_nodes_of_the_file (G G' : DriverGraph)
    (g : FrontendGraph) (r : LoadResult) (key : DependencyKey) :
  consistent G → wellFormed g → integrate G g = Done (r, G') →
  is_Some (find G' (getSwiftDepsFromSourceFileProvide g) key) ↔
  ∃ n, n ∈ allNodes g ∧ FrontendNode.getKey n = key
       ∧ FrontendNode.getSwiftDeps n
         = Some (getSwiftDepsFromSourceFileProvide g).
Proof.
  set (U := getSwiftDepsFromSourceFileProvide g).
  intros HG Hwf Hrun. pose proof Hwf as [HU _]. fold U in HU.
  unfold integrate in Hrun.
  apply bind_Done in Hrun as ([changed G1] & Hrun & [= _ <-]). split.
  - intros [p Hp].
    apply integrateChanges_Done in Hrun as (st1 & st2 & H1 & H2 & _ & ->).
    fold U in H1.
    assert (Hbucket : bucketOf U (allNodes g) st1).
    { revert H1. apply (forEachM_prefix (bucketOf U)).
      - intros met a rest s1 s2 Hsplit [Hd Hb] Hstep%integrateNode_NodeStep.
        split; [by apply (NodeStep_disappearedInPlace g s1 s2 a U)|].
        intros k q Hq.
        destruct (NodeStep_bucket g U s1 s2 a k q HU (proj1 Hd)) as
          [[Hk Hsd]|[Hold Hsame]]; [|exact Hstep|exact Hq| |].
        + intros sd Hsd. apply (wellFormed_own g a sd Hwf); [|exact Hsd].
          rewrite Hsplit. apply elem_of_app. right. apply list_elem_of_here.
        + right. exists a. split; [|by split].
          apply elem_of_app. right. apply list_elem_of_here.
        + destruct (Hb k q Hold) as [Hdis|(n & Hn & Hk & Hsd)].
          * left. by rewrite Hsame.
          * right. exists n. split; [|by split]. apply elem_of_app. by left.
      - split; [by apply start_disappearedInPlace|].
        intros k q Hq. left. simpl. by rewrite lookup_nodesOfSwiftDeps. }
    destruct Hbucket as [[[HF1 _] _] Hb].
    pose proof (removeAll_within _ _ _ H2) as (Hin & _ & _).
    destruct (Hb key p (Hin _ _ _ Hp)) as [Hdis|Hn]; [|exact Hn].
    apply (removeAll_removes (graph st1) U key p) in H2 as [Hgone _];
      [congruence | exact HF1 | by apply Hin
      | by apply elem_of_map_to_list | apply storeWithin_refl].
  - intros (n & Hn & <- & Hsd).
    by apply (integrateChanges_keeps_definition G G1 g changed n).
Qed.

Lemma merge_replaces_the_nodes_of_the_file_witness :
  is_Some (find secondMerge.2
             (getSwiftDepsFromSourceFileProvide definesBarInstead) kFoo) ↔
  ∃ n, n ∈ allNodes definesBarInstead ∧ FrontendNode.getKey n = kFoo
       ∧ FrontendNode.getSwiftDeps n
         = Some (getSwiftDepsFromSourceFileProvide definesBarInstead).
Proof.
  apply (merge_replaces_the_nodes_of_the_file afterDefinesBar secondMerge.2
           definesBarInstead AffectsDownstream kFoo).
  - by_compute.
  - split; [discriminate|]. repeat constructor.
  - vm_compute. reflexivity.
Defined.

Lemma NodeStep_other_bucket (g : FrontendGraph) (U V : string)
    (st st' : Integration) (a : FrontendNode.t) (key : DependencyKey)
    (p : positive) :
  V ≠ EmptyString → V ≠ U → consistent (graph st) →
  (∀ sd, FrontendNode.getSwiftDeps a = Some sd → sd = U) →
  NodeStep g st a st' →
  find (graph st') V key = Some p → find (graph st) V key = Some p.
Proof.
  intros HV HVU [HF _] Hown Hstep Hp. rewrite filedInPlace_lookup in HF.
  destruct Hstep as [sd q n Hsd Hq Hn | sd e n Hsd Hq He Hone Hn
                    | sd Hsd Hq He | Hsd Hfp Hsome | Hsd Hnone];
    unfold find in *; simpl in Hp; try exact Hp.
  - rewrite fileUnder_lookup_ne in Hp.
    + by apply lookup_delete_Some in Hp as [_ Hp].
    + intros [= -> _]. by apply HVU, Hown.
  - rewrite lookup_insert_ne in Hp; [exact Hp|].
    intros [= <- _]. by apply HVU, Hown.
  - rewrite lookup_insert_ne in Hp; [exact Hp|]. intros [= <- _]. done.
Qed.

Lemma NodeStep_keeps_other_node (g : FrontendGraph) (U V : string)
    (st st' : Integration) (a : FrontendNode.t) (key : DependencyKey)
    (p : positive) :
  V ≠ EmptyString → V ≠ U → consistent (graph st) →
  (∀ sd, FrontendNode.getSwiftDeps a = Some sd → sd = U) →
  NodeStep g st a st' →
  find (graph st) V key = Some p →
  nodes (graph st') !! p = nodes (graph st) !! p.
Proof.
  intros HV HVU [HF _] Hown Hstep Hp. pose proof HF as Hfiled.
  rewrite filedInPlace_lookup in HF.
  destruct (HF _ _ Hp) as (nd & Hnd & Hplace).
  destruct Hstep as [sd q n Hsd Hq Hn | sd e n Hsd Hq He Hone Hn
                    | sd Hsd Hq He | Hsd Hfp Hsome | Hsd Hnone]; simpl.
  - rewrite lookup_insert_ne; [reflexivity|]. intros ->.
    destruct (HF _ _ Hq) as (n' & Hn' & Hplace').
    rewrite Hnd in Hn'. injection Hn' as <-.
    rewrite Hplace in Hplace'. injection Hplace' as Hs _.
    by apply HVU; rewrite Hs; apply Hown.
  - rewrite lookup_insert_ne; [reflexivity|]. intros ->.
    destruct (HF _ _ He) as (n' & Hn' & Hplace').
    rewrite Hnd in Hn'. injection Hn' as <-.
    rewrite Hplace in Hplace'. injection Hplace' as Hs _. by apply HV.
  - rewrite lookup_insert_ne; [reflexivity|].
    symmetry. by eapply filed_not_fresh.
  - reflexivity.
  - rewrite lookup_insert_ne; [reflexivity|].
    symmetry. by eapply filed_not_fresh.
Qed.

(** X13. [integrate] of a well-formed per-file graph leaves the bucket of
    every other file as it was: the same keys, the same nodes, unchanged. *)
Theorem merge_leaves_other_files_alone (G G' : DriverGraph)
    (g : FrontendGraph) (r : LoadResult) (V : string)
    (key : DependencyKey) :
  consistent G → wellFormed g →
  V ≠ EmptyString → V ≠ getSwiftDepsFromSourceFileProvide g →
  integrate G g = Done (r, G') →
  find G' V key = find G V key
  ∧ ∀ p, find G V key = Some p → nodes G' !! p = nodes G !! p.
Proof.
  set (U := getSwiftDepsFromSourceFileProvide g).
  intros HG Hwf HV HVU Hrun. pose proof Hwf as [HU _]. fold U in HU.
  unfold integrate in Hrun.
  apply bind_Done in Hrun as ([changed G1] & Hrun & [= _ <-]).
  pose proof Hrun as (st1 & st2 & H1 & H2 & _ & ->)%integrateChanges_Done.
  fold U in H1.
  assert (Hloop : consistent (graph st1)
                  ∧ (∀ p, find (graph st1) V key = Some p →
                          find G V key = Some p)
                  ∧ ∀ p, find G V key = Some p →
                         find (graph st1) V key = Some p
                         ∧ nodes (graph st1) !! p = nodes G !! p).
  { revert H1.
    apply (forEachM_prefix
             (λ (met : list FrontendNode.t) st,
                consistent (graph st)
                ∧ (∀ p, find (graph st) V key = Some p →
                        find G V key = Some p)
                ∧ ∀ p, find G V key = Some p →
                       find (graph st) V key = Some p
                       ∧ nodes (graph st) !! p = nodes G !! p)).
    - intros met a rest s1 s2 Hsplit (Hs1 & Hback & Hkeep)
        Hstep%integrateNode_NodeStep.
      assert (Hown : ∀ sd, FrontendNode.getSwiftDeps a = Some sd → sd = U).
      { intros sd Hsd. apply (wellFormed_own g a sd Hwf); [|exact Hsd].
        rewrite Hsplit. apply elem_of_app. right. apply list_elem_of_here. }
      split; [by apply (NodeStep_consistent g s1 s2 a)|]. split.
      + intros p Hp. apply Hback.
        by apply (NodeStep_other_bucket g U V s1 s2 a key p).
      + intros p Hp. destruct (Hkeep p Hp) as [Hp1 Hn1]. split.
        * by apply (NodeStep_keeps_place g s1 s2 a V key p).
        * rewrite <- Hn1.
          by apply (NodeStep_keeps_other_node g U V s1 s2 a key p).
    - by split. }
  destruct Hloop as (HG1 & Hback & Hkeep).
  apply (integrateNodes_disappearedInPlace g U U) in H1 as [[HF1 _] Hd1];
    [| exact HU | by apply start_disappearedInPlace].
  pose proof (removeAll_within _ _ _ H2) as (Hin & _ & _).
  assert (Hlist : ∀ x, x ∈ map_to_list (disappearedNodes st1) →
                       find (graph st1) U x.1 = Some x.2
                       ∧ (U, x.1) ≠ (V, key)).
  { intros [k q] Hx%elem_of_map_to_list. simpl. split; [by apply Hd1|].
    intros [= -> _]. by apply HVU. }
  destruct (find G V key) as [p|] eqn:Hp.
  - destruct (Hkeep p eq_refl) as [Hp1 Hn1]. split.
    + apply (removeAll_keeps_place (graph st1) U V key p) in H2;
        [exact H2 | exact HF1 | exact Hlist | apply storeWithin_refl
        | exact Hp1].
    + intros q [= <-]. rewrite <- Hn1.
      rewrite filedInPlace_lookup in HF1.
      destruct (HF1 _ _ Hp1) as (nd & Hnd & _). rewrite Hnd.
      apply (removeAll_keeps_node (graph st1) U V key p nd) in H2;
        [exact H2 | by apply filedInPlace_lookup | exact Hlist | exact Hp1
        | apply storeWithin_refl | exact Hnd].
  - split; [|intros p Hp'; discriminate Hp'].
    destruct (find (graph st2) V key) as [q|] eqn:Hq; [|reflexivity].
    apply Hin, Hback in Hq. discriminate Hq.
Qed.

Lemma merge_leaves_other_files_alone_witness :
  find secondMerge.2 bDeps kBar = find afterDefinesBar bDeps kBar
  ∧ ∀ p, find afterDefinesBar bDeps kBar = Some p →
         nodes secondMerge.2 !! p = nodes afterDefinesBar !! p.
Proof.
  apply (merge_leaves_other_files_alone afterDefinesBar secondMerge.2
           definesBarInstead AffectsDownstream bDeps kBar).
  - by_compute.
  - split; [discriminate|]. repeat constructor.
  - discriminate.
  - discriminate.
  - vm_compute. reflexivity.
Defined.

(** ** What the traversal reaches *)

Lemma reaches_trans (G : DriverGraph) (p q r : positive) :
  reaches G p q → reaches G q r → reaches G p r.
Proof.
  induction 1 as [p|p def u q Hdef Hu _ IH]; intros Hr; [exact Hr|].
  apply (reaches_use G p def u r Hdef Hu). by apply IH.
Qed.

Lemma usesVisited_mono (G : DriverGraph) (v : positive)
    (visited visited' : gset positive) :
  visited ⊆ visited' → usesVisited G v visited → usesVisited G v visited'.
Proof. intros Hsub Hv def u Hdef Hu. by apply Hsub, (Hv def u). Qed.

Section Explore.
Context (fuel : nat) (G : DriverGraph).

Hypothesis calls_explored :
  ∀ st d st',
    checkTransitiveClosureForCascading fuel G st d = Done st' →
    explored G st st' d.

Lemma visitUses_explored (swiftDeps : string) (l : list positive)
    (st st' : gset positive * gset string) :
  forEachM (visitUse fuel G swiftDeps) st l = Done st' →
  (∀ v, v ∈ st'.1 → v ∉ st.1 →
        usesVisited G v st'.1
        ∧ (∃ u, u ∈ l ∧ reaches G u v)
        ∧ ∃ def, nodes G !! v = Some def
                 ∧ is_Some (DriverNode.getSwiftDeps def))
  ∧ ∀ sd, sd ∈ st'.2 → sd ∉ st.2 →
          (sd = swiftDeps
           ∧ ∃ u un, u ∈ l ∧ nodes G !! u = Some un
                     ∧ isInterface (DriverNode.getKey un) = true)
          ∨ ∃ u v, u ∈ l ∧ reaches G u v ∧ hasInterfaceUse G v sd.
Proof.
  revert st. induction l as [|u l IH]; intros st Hrun; simpl in Hrun.
  - injection Hrun as <-. split; [by intros v Hv Hnew|by intros sd Hsd Hnew].
  - apply bind_Done in Hrun as (st1 & Hu & Hrun).
    pose proof (visitUses_traversed fuel G
                  (λ st d st', checkTransitiveClosureForCascading_traversed
                                 fuel G st st' d) swiftDeps l st1 st' Hrun)
      as (Hv1 & Hc1 & _).
    unfold visitUse in Hu. apply bind_Done in Hu as (un & Hun & Hu).
    apply getNode_Done in Hun.
    destruct (calls_explored _ _ _ Hu) as [Hnodes Hfiles]. simpl in *.
    destruct (IH st1 Hrun) as [Hnodes' Hfiles']. split.
    + intros v Hv Hnew. destruct (decide (v ∈ st1.1)) as [Hin|Hout].
      * destruct (Hnodes v Hin Hnew) as (Huses & Hreach & Hdef).
        split; [by apply (usesVisited_mono G v st1.1)|].
        split; [|exact Hdef]. exists u. split; [apply list_elem_of_here|].
        exact Hreach.
      * destruct (Hnodes' v Hv Hout) as (Huses & (u' & Hu' & Hreach) & Hdef).
        split; [exact Huses|]. split; [|exact Hdef].
        exists u'. split; [by apply list_elem_of_further | exact Hreach].
    + intros sd Hsd Hnew. destruct (decide (sd ∈ st1.2)) as [Hin|Hout].
      * destruct (isInterface (DriverNode.getKey un)) eqn:Hint.
        -- destruct (decide (sd = swiftDeps)) as [->|Hne].
           ++ left. split; [reflexivity|]. exists u, un.
              split; [apply list_elem_of_here | by split].
           ++ right. destruct (Hfiles sd Hin) as (v & Hreach & Hv).
              { unfold rememberThatJobCascades.
                by intros [Heq%elem_of_singleton|Hold]%elem_of_union. }
              exists u, v. split; [apply list_elem_of_here | by split].
        -- right. destruct (Hfiles sd Hin Hnew) as (v & Hreach & Hv).
           exists u, v. split; [apply list_elem_of_here | by split].
      * destruct (Hfiles' sd Hsd Hout)
          as [[-> (u' & un' & Hu' & Hun' & Hint)]
             |(u' & v & Hu' & Hreach & Hv)].
        -- left. split; [reflexivity|]. exists u', un'.
           split; [by apply list_elem_of_further | by split].
        -- right. exists u', v.
           split; [by apply list_elem_of_further | by split].
Qed.
End Explore.

Lemma checkTransitiveClosureForCascading_explored (fuel : nat)
    (G : DriverGraph) (st st' : gset positive * gset string) (d : positive) :
  checkTransitiveClosureForCascading fuel G st d = Done st' →
  explored G st st' d.
Proof.
  revert st st' d. induction fuel as [|fuel IH]; intros st st' d Hrun;
    [discriminate Hrun|].
  rewrite checkTransitiveClosureForCascading_step in Hrun.
  destruct (decide (d ∈ st.1)) as [Hin|Hout].
  - injection Hrun as <-. split; [by intros v Hv Hnew|by intros sd Hsd Hnew].
  - apply bind_Done in Hrun as (def & Hdef & Hrun).
    apply getNode_Done in Hdef.
    destruct (DriverNode.getSwiftDeps def) as [swiftDeps|] eqn:Hsd;
      [|discriminate Hrun].
    pose proof (visitUses_traversed fuel G
                  (λ st d st', checkTransitiveClosureForCascading_traversed
                                 fuel G st st' d) swiftDeps _ _ _ Hrun)
      as (_ & _ & Hall & _).
    apply (visitUses_explored fuel G (λ st d st', IH st st' d)) in Hrun
      as [Hnodes Hfiles]. simpl in *. split.
    + intros v Hv Hnew. destruct (decide (v = d)) as [->|Hne].
      * split; [|split; [apply reaches_here|]].
        -- intros def' u Hdef' Hu. rewrite Hdef in Hdef'.
           injection Hdef' as <-. by apply Hall.
        -- exists def. split; [exact Hdef | by rewrite Hsd].
      * destruct (Hnodes v Hv) as (Huses & (u & Hu & Hreach) & Hres).
        { by intros [Heq%elem_of_singleton|Hin]%elem_of_union. }
        split; [exact Huses|]. split; [|exact Hres].
        by apply (reaches_use G d def u v).
    + intros sd Hin Hnew.
      destruct (Hfiles sd Hin Hnew)
        as [[-> (u & un & Hu & Hun & Hint)]|(u & v & Hu & Hreach & Hv)].
      * exists d. split; [apply reaches_here|]. by exists def, u, un.
      * exists v. split; [|exact Hv]. by apply (reaches_use G d def u v).
Qed.

Lemma traversal_exploredFrom (fuel : nat) (G : DriverGraph)
    (l : list positive) (st st' : gset positive * gset string) :
  forEachM (checkTransitiveClosureForCascading fuel G) st l = Done st' →
  exploredFrom G l st st'.
Proof.
  revert st. induction l as [|d l IH]; intros st Hrun; simpl in Hrun.
  - injection Hrun as <-. split; [done|]. split; [done|].
    split; [intros s Hs; by apply elem_of_nil in Hs|].
    split; [by intros v Hv Hnew | by intros sd Hsd Hnew].
  - apply bind_Done in Hrun as (st1 & Hd & Hrun).
    pose proof (checkTransitiveClosureForCascading_traversed _ _ _ _ _ Hd)
      as (Hv1 & Hc1 & Hd1 & Hm1).
    pose proof (checkTransitiveClosureForCascading_explored _ _ _ _ _ Hd)
      as [Hnodes1 Hfiles1].
    destruct (IH st1 Hrun) as (Hv & Hc & Hl & Hnodes & Hfiles).
    split; [by etrans|]. split; [by etrans|]. split; [|split].
    + intros s [->|Hs]%elem_of_cons; [by apply Hv | by apply Hl].
    + intros v Hin Hnew. destruct (decide (v ∈ st1.1)) as [Hin1|Hout1].
      * destruct (Hnodes1 v Hin1 Hnew) as (Huses & Hreach & Hres).
        split; [by apply (usesVisited_mono G v st1.1)|].
        split; [apply (cascadesFrom_mono G v st1.2); [exact Hc|]; 
                by apply Hm1|].
        split; [|exact Hres]. exists d. split; [apply list_elem_of_here|].
        exact Hreach.
      * destruct (Hnodes v Hin Hout1)
          as (Huses & Hcasc & (s & Hs & Hreach) & Hres).
        split; [exact Huses|]. split; [exact Hcasc|]. split; [|exact Hres].
        exists s. split; [by apply list_elem_of_further | exact Hreach].
    + intros sd Hin Hnew. destruct (decide (sd ∈ st1.2)) as [Hin1|Hout1].
      * destruct (Hfiles1 sd Hin1 Hnew) as (v & Hreach & Hv').
        exists d, v. split; [apply list_elem_of_here | by split].
      * destruct (Hfiles sd Hin Hout1) as (s & v & Hs & Hreach & Hv').
        exists s, v. split; [by apply list_elem_of_further | by split].
Qed.

Lemma usesVisited_reaches (G : DriverGraph) (visited : gset positive)
    (p q : positive) :
  (∀ v, v ∈ visited → usesVisited G v visited) →
  p ∈ visited → reaches G p q → q ∈ visited.
Proof.
  intros Hclosed Hp Hreach. induction Hreach as [p|p def u q Hdef Hu _ IH];
    [exact Hp|].
  apply IH. by apply (Hclosed p Hp def u).
Qed.

Lemma elem_of_startsOf (G : DriverGraph) (job : Job) (p : positive) :
  p ∈ startsOf G job ↔ ∃ key, find G (getSwiftDeps job) key = Some p.
Proof.
  unfold startsOf. rewrite list_elem_of_fmap. split.
  - intros ([k q] & -> & Hq%elem_of_map_to_list).
    rewrite lookup_nodesOfSwiftDeps in Hq. by exists k.
  - intros (k & Hk). exists (k, p). split; [reflexivity|].
    apply elem_of_map_to_list. by rewrite lookup_nodesOfSwiftDeps.
Qed.

Lemma jobsAdded_refl (G : DriverGraph) : jobsAdded G G.
Proof. by repeat split. Qed.

Lemma jobsAdded_trans (G1 G2 G3 : DriverGraph) :
  jobsAdded G1 G2 → jobsAdded G2 G3 → jobsAdded G1 G3.
Proof.
  intros (Hn & Hm & Hu & He & Hc & Hd & Hj)
    (Hn' & Hm' & Hu' & He' & Hc' & Hd' & Hj').
  repeat split; try congruence. intros sd j H. by apply Hj', Hj.
Qed.

Lemma copyBack_jobsCopied (G : DriverGraph) (l : list positive)
    (st st' : CopyBack) :
  nodes (trackedGraph st) = nodes G →
  forEachM copyBackVisitedJob st l = Done st' →
  jobsCopied G l st st'.
Proof.
  revert st. induction l as [|p l IH]; intros st Hstore Hrun; simpl in Hrun.
  - injection Hrun as <-. split; [apply jobsAdded_refl|]. split; [done|].
    exists []. split; [constructor|]. split.
    + intros sd Hsd. by apply elem_of_nil in Hsd.
    + exists []. split; [by rewrite app_nil_r | constructor].
  - apply bind_Done in Hrun as (st1 & Hp & Hrun).
    assert (Hstep : jobsCopied G [p] st st1
                    ∧ nodes (trackedGraph st1) = nodes G).
    { assert (Hsame : jobsCopied G [p] st st).
      { split; [apply jobsAdded_refl|]. split; [done|].
        exists []. split; [constructor|]. split.
        - intros sd Hsd. by apply elem_of_nil in Hsd.
        - exists []. split; [by rewrite app_nil_r | constructor]. }
      apply copyBackVisitedJob_Done in Hp
        as [->|(node & sd & job & Hnode & Hsd & Hout & Hjob & ->)];
        [by split|].
      rewrite Hstore in Hnode. simpl.
      split; [|exact Hstore].
      split; [apply jobsAdded_refl|].
      split; [apply union_subseteq_r|]. exists [sd].
      split; [apply NoDup_singleton|]. split.
      - intros s ->%list_elem_of_singleton. split; [exact Hout|].
        split; [apply elem_of_union; left; by apply elem_of_singleton|].
        exists p, node. split; [apply list_elem_of_here | by split].
      - exists [job]. split; [reflexivity|]. simpl.
        constructor; [exact Hjob | constructor]. }
    destruct Hstep as [(Hadd1 & Hsub1 & files1 & Hnd1 & Hfiles1 & new1
                        & Hnew1 & Hjobs1) Hstore1].
    destruct (IH st1 Hstore1 Hrun)
      as (Hadd & Hsub & files & Hnd & Hfiles & new & Hnew & Hjobs).
    split; [by apply (jobsAdded_trans _ (trackedGraph st1))|].
    split; [by etrans|]. exists (files1 ++ files). split; [|split].
    + apply list.NoDup_app. split; [exact Hnd1|]. split; [|exact Hnd].
      intros sd H1 H2. destruct (Hfiles1 sd H1) as (_ & Hin1 & _).
      destruct (Hfiles sd H2) as (Hout & _). by apply Hout.
    + intros sd [H1|H2]%elem_of_app.
      * destruct (Hfiles1 sd H1) as (Hout & Hin & q & n & Hq & Hn & Hsd).
        split; [exact Hout|]. split; [by apply Hsub|].
        apply list_elem_of_singleton in Hq. subst q.
        exists p, n. split; [apply list_elem_of_here | by split].
      * destruct (Hfiles sd H2) as (Hout & Hin & q & n & Hq & Hn & Hsd).
        split; [intros Hold; by apply Hout, Hsub1|]. split; [exact Hin|].
        exists q, n. split; [by apply list_elem_of_further | by split].
    + exists (new1 ++ new). split; [by rewrite Hnew, Hnew1, app_assoc|].
      apply Forall2_app; [|exact Hjobs].
      apply (list.Forall2_impl _ _ _ _ Hjobs1).
      intros sd j Hj. destruct Hadd as (_ & _ & _ & _ & _ & _ & Hkeep).
      by apply Hkeep.
Qed.

(** What a call of [markTransitive] that is done has done. *)
Lemma markTransitive_Done (G G' : DriverGraph) (visited jobs : list Job)
    (job : Job) :
  markTransitive G visited job = Done (jobs, G') →
  ∃ visitedNodeSet cascading st,
    exploredFrom G (startsOf G job) (∅, cascadingJobs G)
      (visitedNodeSet, cascading)
    ∧ jobsCopied G (elements visitedNodeSet)
        (mkCopyBack ∅ visited (withCascadingJobs G cascading)) st
    ∧ jobs = visitedJobs st ∧ G' = trackedGraph st.
Proof.
  unfold markTransitive. intros ([nodeSet cascading] & Htrav & H)%bind_Done.
  apply bind_Done in H as (st & Hcopy & [= <- <-]).
  exists nodeSet, cascading, st.
  split; [by apply (traversal_exploredFrom (traversalFuel G))|].
  split; [|by split]. by apply copyBack_jobsCopied.
Qed.

Lemma addIndependentNode_jobsNamed (G : DriverGraph) (job : Job) :
  jobsNamed G → jobsNamed (addIndependentNode G job).
Proof.
  intros HG sd j. unfold addIndependentNode.
  destruct (jobsBySwiftDeps G !! getSwiftDeps job) eqn:Hjob; [apply HG|].
  simpl. intros [[<- <-]|[_ Hj]]%lookup_insert_Some;
    [reflexivity | by apply HG].
Qed.

Lemma copyBack_jobsNamed (l : list positive) (st st' : CopyBack) :
  jobsNamed (trackedGraph st) →
  forEachM copyBackVisitedJob st l = Done st' →
  jobsNamed (trackedGraph st').
Proof.
  apply (forEachM_invariant (λ st, jobsNamed (trackedGraph st))).
  intros s p s' _ Hs Hp.
  by rewrite (copyBackVisitedJob_trackedGraph s s' p Hp).
Qed.

Lemma markTransitive_jobsNamed (G G' : DriverGraph)
    (visited jobs : list Job) (job : Job) :
  jobsNamed G → markTransitive G visited job = Done (jobs, G') →
  jobsNamed G'.
Proof.
  unfold markTransitive.
  intros HG ([nodeSet cascading] & _ & H)%bind_Done.
  apply bind_Done in H as (st & Hcopy & [= _ <-]).
  apply (copyBack_jobsNamed (elements nodeSet)
           (mkCopyBack ∅ visited (withCascadingJobs G cascading)) st);
    [exact HG | exact Hcopy].
Qed.

Lemma markTransitive_visited (G G' : DriverGraph) (visited jobs : list Job)
    (job : Job) :
  markTransitive G visited job = Done (jobs, G') →
  ∃ visitedNodeSet,
    (∀ p, p ∈ startsOf G job → p ∈ visitedNodeSet)
    ∧ (∀ v, v ∈ visitedNodeSet → usesVisited G v visitedNodeSet)
    ∧ ∀ p n swiftDeps,
        p ∈ visitedNodeSet → nodes G !! p = Some n →
        DriverNode.getSwiftDeps n = Some swiftDeps →
        ∃ j, getJob G' swiftDeps = Done j ∧ j ∈ jobs.
Proof.
  unfold markTransitive. intros ([nodeSet c] & Htrav & H)%bind_Done.
  apply bind_Done in H as (st' & Hcopy & [= <- <-]). exists nodeSet.
  apply (traversal_exploredFrom (traversalFuel G)) in Htrav
    as (_ & _ & Hstarts & Hnodes & _). simpl in *.
  split; [exact Hstarts|]. split.
  - intros v Hv. by destruct (Hnodes v Hv (not_elem_of_empty v)) as [Hu _].
  - apply (copyBack_copiedBack (withCascadingJobs G c)) in Hcopy
      as ([_ Hjobs] & _ & Hseen).
    + intros p n sd Hp Hn Hsd. apply Hjobs, (Hseen p n); [|exact Hn|exact Hsd].
      by apply elem_of_elements.
    + split; [reflexivity|]. simpl. intros s Hs.
      by apply not_elem_of_empty in Hs.
Qed.

(** ** What [markTransitive] returns *)

(** X14. [markTransitive] leaves the nodes, the index, the arcs and the
    external dependencies alone; it only appends to the list of jobs and
    marks jobs: what was marked or tracked stays so. *)
Theorem markTransitive_only_marks_and_tracks (G G' : DriverGraph)
    (visited jobs : list Job) (job : Job) :
  markTransitive G visited job = Done (jobs, G') →
  nodes G' = nodes G ∧ nodeMap G' = nodeMap G
  ∧ usesByDef G' = usesByDef G
  ∧ externalDependencies G' = externalDependencies G
  ∧ (∀ other, isMarked G other = true → isMarked G' other = true)
  ∧ (∀ swiftDeps j, getJob G swiftDeps = Done j →
                    getJob G' swiftDeps = Done j)
  ∧ ∃ new, jobs = visited ++ new.
Proof.
  intros (nodeSet & cascading & st & Htrav & Hcopy & -> & ->)
    %markTransitive_Done.
  destruct Htrav as (_ & Hc & _).
  destruct Hcopy as ((Hn & Hm & Hu & He & Hc' & _ & Hj) & _ & files & _ & _
                     & new & Hnew & _). simpl in *.
  repeat split; try done.
  - intros other Ho%bool_decide_eq_true. apply bool_decide_eq_true.
    rewrite Hc'. by apply Hc.
  - by exists new.
Qed.

Lemma markTransitive_only_marks_and_tracks_witness :
  nodes fooMarked.2 = nodes fooAndItsUse
  ∧ nodeMap fooMarked.2 = nodeMap fooAndItsUse
  ∧ usesByDef fooMarked.2 = usesByDef fooAndItsUse
  ∧ externalDependencies fooMarked.2 = externalDependencies fooAndItsUse
  ∧ (∀ other, isMarked fooAndItsUse other = true →
              isMarked fooMarked.2 other = true)
  ∧ (∀ swiftDeps j, getJob fooAndItsUse swiftDeps = Done j →
                    getJob fooMarked.2 swiftDeps = Done j)
  ∧ ∃ new, fooMarked.1 = [] ++ new.
Proof.
  apply (markTransitive_only_marks_and_tracks fooAndItsUse fooMarked.2 []
           fooMarked.1 (mkJob aDeps)).
  vm_compute. reflexivity.
Defined.

(** X15. [markTransitive] is transitive: the file of every node that a
    node of the starting file reaches along the arcs has its job in the
    result. *)
Theorem markTransitive_reaches_every_use (G G' : DriverGraph)
    (visited jobs : list Job) (job : Job) (key : DependencyKey)
    (p q : positive) (n : DriverNode.t) (swiftDeps : string) :
  markTransitive G visited job = Done (jobs, G') →
  find G (getSwiftDeps job) key = Some p → reaches G p q →
  nodes G !! q = Some n → DriverNode.getSwiftDeps n = Some swiftDeps →
  ∃ j, getJob G' swiftDeps = Done j ∧ j ∈ jobs.
Proof.
  intros (nodeSet & Hstarts & Hclosed & Hjobs)%markTransitive_visited
    Hp Hreach Hn Hsd.
  apply (Hjobs q n); [|exact Hn|exact Hsd].
  apply (usesVisited_reaches G nodeSet p q Hclosed); [|exact Hreach].
  apply Hstarts, elem_of_startsOf. by exists key.
Qed.

Lemma markTransitive_reaches_every_use_witness :
  ∃ j, getJob fooMarked.2 bDeps = Done j ∧ j ∈ fooMarked.1.
Proof.
  apply (markTransitive_reaches_every_use fooAndItsUse fooMarked.2 []
           fooMarked.1 (mkJob aDeps) kFoo 1%positive 2%positive
           (DriverNode.mk kBar (Some "b1") (Some bDeps)) bDeps).
  - vm_compute. reflexivity.
  - vm_compute. reflexivity.
  - apply (reaches_use fooAndItsUse 1%positive
             (DriverNode.mk kFoo (Some "f1") (Some aDeps)) 2%positive);
      [vm_compute; reflexivity | by_compute | apply reaches_here].
  - vm_compute. reflexivity.
  - reflexivity.
Defined.

(** X16. Every job that [markTransitive] appends is the job of the file of
    a node that a node of the starting file reaches. *)
Theorem markTransitive_adds_only_jobs_of_uses (G G' : DriverGraph)
    (visited jobs : list Job) (job : Job) :
  markTransitive G visited job = Done (jobs, G') →
  ∃ new,
    jobs = visited ++ new
    ∧ ∀ j, j ∈ new →
           ∃ key p q n swiftDeps,
             find G (getSwiftDeps job) key = Some p ∧ reaches G p q
             ∧ nodes G !! q = Some n
             ∧ DriverNode.getSwiftDeps n = Some swiftDeps
             ∧ getJob G' swiftDeps = Done j.
Proof.
  intros (nodeSet & cascading & st & Htrav & Hcopy & -> & ->)
    %markTransitive_Done.
  destruct Htrav as (_ & _ & _ & Hnodes & _).
  destruct Hcopy as (_ & _ & files & _ & Hfiles & new & Hnew & Hjobs).
  simpl in *. exists new. split; [exact Hnew|]. intros j Hj.
  apply list_elem_of_lookup in Hj as [i Hi].
  destruct (Forall2_lookup_r _ _ _ _ _ Hjobs Hi) as (sd & Hsd & Hjob).
  apply list_elem_of_lookup_2 in Hsd.
  destruct (Hfiles sd Hsd) as (_ & _ & q & n & Hq & Hn & Hown).
  apply elem_of_elements in Hq.
  destruct (Hnodes q Hq (not_elem_of_empty q))
    as (_ & _ & (s & Hs & Hreach) & _).
  apply elem_of_startsOf in Hs as [key Hkey].
  by exists key, s, q, n, sd.
Qed.

Lemma markTransitive_adds_only_jobs_of_uses_witness :
  ∃ new,
    fooMarked.1 = [] ++ new
    ∧ ∀ j, j ∈ new →
           ∃ key p q n swiftDeps,
             find fooAndItsUse (getSwiftDeps (mkJob aDeps)) key = Some p
             ∧ reaches fooAndItsUse p q
             ∧ nodes fooAndItsUse !! q = Some n
             ∧ DriverNode.getSwiftDeps n = Some swiftDeps
             ∧ getJob fooMarked.2 swiftDeps = Done j.
Proof.
  apply (markTransitive_adds_only_jobs_of_uses fooAndItsUse fooMarked.2 []
           fooMarked.1 (mkJob aDeps)).
  vm_compute. reflexivity.
Defined.

(** X17. When every job is recorded under its own swiftDeps,
    [markTransitive] appends no job twice. *)
Theorem markTransitive_appends_no_job_twice (G G' : DriverGraph)
    (visited jobs : list Job) (job : Job) :
  jobsNamed G → markTransitive G visited job = Done (jobs, G') →
  ∃ new, jobs = visited ++ new ∧ NoDup new.
Proof.
  intros HG Hrun.
  pose proof (markTransitive_jobsNamed G G' visited jobs job HG Hrun) as HG'.
  apply markTransitive_Done in Hrun
    as (nodeSet & cascading & st & _ & Hcopy & -> & ->).
  destruct Hcopy as (_ & _ & files & Hnd & _ & new & Hnew & Hjobs).
  simpl in *. exists new. split; [exact Hnew|].
  apply (NoDup_fmap_1 getSwiftDeps).
  assert (Heq : getSwiftDeps <$> new = files); [|by rewrite Heq].
  clear Hnew Hnd. induction Hjobs as [|sd j files new Hj _ IH];
    [reflexivity|].
  simpl. f_equal; [|exact IH]. apply (HG' sd j).
  unfold getJob in Hj. destruct (jobsBySwiftDeps _ !! sd); congruence.
Qed.

Lemma markTransitive_appends_no_job_twice_witness :
  ∃ new, fooMarked.1 = [] ++ new ∧ NoDup new.
Proof.
  apply (markTransitive_appends_no_job_twice fooAndItsUse fooMarked.2 []
           fooMarked.1 (mkJob aDeps)).
  - by_compute.
  - vm_compute. reflexivity.
Defined.

(** X18. After [markTransitive] the cascading jobs are those there were
    and the files of the reached nodes that have a use that is an interface,
    and no other. *)
Theorem markTransitive_marks_files_with_interface_uses (G G' : DriverGraph)
    (visited jobs : list Job) (job : Job) (swiftDeps : string) :
  markTransitive G visited job = Done (jobs, G') →
  swiftDeps ∈ cascadingJobs G' ↔
  swiftDeps ∈ cascadingJobs G
  ∨ ∃ key p v, find G (getSwiftDeps job) key = Some p ∧ reaches G p v
               ∧ hasInterfaceUse G v swiftDeps.
Proof.
  intros Hrun.
  pose proof (markTransitive_Done _ _ _ _ _ Hrun)
    as (nodeSet & cascading & st & Htrav & Hcopy & -> & ->).
  destruct Htrav as (_ & Hc & Hstarts & Hnodes & Hfiles).
  destruct Hcopy as ((_ & _ & _ & _ & Hc' & _) & _). simpl in *.
  rewrite Hc'. split.
  - intros Hin. destruct (decide (swiftDeps ∈ cascadingJobs G)) as [|Hnew];
      [by left|right].
    destruct (Hfiles swiftDeps Hin Hnew) as (s & v & Hs & Hreach & Hv).
    apply elem_of_startsOf in Hs as [key Hkey]. by exists key, s, v.
  - intros [Hold|(key & p & v & Hp & Hreach & Hv)]; [by apply Hc|].
    assert (Hvisited : v ∈ nodeSet).
    { apply (usesVisited_reaches G nodeSet p v); [| |exact Hreach].
      - intros w Hw. by destruct (Hnodes w Hw (not_elem_of_empty w)).
      - apply Hstarts, elem_of_startsOf. by exists key. }
    destruct (Hnodes v Hvisited (not_elem_of_empty v)) as (_ & Hcasc & _).
    destruct Hv as (def & u & un & Hdef & Hsd & Hu & Hun & Hint).
    destruct (Hcasc def u un Hdef Hu Hun Hint) as (sd & Hsd' & Hin).
    congruence.
Qed.

Lemma markTransitive_marks_files_with_interface_uses_witness :
  aDeps ∈ cascadingJobs fooMarked.2 ↔
  aDeps ∈ cascadingJobs fooAndItsUse
  ∨ ∃ key p v, find fooAndItsUse (getSwiftDeps (mkJob aDeps)) key = Some p
               ∧ reaches fooAndItsUse p v
               ∧ hasInterfaceUse fooAndItsUse v aDeps.
Proof.
  apply (markTransitive_marks_files_with_interface_uses fooAndItsUse
           fooMarked.2 [] fooMarked.1 (mkJob aDeps) aDeps).
  vm_compute. reflexivity.
Defined.

(** ** [markTransitive] is done *)

Lemma loop_aborts_as_body {S A : Type} (body : S → A → outcome S)
    (P : Failure → Prop) (l : list A) (s : S) (f : Failure) :
  (∀ s a f, a ∈ l → body s a = Abort f → P f) →
  forEachM body s l = Abort f → P f.
Proof.
  revert s. induction l as [|a l IH]; intros s Hbody Hrun; simpl in Hrun;
    [discriminate Hrun|].
  destruct (body s a) as [s1|f1] eqn:Ha; simpl in Hrun.
  - apply (IH s1); [|exact Hrun].
    intros s2 a2 f2 Ha2. apply Hbody. by apply list_elem_of_further.
  - injection Hrun as <-. apply (Hbody s a f1); [apply list_elem_of_here|].
    exact Ha.
Qed.

Lemma indexed_node (G : DriverGraph) (p : positive) :
  filedInPlace G → p ∈ indexed G → is_Some (nodes G !! p).
Proof.
  intros HF Hp. rewrite filedInPlace_lookup in HF. unfold indexed in Hp.
  apply list_elem_of_fmap in Hp as ([place q] & -> & Hq).
  apply elem_of_map_to_list in Hq.
  destruct (HF _ _ Hq) as (n & Hn & _). by exists n.
Qed.

Lemma inFile_node (G : DriverGraph) (p : positive) :
  filedInPlace G → inFile G p →
  ∃ n swiftDeps key,
    nodes G !! p = Some n ∧ DriverNode.getSwiftDeps n = Some swiftDeps
    ∧ swiftDeps ≠ EmptyString ∧ find G swiftDeps key = Some p.
Proof.
  intros HF (sd & key & Hsd & Hp). rewrite filedInPlace_lookup in HF.
  destruct (HF _ _ Hp) as (n & Hn & Hplace).
  exists n, sd, key. split; [exact Hn|]. split; [|by split].
  injection Hplace as Hfile _.
  unfold DriverNode.getSwiftDepsForMapKey in Hfile.
  destruct (DriverNode.getSwiftDeps n) as [sd'|]; simpl in Hfile;
    [by subst sd' | by subst sd].
Qed.

Lemma forEachUseOf_inFile (G : DriverGraph) (def : DriverNode.t)
    (u : positive) :
  usesInFiles G → u ∈ forEachUseOf G def → inFile G u.
Proof.
  intros HU. unfold forEachUseOf.
  destruct (usesByDef G !! DriverNode.getKey def) as [uses|] eqn:Huses;
    [|intros H; by apply elem_of_nil in H].
  intros (k & Hu & Hk)%list_elem_of_bind.
  unfold forEachMatchingNode in Hu.
  apply list_elem_of_fmap in Hu as ([s q] & -> & Hq).
  apply elem_of_nodesOfKey in Hq. simpl.
  pose proof (map_Forall_lookup_1 _ _ _ _ HU Huses k) as Hnone.
  simpl in Hnone. exists s, k. split; [|exact Hq].
  intros ->. rewrite Hnone in Hq; [discriminate Hq|].
  by apply elem_of_elements.
Qed.

Lemma reaches_inFile (G : DriverGraph) (p q : positive) :
  usesInFiles G → inFile G p → reaches G p q → inFile G q.
Proof.
  intros HU Hp Hreach.
  induction Hreach as [p|p def u q Hdef Hu _ IH]; [exact Hp|].
  apply IH. by apply (forEachUseOf_inFile G def).
Qed.

Lemma checkTransitiveClosureForCascading_aborts (G : DriverGraph)
    (fuel : nat) (st : gset positive * gset string) (d : positive)
    (f : Failure) :
  filedInPlace G → usesInFiles G → inFile G d →
  checkTransitiveClosureForCascading fuel G st d = Abort f → f = OutOfFuel.
Proof.
  intros HF HU. revert st d f.
  induction fuel as [|fuel IH]; intros st d f Hd Hrun;
    [by injection Hrun as <-|].
  rewrite checkTransitiveClosureForCascading_step in Hrun.
  destruct (decide (d ∈ st.1)); [discriminate Hrun|].
  destruct (inFile_node G d HF Hd) as (def & sd & key & Hdef & Hsd & _).
  unfold getNode in Hrun. rewrite Hdef in Hrun. simpl in Hrun.
  rewrite Hsd in Hrun.
  revert Hrun. apply (loop_aborts_as_body _ (λ f, f = OutOfFuel)).
  intros s u f' Hu Hbody. unfold visitUse in Hbody.
  apply (forEachUseOf_inFile G def u HU) in Hu.
  destruct (inFile_node G u HF Hu) as (un & _ & _ & Hun & _).
  unfold getNode in Hbody. rewrite Hun in Hbody. simpl in Hbody.
  by apply (IH _ u f' Hu Hbody).
Qed.

(** X19. On a graph whose index entries are in place, in which no key that
    is recorded as a use has an expat and every file of the index has its
    job, [markTransitive] for a job with a name is done, whatever cycles the
    arcs have: the traversal ends and no assertion fails, neither that of
    [checkTransitiveClosureForCascading] nor those of the copy-back loop,
    which adds no job. *)
Theorem markTransitive_completes (G : DriverGraph) (visited : list Job)
    (job : Job) :
  filedInPlace G → usesInFiles G → filesTracked G →
  getSwiftDeps job ≠ EmptyString →
  ∃ jobs G', markTransitive G visited job = Done (jobs, G').
Proof.
  intros HF HU HT Hjob.
  assert (Hstarts : ∀ p, p ∈ startsOf G job → inFile G p).
  { intros p [key Hkey]%elem_of_startsOf. by exists (getSwiftDeps job), key. }
  destruct (markTransitive G visited job) as [[jobs G']|f] eqn:Hrun;
    [by exists jobs, G'|].
  exfalso. unfold markTransitive in Hrun.
  destruct (forEachM (checkTransitiveClosureForCascading _ G) _ _)
    as [[nodeSet cascading]|f1] eqn:Htrav; simpl in Hrun.
  - apply (traversal_exploredFrom (traversalFuel G)) in Htrav
      as (_ & _ & _ & Hnodes & _).
    destruct (forEachM_completes
                (λ st, nodes (trackedGraph st) = nodes G
                       ∧ jobsBySwiftDeps (trackedGraph st)
                         = jobsBySwiftDeps G)
                copyBackVisitedJob (elements nodeSet)
                (mkCopyBack ∅ visited (withCascadingJobs G cascading)))
      as (st & Hst & _); [|by split|rewrite Hst in Hrun; discriminate Hrun].
    intros st p Hp%elem_of_elements [Hstore Htracked].
    destruct (Hnodes p Hp (not_elem_of_empty p))
      as (_ & _ & (s & Hs & Hreach) & _).
    pose proof (reaches_inFile G s p HU (Hstarts s Hs) Hreach) as Hin.
    destruct (inFile_node G p HF Hin) as (n & sd & key & Hn & Hsd & Hne & Hkey).
    destruct (map_Forall_lookup_1 _ _ _ _ HT Hkey) as [Hempty|[j Hj]];
      [done|]. simpl in Hj.
    unfold copyBackVisitedJob, getNode. rewrite Hstore, Hn. simpl.
    rewrite Hsd.
    destruct (decide (sd ∈ visitedSwiftDeps st)); [by exists st|].
    unfold assertImplementationsMustBeInFiles, ensureJobIsTracked, getJob.
    rewrite Htracked, Hj. simpl.
    destruct (decide (sd = EmptyString)); simpl;
      (eexists; split; [reflexivity | by split]).
  - injection Hrun as <-.
    assert (Hfuel : f1 = OutOfFuel).
    { revert Htrav. apply (loop_aborts_as_body _ (λ f, f = OutOfFuel)).
      intros s p f' Hp.
      apply checkTransitiveClosureForCascading_aborts;
        [exact HF | exact HU | by apply Hstarts]. }
    subst f1. revert Htrav. apply (loop_has_fuel G (traversalFuel G)).
    + intros st u Hu _.
      apply checkTransitiveClosureForCascading_has_fuel;
        [|apply unvisited_le_size].
      apply (elem_of_startsOf G job) in Hu as [key Hkey].
      exact (find_indexed G _ key _ Hkey).
    + intros st u st' H.
      by apply checkTransitiveClosureForCascading_traversed in H as [Hv _].
    + apply unvisited_le_size.
Qed.

Lemma markTransitive_completes_witness :
  ∃ jobs G', markTransitive headerUsed [] (mkJob cDeps) = Done (jobs, G').
Proof.
  apply (markTransitive_completes headerUsed [] (mkJob cDeps)); by_compute.
Defined.

(** ** Access, removal, dot files *)

Lemma elem_of_forEachMatchingNode (G : DriverGraph) (key : DependencyKey)
    (p : positive) :
  p ∈ forEachMatchingNode G key ↔ ∃ swiftDeps, find G swiftDeps key = Some p.
Proof.
  unfold forEachMatchingNode. rewrite list_elem_of_fmap. split.
  - intros ([s q] & -> & Hq%elem_of_nodesOfKey). by exists s.
  - intros (s & Hs). exists (s, p). split; [reflexivity|].
    by apply elem_of_nodesOfKey.
Qed.

(** X20. On a graph whose index entries are in place, [forEachNode] visits
    the nodes of the graph, each once. *)
Theorem forEachNode_visits_each_node_once (G : DriverGraph) :
  filedInPlace G →
  NoDup (forEachNode G)
  ∧ ∀ p, p ∈ forEachNode G ↔ ∃ n, inGraph G p n.
Proof.
  intros HF. rewrite filedInPlace_lookup in HF. split.
  - unfold forEachNode. apply NoDup_fmap_2_strong; [|apply NoDup_map_to_list].
    intros [pl1 p1] [pl2 p2] H1%elem_of_map_to_list H2%elem_of_map_to_list.
    simpl. intros <-.
    destruct (HF _ _ H1) as (n1 & Hn1 & <-).
    destruct (HF _ _ H2) as (n2 & Hn2 & <-). congruence.
  - intros p. unfold forEachNode, inGraph. rewrite list_elem_of_fmap. split.
    + intros ([place q] & -> & Hq%elem_of_map_to_list). simpl.
      destruct (HF _ _ Hq) as (n & Hn & _). exists n.
      split; [exact Hn | by exists place].
    + intros (n & _ & place & Hp). exists (place, p).
      split; [reflexivity | by apply elem_of_map_to_list].
Qed.

Lemma forEachNode_visits_each_node_once_witness :
  NoDup (forEachNode fooAndItsUse)
  ∧ ∀ p, p ∈ forEachNode fooAndItsUse ↔ ∃ n, inGraph fooAndItsUse p n.
Proof.
  apply (forEachNode_visits_each_node_once fooAndItsUse). by_compute.
Defined.

(** X21. On a graph whose index entries are in place, the arcs that
    [forEachArc] visits are the pairs of a node of the graph and one of the
    nodes [forEachUseOf] gives for it. *)
Theorem forEachArc_are_the_uses_of_the_nodes (G : DriverGraph)
    (d u : positive) :
  filedInPlace G →
  (d, u) ∈ forEachArc G ↔ ∃ def, inGraph G d def ∧ u ∈ forEachUseOf G def.
Proof.
  intros HF. rewrite filedInPlace_lookup in HF. unfold forEachArc.
  rewrite list_elem_of_bind. split.
  - intros ([key uses] & Hd & Hkey%elem_of_map_to_list). simpl in Hd.
    apply list_elem_of_bind in Hd as (d' & Hu & Hd').
    apply list_elem_of_bind in Hu as (useKey & Hu & HuseKey).
    apply list_elem_of_bind in Hu as (u' & Heq & Hu').
    apply list_elem_of_singleton in Heq. injection Heq as -> ->.
    apply elem_of_forEachMatchingNode in Hd' as [s Hs].
    destruct (HF _ _ Hs) as (def & Hdef & Hplace). exists def. split.
    + split; [exact Hdef | by exists (s, key)].
    + unfold forEachUseOf.
      assert (Hk : DriverNode.getKey def = key) by (by injection Hplace).
      rewrite Hk, Hkey. apply list_elem_of_bind. by exists useKey.
  - intros (def & [Hdef [place Hplace]] & Hu).
    destruct (HF _ _ Hplace) as (def' & Hdef' & <-).
    rewrite Hdef in Hdef'. injection Hdef' as <-.
    unfold forEachUseOf in Hu.
    destruct (usesByDef G !! DriverNode.getKey def) as [uses|] eqn:Huses;
      [|by apply elem_of_nil in Hu].
    apply list_elem_of_bind in Hu as (useKey & Hu & HuseKey).
    exists (DriverNode.getKey def, uses).
    split; [|by apply elem_of_map_to_list]. simpl.
    apply list_elem_of_bind. exists d. split.
    + apply list_elem_of_bind. exists useKey. split; [|exact HuseKey].
      apply list_elem_of_bind. exists u.
      split; [apply list_elem_of_here | exact Hu].
    + apply elem_of_forEachMatchingNode.
      by exists (DriverNode.getSwiftDepsForMapKey def).
Qed.

Lemma forEachArc_are_the_uses_of_the_nodes_witness :
  (1%positive, 2%positive) ∈ forEachArc fooAndItsUse ↔
  ∃ def, inGraph fooAndItsUse 1%positive def
         ∧ 2%positive ∈ forEachUseOf fooAndItsUse def.
Proof.
  apply (forEachArc_are_the_uses_of_the_nodes fooAndItsUse). by_compute.
Defined.

(** X22. [removeNode] of a node of a consistent graph frees its address
    and removes its entry, so that no entry of the index refers to it any
    more; the other entries and nodes are as they were, and the graph is
    consistent again. *)
Theorem removeNode_leaves_no_reference (G : DriverGraph)
    (place : string * DependencyKey) (p : positive) :
  consistent G → nodeMap G !! place = Some p →
  ∃ G', removeNode G p = Done G'
        ∧ nodes G' !! p = None
        ∧ (∀ pl q, nodeMap G' !! pl = Some q ↔
                   nodeMap G !! pl = Some q ∧ q ≠ p)
        ∧ (∀ q, q ≠ p → nodes G' !! q = nodes G !! q)
        ∧ consistent G'.
Proof.
  intros HG Hp. pose proof HG as [HF _]. rewrite filedInPlace_lookup in HF.
  destruct (HF _ _ Hp) as (n & Hn & <-).
  assert (Hrun : removeNode G p
                 = Done (withNodes
                           (withNodeMap G (delete (placeOf n) (nodeMap G)))
                           (delete p (nodes G)))).
  { apply removeNode_Done. by exists n. }
  eexists. split; [exact Hrun|]. simpl. split; [apply lookup_delete_eq|].
  split; [|split].
  - intros pl q. rewrite lookup_delete_Some. split.
    + intros [Hne Hq]. split; [exact Hq|]. intros ->.
      destruct (HF _ _ Hq) as (n' & Hn' & Hplace).
      rewrite Hn in Hn'. injection Hn' as <-. by apply Hne.
    + intros [Hq Hne]. split; [|exact Hq]. intros <-. congruence.
  - intros q Hne. by apply lookup_delete_ne.
  - by apply (removeNode_consistent G _ p).
Qed.

Lemma removeNode_leaves_no_reference_witness :
  ∃ G', removeNode fooAndItsUse 1%positive = Done G'
        ∧ nodes G' !! 1%positive = None
        ∧ (∀ pl q, nodeMap G' !! pl = Some q ↔
                   nodeMap fooAndItsUse !! pl = Some q ∧ q ≠ 1%positive)
        ∧ (∀ q, q ≠ 1%positive →
                nodes G' !! q = nodes fooAndItsUse !! q)
        ∧ consistent G'.
Proof.
  apply (removeNode_leaves_no_reference fooAndItsUse (aDeps, kFoo)).
  - by_compute.
  - vm_compute. reflexivity.
Defined.

Lemma length_append (s t : string) :
  String.length (s +:+ t) = String.length s + String.length t.
Proof.
  induction s as [|a s IH]; [reflexivity|].
  change (String a s +:+ t) with (String a (s +:+ t)). simpl. by rewrite IH.
Qed.

Lemma append_inj_r (t s1 s2 : string) : s1 +:+ t = s2 +:+ t → s1 = s2.
Proof.
  revert s2. induction s1 as [|a s1 IH]; intros [|b s2] Heq.
  - reflexivity.
  - apply (f_equal String.length) in Heq. rewrite !length_append in Heq.
    simpl in Heq. lia.
  - apply (f_equal String.length) in Heq. rewrite !length_append in Heq.
    simpl in Heq. lia.
  - change (String a (s1 +:+ t) = String b (s2 +:+ t)) in Heq.
    injection Heq as -> Heq. f_equal. by apply IH.
Qed.

Lemma dotFilenameForJob_inj (G G1 : DriverGraph) (job : Job) :
  (dotFilenameForJob G1 job).1 = (dotFilenameForJob G job).1 →
  default 0%N (dotFileSequenceNumberByJob G1 !! job)
  = default 0%N (dotFileSequenceNumberByJob G !! job).
Proof.
  unfold dotFilenameForJob. simpl. intros Heq.
  apply (inj (String.app _)), (inj (String.app _)) in Heq.
  apply append_inj_r in Heq. by apply (inj pretty).
Qed.

(** X23. The dot file that [loadFromPath] writes after the load has
    another name than the one it writes before: the sequence number of the
    job has advanced, also where it wraps around. *)
Theorem dot_files_of_a_load_differ (G G' : DriverGraph) (Cmd : Job)
    (buffer : MemoryBuffer) (r : LoadResult) :
  loadFromPath G Cmd (Some buffer) = Done (r, G') →
  ∃ G1, loadFromBuffer (dotFilenameForJob G Cmd).2 Cmd buffer = Done (r, G1)
        ∧ G' = (dotFilenameForJob G1 Cmd).2
        ∧ (dotFilenameForJob G1 Cmd).1 ≠ (dotFilenameForJob G Cmd).1.
Proof.
  unfold loadFromPath. intros ([r' G1] & Hload & [= <- <-])%bind_Done.
  exists G1. split; [exact Hload|]. split; [reflexivity|].
  intros Heq%dotFilenameForJob_inj.
  assert (Hseq : dotFileSequenceNumberByJob G1
                 = dotFileSequenceNumberByJob (emitDotFileForJob G Cmd)).
  { destruct buffer as [fg|]; simpl in Hload.
    - unfold integrate in Hload.
      apply bind_Done in Hload as ([c G2] & Hrun & [= _ <-]).
      apply integrateChanges_grownFrom in Hrun as (_ & _ & _ & _ & Hd).
      rewrite Hd. unfold addIndependentNode.
      by destruct (jobsBySwiftDeps _ !! _).
    - by injection Hload as _ <-. }
  rewrite Hseq in Heq. unfold emitDotFileForJob in Heq. simpl in Heq.
  rewrite lookup_insert_eq in Heq. simpl in Heq.
  set (seqNo := default 0%N (dotFileSequenceNumberByJob G !! Cmd)) in *.
  assert (Hpos : (2 ^ 32)%N ≠ 0%N) by discriminate.
  pose proof (N.mod_upper_bound (seqNo + 1) (2 ^ 32) Hpos) as Hlt.
  destruct (decide (seqNo + 1 < 2 ^ 32)%N) as [Hsmall|Hbig].
  - rewrite N.mod_small in Heq by exact Hsmall. lia.
  - assert (Hwrap : (seqNo + 1 = 2 ^ 32)%N) by lia.
    rewrite Hwrap, N.Div0.mod_same in Heq. subst seqNo.
    rewrite <- Heq in Hwrap. discriminate Hwrap.
Qed.

Lemma dot_files_of_a_load_differ_witness :
  ∃ G1, loadFromBuffer (dotFilenameForJob emptyGraph (mkJob aDeps)).2
          (mkJob aDeps) (Some definesFoo) = Done (AffectsDownstream, G1)
        ∧ fooLoadedFromPath = (dotFilenameForJob G1 (mkJob aDeps)).2
        ∧ (dotFilenameForJob G1 (mkJob aDeps)).1
          ≠ (dotFilenameForJob emptyGraph (mkJob aDeps)).1.
Proof.
  apply (dot_files_of_a_load_differ emptyGraph fooLoadedFromPath
           (mkJob aDeps) (Some definesFoo) AffectsDownstream).
  vm_compute. reflexivity.
Defined.

(** ** External dependencies *)

Lemma advanced_refl (st : list Job * DriverGraph) : advanced st st.
Proof. repeat split; try done. exists []. by rewrite app_nil_r. Qed.

Lemma advanced_trans (st1 st2 st3 : list Job * DriverGraph) :
  advanced st1 st2 → advanced st2 st3 → advanced st1 st3.
Proof.
  intros (Hn & Hm & Hu & He & Hc & Hj & new & Hnew)
    (Hn' & Hm' & Hu' & He' & Hc' & Hj' & new' & Hnew').
  repeat split; try congruence.
  - by etrans.
  - intros sd j H. by apply Hj', Hj.
  - exists (new ++ new'). by rewrite Hnew', Hnew, app_assoc.
Qed.

Lemma markTransitive_advanced (G G' : DriverGraph)
    (visited jobs : list Job) (job : Job) :
  markTransitive G visited job = Done (jobs, G') →
  advanced (visited, G) (jobs, G').
Proof.
  intros (nodeSet & cascading & st & Htrav & Hcopy & -> & ->)
    %markTransitive_Done.
  destruct Htrav as (_ & Hc & _).
  destruct Hcopy as ((Hn & Hm & Hu & He & Hc' & _ & Hj) & _ & files & _ & _
                     & new & Hnew & _). simpl in *.
  repeat split; try done; simpl.
  - by rewrite Hc'.
  - by exists new.
Qed.

Lemma markExternalUse_advanced (st st' : list Job * DriverGraph)
    (n : positive) :
  markExternalUse st n = Done st' → advanced st st'.
Proof.
  unfold markExternalUse. intros (node & _ & H)%bind_Done.
  apply bind_Done in H as (job & _ & H).
  destruct (isMarked st.2 job).
  - injection H as <-. apply advanced_refl.
  - destruct st' as [jobs G']. apply markTransitive_advanced in H.
    apply (advanced_trans _ (st.1 ++ [job], st.2)); [|exact H].
    repeat split; try done. by exists [job].
Qed.

Lemma forEachM_establishes {S A : Type} (R : S → S → Prop)
    (Q : A → S → Prop) (body : S → A → outcome S) (l : list A) :
  (∀ s, R s s) → (∀ s1 s2 s3, R s1 s2 → R s2 s3 → R s1 s3) →
  (∀ s a s', a ∈ l → body s a = Done s' → R s s' ∧ Q a s') →
  (∀ a s s', Q a s → R s s' → Q a s') →
  ∀ s s', forEachM body s l = Done s' → R s s' ∧ ∀ a, a ∈ l → Q a s'.
Proof.
  intros Hrefl Htrans Hbody Hkeep.
  induction l as [|a l IH]; intros s s' Hrun; simpl in Hrun.
  - injection Hrun as <-. split; [apply Hrefl|].
    intros a Ha. by apply elem_of_nil in Ha.
  - apply bind_Done in Hrun as (s1 & Ha & Hrun).
    destruct (Hbody s a s1 (list_elem_of_here _ _) Ha) as [HR1 HQ1].
    destruct (IH (λ s a s' Hin, Hbody s a s' (list_elem_of_further _ _ _ Hin))
                s1 s' Hrun) as [HR HQ].
    split; [by apply (Htrans s s1 s')|].
    intros b [Hb|Hb]%elem_of_cons; [|by apply HQ].
    subst b. by apply (Hkeep a s1 s').
Qed.

Lemma forEachMatchingNode_nodeMap (G G' : DriverGraph) (key : DependencyKey) :
  nodeMap G' = nodeMap G →
  forEachMatchingNode G' key = forEachMatchingNode G key.
Proof.
  intros Hm. unfold forEachMatchingNode, nodesOfKey. by rewrite Hm.
Qed.

Lemma userNoted_advanced (n : positive) (st st' : list Job * DriverGraph) :
  userNoted n st → advanced st st' → userNoted n st'.
Proof.
  intros (node & sd & j & Hn & Hsd & Hj & Hin)
    (Hn' & _ & _ & _ & Hc & Hj' & new & Hnew).
  exists node, sd, j. split; [by rewrite Hn'|]. split; [exact Hsd|].
  split; [by apply Hj'|]. destruct Hin as [Hin|Hmarked].
  - left. rewrite Hnew. apply elem_of_app. by left.
  - right. apply bool_decide_eq_true in Hmarked. apply bool_decide_eq_true.
    by apply Hc.
Qed.

Lemma markExternalUse_userNoted (st st' : list Job * DriverGraph)
    (n : positive) :
  markExternalUse st n = Done st' → userNoted n st'.
Proof.
  intros Hrun. pose proof (markExternalUse_advanced _ _ _ Hrun) as Hadv.
  unfold markExternalUse in Hrun.
  apply bind_Done in Hrun as (node & Hnode%getNode_Done & H).
  apply bind_Done in H as (job & Hjob & H).
  destruct (DriverNode.getSwiftDeps node) as [sd|] eqn:Hsd;
    [|discriminate Hjob]. simpl in Hjob.
  destruct (isMarked st.2 job) eqn:Hmarked.
  - injection H as <-. exists node, sd, job. repeat split; try done.
    by right.
  - destruct st' as [jobs G']. apply markTransitive_advanced in H.
    destruct H as (Hn' & _ & _ & _ & _ & Hj' & new & Hnew). simpl in *.
    exists node, sd, job. simpl. split; [by rewrite Hn'|].
    split; [exact Hsd|]. split; [by apply Hj'|]. left. rewrite Hnew.
    apply elem_of_app. left. apply elem_of_app. right.
    apply list_elem_of_here.
Qed.

Section MarkExternalProperties.
Variable createDependedUponKey : NodeKind → string → DependencyKey.

Lemma markExternal_Done (G G' : DriverGraph) (uses jobs : list Job)
    (externalDependency : string) :
  let key := createDependedUponKey externalDepend externalDependency in
  let useKeys := default ∅ (usesByDef G !! key) in
  let G0 := withUsesByDef G (<[key := useKeys]> (usesByDef G)) in
  markExternal createDependedUponKey G uses externalDependency
  = Done (jobs, G') →
  advanced (uses, G0) (jobs, G')
  ∧ ∀ keyOfUse n, keyOfUse ∈ useKeys → n ∈ forEachMatchingNode G keyOfUse →
                  userNoted n (jobs, G').
Proof.
  intros key useKeys G0 Hrun. unfold markExternal in Hrun.
  fold key useKeys G0 in Hrun.
  apply (forEachM_establishes advanced
           (λ keyOfUse st, ∀ n, n ∈ forEachMatchingNode st.2 keyOfUse →
                                userNoted n st)) in Hrun.
  - destruct Hrun as [Hadv Hall]. split; [exact Hadv|].
    intros k n Hk Hn. apply (Hall k); [by apply elem_of_elements|].
    destruct Hadv as (_ & Hm & _). simpl in *.
    by rewrite (forEachMatchingNode_nodeMap G0 G' k Hm).
  - apply advanced_refl.
  - apply advanced_trans.
  - intros st k st' _ Hinner.
    apply (forEachM_establishes advanced userNoted) in Hinner.
    + destruct Hinner as [Hadv Hall]. split; [exact Hadv|].
      intros n Hn. apply Hall.
      destruct Hadv as (_ & Hm & _).
      by rewrite <- (forEachMatchingNode_nodeMap st.2 st'.2 k Hm).
    + apply advanced_refl.
    + apply advanced_trans.
    + intros s n s' _ Hstep.
      split; [by apply (markExternalUse_advanced s s' n)
             |by apply (markExternalUse_userNoted s s' n)].
    + intros n s s'. apply userNoted_advanced.
  - intros k s s' Hk Hadv n Hn.
    apply (userNoted_advanced n s s'); [|exact Hadv].
    apply Hk. destruct Hadv as (_ & Hm & _).
    by rewrite <- (forEachMatchingNode_nodeMap s.2 s'.2 k Hm).
Qed.

(** X24. [markExternal] leaves the nodes, the index and the external
    dependencies alone; of the arcs it changes at most the entry of the key
    of the dependency, which it creates when there was none; it only appends
    to the list of jobs and marks jobs, and what was tracked stays so. *)
Theorem markExternal_only_marks_and_tracks (G G' : DriverGraph)
    (uses jobs : list Job) (externalDependency : string) :
  markExternal createDependedUponKey G uses externalDependency
  = Done (jobs, G') →
  nodes G' = nodes G ∧ nodeMap G' = nodeMap G
  ∧ externalDependencies G' = externalDependencies G
  ∧ usesByDef G'
    = <[createDependedUponKey externalDepend externalDependency :=
          default ∅ (usesByDef G
                       !! createDependedUponKey externalDepend
                            externalDependency)]> (usesByDef G)
  ∧ (∀ other, isMarked G other = true → isMarked G' other = true)
  ∧ (∀ swiftDeps j, getJob G swiftDeps = Done j →
                    getJob G' swiftDeps = Done j)
  ∧ ∃ new, jobs = uses ++ new.
Proof.
  intros [(Hn & Hm & Hu & He & Hc & Hj & Hnew) _]%markExternal_Done.
  simpl in *. repeat split; try done.
  intros other Ho%bool_decide_eq_true. apply bool_decide_eq_true.
  by apply Hc.
Qed.

(** X25. After [markExternal], every node of a key that uses the external
    dependency is a node of a file whose job is in the result or is
    marked. *)
Theorem markExternal_notes_every_user (G G' : DriverGraph)
    (uses jobs : list Job) (externalDependency swiftDeps : string)
    (useKeys : gset DependencyKey) (keyOfUse : DependencyKey)
    (n : positive) :
  markExternal createDependedUponKey G uses externalDependency
  = Done (jobs, G') →
  usesByDef G !! createDependedUponKey externalDepend externalDependency
  = Some useKeys →
  keyOfUse ∈ useKeys → find G swiftDeps keyOfUse = Some n →
  ∃ node sd j,
    nodes G !! n = Some node
    ∧ DriverNode.getSwiftDeps node = Some sd
    ∧ getJob G' sd = Done j
    ∧ (j ∈ jobs ∨ isMarked G' j = true).
Proof.
  intros Hrun Hkeys Hk Hn.
  pose proof (markExternal_Done G G' uses jobs externalDependency Hrun)
    as [(Hnodes & _) Hall]. simpl in Hnodes.
  rewrite Hkeys in Hall. simpl in Hall.
  destruct (Hall keyOfUse n Hk) as (node & sd & j & Hnode & Hsd & Hj & Hin).
  { apply list_elem_of_fmap. exists (swiftDeps, n).
    split; [reflexivity | by apply elem_of_nodesOfKey]. }
  simpl in *. exists node, sd, j. split; [by rewrite <- Hnodes|]. by split.
Qed.
End MarkExternalProperties.

Lemma markExternal_only_marks_and_tracks_witness :
  nodes headerMarked.2 = nodes headerUsed
  ∧ nodeMap headerMarked.2 = nodeMap headerUsed
  ∧ externalDependencies headerMarked.2 = externalDependencies headerUsed
  ∧ usesByDef headerMarked.2
    = <[sampleKey externalDepend "ext.h" :=
          default ∅ (usesByDef headerUsed
                       !! sampleKey externalDepend "ext.h")]>
        (usesByDef headerUsed)
  ∧ (∀ other, isMarked headerUsed other = true →
              isMarked headerMarked.2 other = true)
  ∧ (∀ swiftDeps j, getJob headerUsed swiftDeps = Done j →
                    getJob headerMarked.2 swiftDeps = Done j)
  ∧ ∃ new, headerMarked.1 = [] ++ new.
Proof.
  apply (markExternal_only_marks_and_tracks sampleKey headerUsed
           headerMarked.2 [] headerMarked.1 "ext.h").
  vm_compute. reflexivity.
Defined.

Lemma markExternal_notes_every_user_witness :
  ∃ node sd j,
    nodes headerUsed !! 2%positive = Some node
    ∧ DriverNode.getSwiftDeps node = Some sd
    ∧ getJob headerMarked.2 sd = Done j
    ∧ (j ∈ headerMarked.1 ∨ isMarked headerMarked.2 j = true).
Proof.
  apply (markExternal_notes_every_user sampleKey headerUsed headerMarked.2
           [] headerMarked.1 "ext.h" cDeps {[kBaz]} kBaz 2%positive).
  - vm_compute. reflexivity.
  - vm_compute. reflexivity.
  - by apply elem_of_singleton.
  - vm_compute. reflexivity.
Defined.

